(** * Earthstar "soup": the in-memory document bowl of [src/soup.ts]

    A shallow embedding of the [Bowl] class (documents, the three indexes,
    write and upsert, the query engine, write events and followers) together
    with the properties the specification states about it.

    Conventions of the embedding.

    - A JavaScript [number] that holds a timestamp, a length or a local
      index is an integer [Z]; where the code adds to a timestamp the sum
      is rounded as a double is ([numberPlusOne]).  Local indexes count
      the calls of [upsert] and stay far below 2^53, where sums are exact.
    - A JavaScript [string] is a [string] of bytes; paths and addresses
      are printable ASCII, where byte order and UTF-16 code unit order agree,
      so [String.compare] is the order of [<], [>] and of [Array.sort()].
    - A [Map] is an association list in insertion order ([JsMap]), as the
      order of [Map.values()] and [Map.keys()] is observable.
    - [Array.prototype.sort(cmp)] is the stable insertion sort [sortBy].
    - Callbacks are opaque: a call of a callback is recorded as an [Effect]
      in the trace an operation returns, and a callback does not call back
      into the bowl.
    - A mutated object is passed explicitly: [upsert] returns the state of
      its argument document after the call, and the bowl after the call.
    - [upsert], [write] and [addFollower] are the methods as they run when
      the document object can be written to and every callback returns;
      [Reachable] closes over such calls.  A call that throws midway leaves
      a bowl behind as well: [upsertObject], [addFollowerCallbackThrows] and
      [Reached] follow the methods there. *)

From Stdlib Require Import ZArith List String Ascii Bool Lia.
From Stdlib Require Import Sorting.Sorted Sorting.Permutation.
From Stdlib Require Import Structures.OrderedTypeEx.
Import ListNotations.

Local Open Scope Z_scope.
Local Open Scope string_scope.
Local Open Scope list_scope.

(* ================================================================== *)
(** ** Exceptions *)

(** A computation that returns a value or throws an [Error]. *)
Inductive Exc (A : Type) : Type :=
| Ok (a : A)
| Throw (msg : string).
Arguments Ok {A} a.
Arguments Throw {A} msg.

Definition bindExc {A B : Type} (m : Exc A) (k : A -> Exc B) : Exc B :=
  match m with
  | Ok a => k a
  | Throw msg => Throw msg
  end.

Notation "x <- m ;; k" := (bindExc m (fun x => k))
  (at level 61, m at next level, right associativity).
Notation "' p <- m ;; k" := (bindExc m (fun x => let 'p := x in k))
  (at level 61, p pattern, m at next level, right associativity).

(* ================================================================== *)
(** ** JavaScript [Map]: an association list in insertion order *)

Module JsMap.
Section Ops.
Context {K V : Type}.
Variable eqb : K -> K -> bool.

Definition t : Type := list (K * V).

Definition empty : t := [].

  (** [Map.prototype.get] *)
Fixpoint get (k : K) (m : t) : option V :=
    match m with
    | [] => None
    | (k', v) :: rest => if eqb k k' then Some v else get k rest
    end.

  (** [Map.prototype.set]: an existing key keeps its position. *)
Fixpoint set (k : K) (v : V) (m : t) : t :=
    match m with
    | [] => [(k, v)]
    | (k', v') :: rest =>
        if eqb k k' then (k, v) :: rest else (k', v') :: set k v rest
    end.

  (** [Map.prototype.keys] and [Map.prototype.values], in insertion order. *)
Definition keys (m : t) : list K := map fst m.
Definition values (m : t) : list V := map snd m.
End Ops.
End JsMap.

(* ================================================================== *)
(** ** Numbers *)

(** A [number] is a double.  Every integer of absolute value up to 2^53
    is a double, and a sum of integers that stays in this range is exact.
    Beyond, a double keeps the 53 leading bits of an integer, and a sum is
    rounded to the nearest double, to the one with the even mantissa when
    two are as near.  [roundToDouble n] is the double nearest to the
    integer [n] (in the finite range of doubles). *)
Definition roundToDouble (n : Z) : Z :=
  let a := Z.abs n in
  let e := Z.log2 a in
  if Z.ltb e 53 then n
  else
    let s := e - 52 in
    let q := Z.shiftr a s in
    let rest := a - Z.shiftl q s in
    let half := Z.shiftl 1 (s - 1) in
    let q' :=
      if Z.ltb rest half then q
      else if Z.ltb half rest then q + 1
      else if Z.even q then q else q + 1 in
    Z.sgn n * Z.shiftl q' s.

(** [x + 1] on numbers that hold integers. *)
Definition numberPlusOne (x : Z) : Z := roundToDouble (x + 1).

(* ================================================================== *)
(** ** Basic types *)

Definition AuthorAddress := string.
Definition Path := string.
Definition Signature := string.
Definition Timestamp := Z.
Definition LocalIndex := Z.

Record AuthorKeypair : Type := mkAuthorKeypair {
  address : AuthorAddress;
  secret : string;
}.

(** The three-way result [Cmp] of utils: [Lt], [Eq], [Gt] stand for
    [Cmp.LT], [Cmp.EQ], [Cmp.GT]. *)
Definition Cmp := comparison.

(* ================================================================== *)
(** ** Documents *)

Record Doc : Type := mkDoc {
  path : Path;
  timestamp : Timestamp;
  author : AuthorAddress;
  content : string;
  contentHash : string;
  contentLength : Z;
  signature : Signature;
  _localIndex : option LocalIndex;
}.

(** [doc._localIndex = i] *)
Definition setLocalIndex (doc : Doc) (i : LocalIndex) : Doc :=
  mkDoc (path doc) (timestamp doc) (author doc) (content doc)
        (contentHash doc) (contentLength doc) (signature doc) (Some i).

(** [doc.signature = s] *)
Definition setSignature (doc : Doc) (s : Signature) : Doc :=
  mkDoc (path doc) (timestamp doc) (author doc) (content doc)
        (contentHash doc) (contentLength doc) s (_localIndex doc).

Definition optZ_eqb (a b : option Z) : bool :=
  match a, b with
  | Some x, Some y => Z.eqb x y
  | None, None => true
  | _, _ => false
  end.

(** [a === b] on the documents of one bowl.  Stored documents carry
    pairwise different local indexes, so two stored documents are the same
    object exactly when all their fields agree. *)
Definition Doc_eqb (a b : Doc) : bool :=
  String.eqb (path a) (path b) && Z.eqb (timestamp a) (timestamp b)
  && String.eqb (author a) (author b) && String.eqb (content a) (content b)
  && String.eqb (contentHash a) (contentHash b)
  && Z.eqb (contentLength a) (contentLength b)
  && String.eqb (signature a) (signature b)
  && optZ_eqb (_localIndex a) (_localIndex b).

Module DocToWrite.
Record t : Type := mk {
    path : Path;
    author : AuthorAddress;
    content : string;
  }.
End DocToWrite.

(* ================================================================== *)
(** ** Document sorting and validation *)

Definition combinePathAndAuthor (doc : Doc) : string :=
  (path doc ++ "|" ++ author doc)%string.

(** Modelled from the spec: [arrayCompare] of utils is not part of the
    sources at hand.  The specification has the overwrite order as
    timestamp, tie-broken by signature, and the path order as path, then
    timestamp: the arrays are compared element by element and the first
    difference decides.  Here at the one shape it is called with, two
    arrays of two elements. *)
Definition arrayCompare {A B : Type}
    (cmpA : A -> A -> Cmp) (cmpB : B -> B -> Cmp)
    (a b : A * B) : Cmp :=
  match cmpA (fst a) (fst b) with
  | Eq => cmpB (snd a) (snd b)
  | c => c
  end.

Definition docComparePathThenNewestFirst (a b : Doc) : Cmp :=
  if String.eqb (signature a) (signature b) then Eq
  else arrayCompare String.compare Z.compare
         (path a, - timestamp a) (path b, - timestamp b).

Definition docCompareForOverwrite (newDoc oldDoc : Doc) : Cmp :=
  arrayCompare Z.compare String.compare
    (timestamp newDoc, signature newDoc)
    (timestamp oldDoc, signature oldDoc).

(** [signDoc]: the signature is ['sig' + fakeUuid()]; the fresh identifier
    is an input. *)
Definition signDoc (authorKeypair : AuthorKeypair) (doc : Doc)
    (uuid : string) : Doc :=
  setSignature doc ("sig" ++ uuid)%string.

Definition docIsValid (doc : Doc) : bool := true.

(** [Array.prototype.sort(cmp)]: stable insertion sort. *)
Section Sort.
Context {A : Type}.
Variable cmp : A -> A -> Cmp.

Fixpoint insertBy (x : A) (l : list A) : list A :=
    match l with
    | [] => [x]
    | y :: rest =>
        match cmp x y with
        | Gt => y :: insertBy x rest
        | _ => x :: y :: rest
        end
    end.

Definition sortBy (l : list A) : list A := fold_right insertBy [] l.
End Sort.

(* ================================================================== *)
(** ** Events and followers *)

Inductive UpsertResult : Type :=
| Obsolete
| AlreadyHadIt
| Invalid
| AcceptedButNotLatest
| AcceptedAndLatest.

(** The numeric value of the enumeration: negative when the document was
    not saved, positive when it was. *)
Definition UpsertResult_code (r : UpsertResult) : Z :=
  match r with
  | Obsolete => -3
  | AlreadyHadIt => -2
  | Invalid => -1
  | AcceptedButNotLatest => 1
  | AcceptedAndLatest => 2
  end.

Definition accepted (r : UpsertResult) : bool :=
  match r with
  | AcceptedButNotLatest | AcceptedAndLatest => true
  | _ => false
  end.

Record WriteEvent : Type := mkWriteEvent {
  doc : Doc;
  isLatest : bool;
  previousDocSameAuthor : option Doc;
  previousLatestDoc : option Doc;
}.

Inductive FollowerKind : Type := sync | async.
Inductive FollowerState : Type := running | sleeping | quitting.

(** The identity of a callback, and of a follower object. *)
Definition CbId := nat.
Definition FollowerId := nat.

Record Follower : Type := mkFollower {
  cb : CbId;
  nextIndex : LocalIndex;
  kind : FollowerKind;
  state : option FollowerState;
}.

Definition setState (f : Follower) (s : FollowerState) : Follower :=
  mkFollower (cb f) (nextIndex f) (kind f) (Some s).

Definition setNextIndex (f : Follower) (i : LocalIndex) : Follower :=
  mkFollower (cb f) i (kind f) (state f).

Definition FollowerState_eqb (a b : FollowerState) : bool :=
  match a, b with
  | running, running | sleeping, sleeping | quitting, quitting => true
  | _, _ => false
  end.

Definition stateIs (f : Follower) (s : FollowerState) : bool :=
  match state f with
  | Some s' => FollowerState_eqb s' s
  | None => false
  end.

(** What an operation does to the world outside the bowl, in order. *)
Inductive Effect : Type :=
| EOnWrite (c : CbId) (ev : WriteEvent)      (* an onWrite callback runs *)
| EFollowerCb (f : FollowerId) (d : Doc)     (* [follower.cb(doc)] *)
| ESetImmediate (f : FollowerId).            (* [setImmediate(() =>
                                                continueAsyncFollower(..))] *)

(* ================================================================== *)
(** ** Query *)

Module QueryFilter.
Record t : Type := mk {
  path : option Path;
  pathStartsWith : option string;
  pathEndsWith : option string;
  author : option AuthorAddress;
  timestamp : option Timestamp;
  timestampGt : option Timestamp;
  timestampLt : option Timestamp;
  contentLength : option Z;
  contentLengthGt : option Z;
  contentLengthLt : option Z;
}.
Definition none : t :=
  mk None None None None None None None None None None.
End QueryFilter.

Inductive History : Type := latest | all.
Inductive OrderBy : Type :=
| path_ASC | path_DESC | localIndex_ASC | localIndex_DESC.

Module StartAt.
Record t : Type := mk {
  localIndex : option Z;
  path : option string;
}.
End StartAt.

(** A property that is left out is [None]. *)
Record Query : Type := mkQuery {
  history : option History;
  orderBy : option OrderBy;
  startAt : option StartAt.t;
  filter : option QueryFilter.t;
  limit : option Z;
}.

(** [{}] *)
Definition emptyQuery : Query := mkQuery None None None None None.

Definition defaultQuery : Query :=
  mkQuery (Some latest) (Some path_ASC) None None None.

Definition orElse {A : Type} (a b : option A) : option A :=
  match a with
  | Some _ => a
  | None => b
  end.

(** [{ ...q1, ...q2 }] *)
Definition spread (q1 q2 : Query) : Query :=
  mkQuery (orElse (history q2) (history q1))
          (orElse (orderBy q2) (orderBy q1))
          (orElse (startAt q2) (startAt q1))
          (orElse (filter q2) (filter q1))
          (orElse (limit q2) (limit q1)).

(** [s.startsWith(p)] *)
Definition startsWith (s p : string) : bool := String.prefix p s.

(** One line of [docMatchesFilter]: [field !== undefined && !rel] does
    not hold. *)
Definition passes {A : Type} (field : option A) (rel : A -> bool) : bool :=
  match field with
  | Some v => rel v
  | None => true
  end.

Definition docMatchesFilter (doc : Doc) (filter : QueryFilter.t) : bool :=
  passes (QueryFilter.path filter) (fun v => String.eqb (path doc) v)
  && passes (QueryFilter.pathStartsWith filter) (fun v => startsWith (path doc) v)
  && passes (QueryFilter.pathEndsWith filter) (fun v => startsWith (path doc) v)
  && passes (QueryFilter.author filter) (fun v => String.eqb (author doc) v)
  && passes (QueryFilter.timestamp filter) (fun v => Z.eqb (timestamp doc) v)
  && passes (QueryFilter.timestampGt filter) (fun v => Z.gtb (timestamp doc) v)
  && passes (QueryFilter.timestampLt filter) (fun v => Z.gtb (timestamp doc) v)
  && passes (QueryFilter.contentLength filter) (fun v => Z.eqb (contentLength doc) v)
  && passes (QueryFilter.contentLengthGt filter) (fun v => Z.gtb (contentLength doc) v)
  && passes (QueryFilter.contentLengthLt filter) (fun v => Z.gtb (contentLength doc) v).

(* ================================================================== *)
(** ** The bowl *)

Record Bowl : Type := mkBowl {
  highestLocalIndex : LocalIndex;
  docWithLocalIndex : JsMap.t (K := LocalIndex) (V := Doc);
  docWithPathAndAuthor : JsMap.t (K := string) (V := Doc);
  docsByPathNewestFirst : JsMap.t (K := Path) (V := list Doc);
  onWriteCbs : list CbId;
  followers : JsMap.t (K := FollowerId) (V := Follower);
}.

(** [new Bowl()] *)
Definition emptyBowl : Bowl := mkBowl 0 [] [] [] [] [].

Definition setFollowers (b : Bowl)
    (fs : JsMap.t (K := FollowerId) (V := Follower)) : Bowl :=
  mkBowl (highestLocalIndex b) (docWithLocalIndex b) (docWithPathAndAuthor b)
         (docsByPathNewestFirst b) (onWriteCbs b) fs.

(** *** Callbacks and followers *)

(** [Set.prototype.add] on the set of callbacks. *)
Definition setAdd (c : CbId) (s : list CbId) : list CbId :=
  if existsb (Nat.eqb c) s then s else s ++ [c].

Definition onWrite (b : Bowl) (c : CbId) : Bowl :=
  mkBowl (highestLocalIndex b) (docWithLocalIndex b) (docWithPathAndAuthor b)
         (docsByPathNewestFirst b) (setAdd c (onWriteCbs b)) (followers b).

(** The loop of [getDocsSinceLocalIndex]: [n] iterations are left, [ii] is
    the loop variable and [docs] the array built so far. *)
Fixpoint docsSinceLoop (m : JsMap.t (K := LocalIndex) (V := Doc))
    (limit : option Z) (n : nat) (ii : LocalIndex) (docs : list Doc)
    : list Doc :=
  match n with
  | O => docs
  | S n' =>
      let docs' :=
        match JsMap.get Z.eqb ii m with
        | Some d => docs ++ [d]
        | None => docs
        end in
      if match limit with
         | Some l => Z.eqb (Z.of_nat (List.length docs')) l
         | None => false
         end
      then docs'
      else docsSinceLoop m limit n' (ii + 1) docs'
  end.

(** [ii] runs from [startAt] while [ii <= highestLocalIndex]. *)
Definition getDocsSinceLocalIndex (b : Bowl) (startAt : LocalIndex)
    (limit : option Z) : list Doc :=
  docsSinceLoop (docWithLocalIndex b) limit
    (Z.to_nat (highestLocalIndex b + 1 - startAt)) startAt [].

Definition wakeAsyncFollower (fid : FollowerId) (follower : Follower)
    : Exc (Follower * list Effect) :=
  if negb (stateIs follower sleeping)
  then Throw "to start, follower should have been already sleeping"
  else Ok (setState follower running, [ESetImmediate fid]).

(** One run of [continueAsyncFollower]: the follower after it and what it
    did.  The callbacks of one batch run in series and nothing else is
    interleaved with them. *)
Definition continueAsyncFollower (fid : FollowerId) (follower : Follower)
    (bowl : Bowl) : Exc (Follower * list Effect) :=
  if stateIs follower quitting then Ok (follower, [])
  else if stateIs follower sleeping
  then Throw "to continue, follower should have been already running"
  else if Z.gtb (nextIndex follower) (highestLocalIndex bowl)
  then Ok (setState follower sleeping, [])
  else
    let docs := getDocsSinceLocalIndex bowl (nextIndex follower) (Some 40) in
    Ok (follower, map (EFollowerCb fid) docs ++ [ESetImmediate fid]).

(** [addFollower]: the follower object [fid], in the state [follower], is
    registered. The bowl holds the object as it is after the call.  The
    callback returns from every call of the catch-up; for one that throws
    see [addFollowerCallbackThrows]. *)
Definition addFollower (b : Bowl) (fid : FollowerId) (follower : Follower)
    : Exc (Bowl * list Effect) :=
  let follower := setState follower sleeping in
  match kind follower with
  | sync =>
      let follower := setState follower running in
      let effects :=
        map (EFollowerCb fid)
            (getDocsSinceLocalIndex b (nextIndex follower) None) in
      let follower := setState follower sleeping in
      Ok (setFollowers b (JsMap.set Nat.eqb fid follower (followers b)),
          effects)
  | async =>
      '(follower, effects) <- wakeAsyncFollower fid follower ;;
      Ok (setFollowers b (JsMap.set Nat.eqb fid follower (followers b)),
          effects)
  end.

(** *** Get *)

(** Modelled from the spec: [keyComparer] of utils is not part of the
    sources at hand.  [keyComparer(k)] compares two objects by their
    property [k]. *)
Definition keyComparer {A K : Type} (cmpK : K -> K -> Cmp) (key : A -> K)
    (a b : A) : Cmp :=
  cmpK (key a) (key b).

(** [<] and [>] on a property that may be [undefined]: both are false
    when a side is [undefined]. *)
Definition compareOptZ (a b : option Z) : Cmp :=
  match a, b with
  | Some x, Some y => Z.compare x y
  | _, _ => Eq
  end.

Definition getAllDocs (b : Bowl) (sort : bool) : list Doc :=
  let docs := JsMap.values (docWithLocalIndex b) in
  if sort then sortBy docComparePathThenNewestFirst docs else docs.

(** [docArray[0]] of every array of the path index.  An array of the
    index is never empty ([PathInv]), so [docArray[0]] is a document. *)
Definition getLatestDocs (b : Bowl) (sort : bool) : list Doc :=
  let docs :=
    flat_map (fun docArray => firstn 1 docArray)
             (JsMap.values (docsByPathNewestFirst b)) in
  if sort then sortBy (keyComparer String.compare path) docs else docs.

Definition getAllDocsAtPath (b : Bowl) (p : Path) : option (list Doc) :=
  JsMap.get String.eqb p (docsByPathNewestFirst b).

Definition getLatestDocAtPath (b : Bowl) (p : Path) : option Doc :=
  match JsMap.get String.eqb p (docsByPathNewestFirst b) with
  | None => None
  | Some docs => nth_error docs 0
  end.

(** *** Queries *)

Definition isPathOrder (o : OrderBy) : bool :=
  match o with path_ASC | path_DESC => true | _ => false end.

Definition isLocalIndexOrder (o : OrderBy) : bool :=
  match o with localIndex_ASC | localIndex_DESC => true | _ => false end.

Definition isDesc (o : OrderBy) : bool :=
  match o with path_DESC | localIndex_DESC => true | _ => false end.

Definition OrderBy_eqb (a b : OrderBy) : bool :=
  match a, b with
  | path_ASC, path_ASC | path_DESC, path_DESC
  | localIndex_ASC, localIndex_ASC | localIndex_DESC, localIndex_DESC => true
  | _, _ => false
  end.

(** [query.orderBy === o] *)
Definition orderByIs (q : Query) (o : OrderBy) : bool :=
  match orderBy q with
  | Some o' => OrderBy_eqb o' o
  | None => false
  end.

(** [(doc._localIndex || 0)] *)
Definition localIndexOr0 (d : Doc) : Z :=
  match _localIndex d with
  | Some i => i
  | None => 0
  end.

(** The four tests on [startAt] at the head of the loop of [queryDocs]:
    true when the document is skipped ([continue]). *)
Definition skippedByStartAt (q : Query) (d : Doc) : bool :=
  match startAt q with
  | None => false
  | Some s =>
      (orderByIs q path_ASC
       && match StartAt.path s with
          | Some p => String.ltb (path d) p
          | None => false
          end)
      || (orderByIs q path_DESC
          && match StartAt.path s with
             | Some p => String.ltb p (path d)
             | None => false
             end)
      || (orderByIs q localIndex_ASC
          && match StartAt.localIndex s with
             | Some i => Z.ltb (localIndexOr0 d) i
             | None => false
             end)
      || (orderByIs q localIndex_DESC
          && match StartAt.localIndex s with
             | Some i => Z.gtb (localIndexOr0 d) i
             | None => false
             end)
  end.

(** The loop of [queryDocs] over the documents left, with the array
    [filteredDocs] built so far. *)
Fixpoint queryLoop (q : Query) (docs : list Doc) (filteredDocs : list Doc)
    : list Doc :=
  match docs with
  | [] => filteredDocs
  | d :: rest =>
      if skippedByStartAt q d then queryLoop q rest filteredDocs
      else if match filter q with
              | Some f => negb (docMatchesFilter d f)
              | None => false
              end
      then queryLoop q rest filteredDocs
      else
        let filteredDocs := filteredDocs ++ [d] in
        if match limit q with
           | Some l => Z.geb (Z.of_nat (List.length filteredDocs)) l
           | None => false
           end
        then filteredDocs
        else queryLoop q rest filteredDocs
  end.

(** [queryDocs(query?)]; [None] is a call without argument. *)
Definition queryDocs (b : Bowl) (query : option Query) : list Doc :=
  let query :=
    spread defaultQuery
      (match query with Some q => q | None => emptyQuery end) in
  let docs :=
    match history query with
    | Some all => getAllDocs b false
    | _ => getLatestDocs b false
    end in
  let docs :=
    match orderBy query with
    | Some o =>
        if isPathOrder o then sortBy docComparePathThenNewestFirst docs
        else if isLocalIndexOrder o
        then sortBy (keyComparer compareOptZ _localIndex) docs
        else docs
    | None => docs
    end in
  let docs :=
    match orderBy query with
    | Some o => if isDesc o then rev docs else docs
    | None => docs
    end in
  queryLoop query docs [].

(** [[...new Set(l)]]: the first occurrence of every element, in order. *)
Fixpoint uniq (l : list string) : list string :=
  match l with
  | [] => []
  | x :: rest => x :: List.filter (fun y => negb (String.eqb x y)) (uniq rest)
  end.

(** Modelled from the spec: [deepEqual] of utils is not part of the
    sources at hand.  [deepEqual(query, {})] holds when the query has no
    property. *)
Definition isEmptyQuery (q : Query) : bool :=
  match q with
  | mkQuery None None None None None => true
  | _ => false
  end.

Definition queryPaths (b : Bowl) (query : option Query) : list Path :=
  let paths :=
    match query with
    | None => JsMap.keys (docsByPathNewestFirst b)
    | Some q =>
        if isEmptyQuery q then JsMap.keys (docsByPathNewestFirst b)
        else uniq (map path (queryDocs b (Some q)))
    end in
  let paths := sortBy String.compare paths in
  match query with
  | Some q => if orderByIs q path_DESC then rev paths else paths
  | None => paths
  end.

Definition queryAuthors (b : Bowl) (query : option Query)
    : list AuthorAddress :=
  let authors :=
    match query with
    | None => uniq (map author (JsMap.values (docWithPathAndAuthor b)))
    | Some q =>
        if isEmptyQuery q
        then uniq (map author (JsMap.values (docWithPathAndAuthor b)))
        else uniq (map author (queryDocs b (Some q)))
    end in
  sortBy String.compare authors.

(** *** Set *)

(** The loop of [upsert] over the followers. *)
Fixpoint updateFollowers (fs : JsMap.t (K := FollowerId) (V := Follower))
    (d : Doc) (highest : LocalIndex)
    : Exc (JsMap.t (K := FollowerId) (V := Follower) * list Effect) :=
  match fs with
  | [] => Ok ([], [])
  | (fid, follower) :: rest =>
      '(follower', e1) <-
         match kind follower with
         | sync =>
             Ok (setNextIndex follower (highest + 1), [EFollowerCb fid d])
         | async =>
             if stateIs follower sleeping
             then wakeAsyncFollower fid follower
             else Ok (follower, [])
         end ;;
      '(rest', e2) <- updateFollowers rest d highest ;;
      Ok ((fid, follower') :: rest', e1 ++ e2)
  end.

(** [upsert(doc)] for a document object that can be written to (one that
    [write] has made, or parsed from a message; for a frozen object see
    [upsertObject]): the result, the argument document after the call, the
    bowl after the call and the callbacks that ran.  The new document is
    pushed and the array sorted before the local index is set on the same
    object; the comparator does not read the local index, so the array is
    the one sorted with the index already set. *)
Definition upsert (b : Bowl) (doc : Doc)
    : Exc (UpsertResult * Doc * Bowl * list Effect) :=
  if negb (docIsValid doc) then Ok (Invalid, doc, b, [])
  else
    let pathAndAuthor := combinePathAndAuthor doc in
    let existingDocSameAuthor :=
      JsMap.get String.eqb pathAndAuthor (docWithPathAndAuthor b) in
    match option_map (docCompareForOverwrite doc) existingDocSameAuthor with
    | Some Lt => Ok (Obsolete, doc, b, [])
    | Some Eq => Ok (AlreadyHadIt, doc, b, [])
    | _ =>
        let highest := highestLocalIndex b + 1 in
        let doc := setLocalIndex doc highest in
        let existingDocsSamePath :=
          match JsMap.get String.eqb (path doc) (docsByPathNewestFirst b) with
          | Some docs => docs
          | None => []
          end in
        let existingDocsSamePath :=
          sortBy docComparePathThenNewestFirst
                 (existingDocsSamePath ++ [doc]) in
        let isFirst :=
          match existingDocsSamePath with
          | d0 :: _ => Doc_eqb d0 doc
          | [] => false
          end in
        let upsertResult :=
          if isFirst then AcceptedAndLatest else AcceptedButNotLatest in
        let previousLatestDoc :=
          if isFirst && Nat.ltb 1 (List.length existingDocsSamePath)
          then nth_error existingDocsSamePath 1
          else None in
        let ev :=
          mkWriteEvent doc isFirst existingDocSameAuthor previousLatestDoc in
        let events := map (fun c => EOnWrite c ev) (onWriteCbs b) in
        '(fs, delivered) <- updateFollowers (followers b) doc highest ;;
        Ok (upsertResult, doc,
            mkBowl highest
                   (JsMap.set Z.eqb highest doc (docWithLocalIndex b))
                   (JsMap.set String.eqb pathAndAuthor doc
                              (docWithPathAndAuthor b))
                   (JsMap.set String.eqb (path doc) existingDocsSamePath
                              (docsByPathNewestFirst b))
                   (onWriteCbs b)
                   fs,
            events ++ delivered)
    end.

Section Write.

(** [fakeHash] of utils, which is not part of the sources at hand. *)
Variable fakeHash : string -> string.

(** [Buffer.byteLength] *)
Definition byteLength (s : string) : Z := Z.of_nat (String.length s).

(** The document [write(keypair, docToWrite)] prepares and signs before it
    calls [upsert]; [now] is what [now()] returns and [uuid] what
    [fakeUuid()] returns during the call. *)
Definition preparedDoc (b : Bowl) (keypair : AuthorKeypair)
    (docToWrite : DocToWrite.t) (now : Timestamp) (uuid : string) : Doc :=
  let existingDocSamePath :=
    getLatestDocAtPath b (DocToWrite.path docToWrite) in
  let doc :=
    mkDoc (DocToWrite.path docToWrite)
          (match existingDocSamePath with
           | None => now
           | Some e => numberPlusOne (timestamp e)
           end)
          (address keypair)
          (DocToWrite.content docToWrite)
          (fakeHash (DocToWrite.content docToWrite))
          (byteLength (DocToWrite.content docToWrite))
          "?"
          None in
  signDoc keypair doc uuid.

(** [write(keypair, docToWrite)]: the prepared document is a new object,
    which can be written to. *)
Definition write (b : Bowl) (keypair : AuthorKeypair)
    (docToWrite : DocToWrite.t) (now : Timestamp) (uuid : string)
    : Exc (UpsertResult * Doc * Bowl * list Effect) :=
  upsert b (preparedDoc b keypair docToWrite now uuid).

End Write.

(* ================================================================== *)
(** ** Unsubscribing *)

(** The thunk [onWrite] returns: [this.onWriteCbs.delete(cb)]. *)
Definition offWrite (b : Bowl) (c : CbId) : Bowl :=
  mkBowl (highestLocalIndex b) (docWithLocalIndex b) (docWithPathAndAuthor b)
         (docsByPathNewestFirst b)
         (List.filter (fun c' => negb (Nat.eqb c c')) (onWriteCbs b))
         (followers b).

(** The thunk [addFollower] returns: the follower is put to sleep and
    leaves the set. *)
Definition removeFollower (b : Bowl) (fid : FollowerId) : Bowl :=
  setFollowers b
    (List.filter (fun kv => negb (Nat.eqb fid (fst kv))) (followers b)).

(* ================================================================== *)
(** ** Runs of a bowl *)

(** The bowls a client brings about by calls that return: a new bowl, and
    what a call of a method, of an unsubscribe thunk, or a scheduled run
    of an asynchronous follower makes of a bowl when it returns.  The
    bowls that calls which throw leave behind are part of [Reached]. *)
Inductive Reachable : Bowl -> Prop :=
| Reach_new : Reachable emptyBowl
| Reach_onWrite b c :
    Reachable b -> Reachable (onWrite b c)
| Reach_offWrite b c :
    Reachable b -> Reachable (offWrite b c)
| Reach_addFollower b fid follower b' t :
    Reachable b ->
    addFollower b fid follower = Ok (b', t) ->
    Reachable b'
| Reach_removeFollower b fid :
    Reachable b -> Reachable (removeFollower b fid)
| Reach_continue b fid follower follower' t :
    Reachable b ->
    JsMap.get Nat.eqb fid (followers b) = Some follower ->
    continueAsyncFollower fid follower b = Ok (follower', t) ->
    Reachable (setFollowers b (JsMap.set Nat.eqb fid follower' (followers b)))
| Reach_upsert b d r d' b' t :
    Reachable b ->
    upsert b d = Ok (r, d', b', t) ->
    Reachable b'
| Reach_write fakeHash b keypair docToWrite now uuid r d' b' t :
    Reachable b ->
    write fakeHash b keypair docToWrite now uuid = Ok (r, d', b', t) ->
    Reachable b'.

(** A client that upserts the documents of a list one after the other,
    and keeps the result and the returned document of every call. *)
Fixpoint upserts (b : Bowl) (docs : list Doc)
    : Exc (Bowl * list (UpsertResult * Doc)) :=
  match docs with
  | [] => Ok (b, [])
  | d :: rest =>
      '(r, d', b', _) <- upsert b d ;;
      '(b'', log) <- upserts b' rest ;;
      Ok (b'', (r, d') :: log)
  end.

(** The local indexes the accepted calls of a log have assigned. *)
Fixpoint assignedIndexes (log : list (UpsertResult * Doc))
    : list (option LocalIndex) :=
  match log with
  | [] => []
  | (r, d) :: rest =>
      if accepted r then _localIndex d :: assignedIndexes rest
      else assignedIndexes rest
  end.

(** [firstIndex + 1, ..., firstIndex + n] *)
Fixpoint nextIndexes (firstIndex : LocalIndex) (n : nat)
    : list (option LocalIndex) :=
  match n with
  | O => []
  | S n' => Some (firstIndex + 1) :: nextIndexes (firstIndex + 1) n'
  end.

(** The runs of an asynchronous follower that the event loop makes one
    after the other while nothing else touches the bowl: every run is the
    one scheduled by its predecessor. *)
Fixpoint continueTimes (n : nat) (fid : FollowerId) (follower : Follower)
    (bowl : Bowl) : Exc (Follower * list Effect) :=
  match n with
  | O => Ok (follower, [])
  | S n' =>
      '(follower, t1) <- continueAsyncFollower fid follower bowl ;;
      '(follower, t2) <- continueTimes n' fid follower bowl ;;
      Ok (follower, t1 ++ t2)
  end.

(** The local indexes of the documents a follower's callback was called
    with, in the order of the calls. *)
Fixpoint deliveredIndexes (fid : FollowerId) (t : list Effect)
    : list (option LocalIndex) :=
  match t with
  | [] => []
  | EFollowerCb f d :: rest =>
      if Nat.eqb f fid then _localIndex d :: deliveredIndexes fid rest
      else deliveredIndexes fid rest
  | _ :: rest => deliveredIndexes fid rest
  end.

(* ================================================================== *)
(** ** The invariants of a bowl *)

(** The documents of a bowl: the values of the index by local index. *)
Definition storedDocs (b : Bowl) : list Doc :=
  JsMap.values (docWithLocalIndex b).

(** The index by local index holds the keys 1, ..., [highestLocalIndex] in
    this order, each with a document stamped with its key. *)
Definition LocalIndexInv (b : Bowl) : Prop :=
  0 <= highestLocalIndex b /\
  JsMap.keys (docWithLocalIndex b) =
    map Z.of_nat (seq 1 (Z.to_nat (highestLocalIndex b))) /\
  Forall (fun kv => _localIndex (snd kv) = Some (fst kv))
         (docWithLocalIndex b).

(** The index by path and author: a document is filed under its own key,
    is a document of the bowl, and every document of the bowl is, under
    the overwrite order, at most the document filed under its key. *)
Definition PathAndAuthorInv (b : Bowl) : Prop :=
  NoDup (JsMap.keys (docWithPathAndAuthor b)) /\
  Forall (fun kv => fst kv = combinePathAndAuthor (snd kv) /\
                    In (snd kv) (storedDocs b))
         (docWithPathAndAuthor b) /\
  Forall (fun e =>
            exists e2,
              JsMap.get String.eqb (combinePathAndAuthor e)
                        (docWithPathAndAuthor b) = Some e2 /\
              (e2 = e \/ docCompareForOverwrite e e2 = Lt))
         (storedDocs b).

(** The index by path: no array is empty, and an array holds documents of
    the bowl that have the path of its key. *)
Definition PathInv (b : Bowl) : Prop :=
  NoDup (JsMap.keys (docsByPathNewestFirst b)) /\
  Forall (fun kv => snd kv <> [] /\
                    Forall (fun e => path e = fst kv /\
                                     In e (storedDocs b))
                           (snd kv))
         (docsByPathNewestFirst b).

Definition StoreInv (b : Bowl) : Prop :=
  LocalIndexInv b /\ PathAndAuthorInv b /\ PathInv b.

(** The order the arrays of the path index are kept in: the newer
    document first and, of two documents of one timestamp, the one that
    was stored first. *)
Definition newestFirst (x y : Doc) : Prop :=
  timestamp y < timestamp x \/
  (timestamp y = timestamp x /\ localIndexOr0 x < localIndexOr0 y).

(** Every array of the path index is in this order. *)
Definition PathSorted (b : Bowl) : Prop :=
  Forall (fun kv => StronglySorted newestFirst (snd kv))
         (docsByPathNewestFirst b).

(** The overwrite key [(timestamp, signature)] of [x] is strictly below
    the one of [y]. *)
Definition overwriteKeyLt (x y : Doc) : Prop :=
  timestamp x < timestamp y \/
  (timestamp x = timestamp y /\
   String.compare (signature x) (signature y) = Lt).

(** Documents that bear the same signature bear the same timestamp. *)
Definition signaturesAgree (docs : list Doc) : Prop :=
  forall x y, In x docs -> In y docs ->
              signature x = signature y -> timestamp x = timestamp y.

(** The separator ['|'] of [combinePathAndAuthor] does not occur in [s]. *)
Fixpoint separatorFree (s : string) : bool :=
  match s with
  | EmptyString => true
  | String c rest => negb (Ascii.eqb c "|"%char) && separatorFree rest
  end.

(* ================================================================== *)
(** ** The specification's words *)

(** [s.endsWith(p)]: [p] is a suffix of [s]. *)
Definition endsWith (s p : string) : bool :=
  let n := String.length s in
  let m := String.length p in
  Nat.leb m n && String.eqb (substring (n - m) m s) p.

(** The filter as the specification words it: every field that is
    present names a relation, and the relation holds on the document. *)
Definition namedRelationsHold (doc : Doc) (filter : QueryFilter.t) : bool :=
  passes (QueryFilter.path filter) (fun v => String.eqb (path doc) v)
  && passes (QueryFilter.pathStartsWith filter) (fun v => startsWith (path doc) v)
  && passes (QueryFilter.pathEndsWith filter) (fun v => endsWith (path doc) v)
  && passes (QueryFilter.author filter) (fun v => String.eqb (author doc) v)
  && passes (QueryFilter.timestamp filter) (fun v => Z.eqb (timestamp doc) v)
  && passes (QueryFilter.timestampGt filter) (fun v => Z.gtb (timestamp doc) v)
  && passes (QueryFilter.timestampLt filter) (fun v => Z.ltb (timestamp doc) v)
  && passes (QueryFilter.contentLength filter) (fun v => Z.eqb (contentLength doc) v)
  && passes (QueryFilter.contentLengthGt filter) (fun v => Z.gtb (contentLength doc) v)
  && passes (QueryFilter.contentLengthLt filter) (fun v => Z.ltb (contentLength doc) v).

(** [sortedUnique]: the strings of a list, each once, in ascending
    order; built by inserting them one by one into an ordered list without
    repetition. *)
Fixpoint insertUnique (s : string) (l : list string) : list string :=
  match l with
  | [] => [s]
  | x :: rest =>
      match String.compare s x with
      | Lt => s :: l
      | Eq => l
      | Gt => x :: insertUnique s rest
      end
  end.

Definition sortedUnique (l : list string) : list string :=
  fold_right insertUnique [] l.

(** [string < string] *)
Definition strLt (x y : string) : Prop := String.compare x y = Lt.

(* ================================================================== *)
(** ** Sample data *)

Definition sampleHash (s : string) : string := ("hash:" ++ s)%string.

Definition authorA : AuthorKeypair := mkAuthorKeypair "@a" "secret-a".
Definition authorB : AuthorKeypair := mkAuthorKeypair "@b" "secret-b".

(** A signed document as a peer would send it. *)
Definition sampleDoc (p : Path) (t : Timestamp) (a : AuthorAddress)
    (s : Signature) : Doc :=
  mkDoc p t a "x" (sampleHash "x") 1 s None.

(** Five writes of one author at five paths, at the times 10, ..., 50. *)
Definition fiveWrites : Exc Bowl :=
  '(_, _, b, _) <- write sampleHash emptyBowl authorA (DocToWrite.mk "/1" "@a" "x") 10 "1" ;;
  '(_, _, b, _) <- write sampleHash b authorA (DocToWrite.mk "/2" "@a" "x") 20 "2" ;;
  '(_, _, b, _) <- write sampleHash b authorA (DocToWrite.mk "/3" "@a" "x") 30 "3" ;;
  '(_, _, b, _) <- write sampleHash b authorA (DocToWrite.mk "/4" "@a" "x") 40 "4" ;;
  '(_, _, b, _) <- write sampleHash b authorA (DocToWrite.mk "/5" "@a" "x") 50 "5" ;;
  Ok b.

(** The bowl a call leaves behind. *)
Definition bowlAfter (x : Exc (UpsertResult * Doc * Bowl * list Effect))
    : Bowl :=
  match x with
  | Ok (_, _, b, _) => b
  | Throw _ => emptyBowl
  end.

(** Two authors upsert at one path with one timestamp; the signature of
    the second is the greater one. *)
Definition docOfA : Doc := sampleDoc "/p" 100 "@a" "siga".
Definition docOfB : Doc := sampleDoc "/p" 100 "@b" "sigb".
Definition bowlWithA : Bowl := bowlAfter (upsert emptyBowl docOfA).
Definition bowlWithAB : Bowl := bowlAfter (upsert bowlWithA docOfB).

(** A document of author A at ["/p"] that is older than the one stored. *)
Definition staleDocOfA : Doc := sampleDoc "/p" 50 "@a" "sig0".

(* ================================================================== *)
(** ** Reading a trace, and the other thunks and options *)

(** The write events of a trace that went to the callback [c], in the
    order they were sent. *)
Fixpoint writeEventsTo (c : CbId) (t : list Effect) : list WriteEvent :=
  match t with
  | [] => []
  | EOnWrite c' ev :: rest =>
      if Nat.eqb c' c then ev :: writeEventsTo c rest
      else writeEventsTo c rest
  | _ :: rest => writeEventsTo c rest
  end.

(** The documents of a trace the callback of the follower [fid] was
    called with, in the order of the calls. *)
Fixpoint deliveredDocs (fid : FollowerId) (t : list Effect) : list Doc :=
  match t with
  | [] => []
  | EFollowerCb f d :: rest =>
      if Nat.eqb f fid then d :: deliveredDocs fid rest
      else deliveredDocs fid rest
  | _ :: rest => deliveredDocs fid rest
  end.

(** How often a trace schedules a run of the follower [fid]. *)
Fixpoint scheduledRuns (fid : FollowerId) (t : list Effect) : nat :=
  match t with
  | [] => O
  | ESetImmediate f :: rest =>
      if Nat.eqb f fid then S (scheduledRuns fid rest)
      else scheduledRuns fid rest
  | _ :: rest => scheduledRuns fid rest
  end.

(** The thunk [addFollower] returns, called when the follower object is
    in the state [follower]: the object is put to sleep and leaves the
    set.  The bowl and the object after the call. *)
Definition unsubscribeFollower (b : Bowl) (fid : FollowerId)
    (follower : Follower) : Bowl * Follower :=
  (removeFollower b fid, setState follower sleeping).

(** [{ ...query, limit: l }] and a query without [limit]. *)
Definition withLimit (q : Query) (l : option Z) : Query :=
  mkQuery (history q) (orderBy q) (startAt q) (filter q) l.

(** [a === b] on upsert results. *)
Definition UpsertResult_eqb (a b : UpsertResult) : bool :=
  Z.eqb (UpsertResult_code a) (UpsertResult_code b).

(** The callbacks of a bowl are registered once each, and so are its
    followers. *)
Definition RegistryInv (b : Bowl) : Prop :=
  NoDup (onWriteCbs b) /\ NoDup (JsMap.keys (followers b)).

(** What the loop of [upsert] over the followers makes of one follower
    when the highest local index has become [highest]. *)
Definition followerAfterUpsert (follower : Follower) (highest : LocalIndex)
    : Follower :=
  match kind follower with
  | sync => setNextIndex follower (highest + 1)
  | async =>
      if stateIs follower sleeping then setState follower running
      else follower
  end.

(** The bowl that holds the document of A, with a callback registered for
    write events and a synchronous and an asynchronous follower. *)
Definition bowlWithCallback : Bowl := onWrite bowlWithA 3%nat.

(** The bowl an operation on followers leaves behind. *)
Definition bowlAfterAdd (x : Exc (Bowl * list Effect)) : Bowl :=
  match x with
  | Ok (b, _) => b
  | Throw _ => emptyBowl
  end.

Definition syncFollower : Follower := mkFollower 7%nat 0 sync None.
Definition asyncFollower : Follower := mkFollower 8%nat 0 async None.

Definition bowlWithFollowers : Bowl :=
  bowlAfterAdd
    (addFollower (bowlAfterAdd (addFollower bowlWithCallback 1%nat syncFollower))
                 2%nat asyncFollower).

(** The document of A as the bowl has stored it. *)
Definition storedDocOfA : Doc := setLocalIndex docOfA 1.

(** A write of B at the path of A's document. *)
Definition writeOfB : DocToWrite.t := DocToWrite.mk "/p" "@b" "y".

(** The order [getAllDocs] documents: path ascending, then the newer
    document first. *)
Definition pathThenNewest (x y : Doc) : Prop :=
  strLt (path x) (path y) \/
  (path x = path y /\ timestamp y <= timestamp x).

(* ================================================================== *)
(** ** Document objects, and calls that throw *)

(** A document as the caller holds it: its properties, and whether the
    object is frozen.  [upsert] freezes what it stores, so the documents a
    bowl hands out ([getAllDocs], a write event, a follower's callback) are
    frozen objects; a document that [write] prepares or that was parsed
    from a message is not. *)
Record DocObject : Type := mkDocObject {
  fields : Doc;
  frozen : bool
}.

(** How a call of [upsert] ends: it returns a result, or it throws.  In
    both cases there is the bowl the call leaves behind and the callbacks
    that ran; a returning call also leaves its argument object. *)
Inductive Completion : Type :=
| Returns (r : UpsertResult) (doc : DocObject) (b : Bowl) (t : list Effect)
| Throws (msg : string) (b : Bowl) (t : list Effect).

Definition bowlLeft (c : Completion) : Bowl :=
  match c with
  | Returns _ _ b _ => b
  | Throws _ b _ => b
  end.

(** [upsert(doc)] for any document object.  The body of a class is strict
    code: the assignment [doc._localIndex = this.highestLocalIndex] throws
    a [TypeError] when [doc] is frozen.  By then the document has been
    pushed into the array of its path and the array sorted, which is the
    array of the map when the path had one, and [highestLocalIndex] has
    been incremented; the three [set]s have not run.

    The array is sorted together with a mark on the object that was
    pushed, so that [existingDocsSamePath[0] === doc] is the mark of the
    first element.  The callbacks return; the loop over the followers does
    not throw ([updateFollowers_returns]). *)
Definition upsertObject (b : Bowl) (o : DocObject) : Completion :=
  let doc := fields o in
  if negb (docIsValid doc) then Returns Invalid o b []
  else
    let pathAndAuthor := combinePathAndAuthor doc in
    let existingDocSameAuthor :=
      JsMap.get String.eqb pathAndAuthor (docWithPathAndAuthor b) in
    match option_map (docCompareForOverwrite doc) existingDocSameAuthor with
    | Some Lt => Returns Obsolete o b []
    | Some Eq => Returns AlreadyHadIt o b []
    | _ =>
        let arrayOfPath :=
          JsMap.get String.eqb (path doc) (docsByPathNewestFirst b) in
        let existingDocsSamePath :=
          match arrayOfPath with Some docs => docs | None => [] end in
        let sorted :=
          sortBy (fun x y : bool * Doc =>
                    docComparePathThenNewestFirst (snd x) (snd y))
                 (map (pair false) existingDocsSamePath ++ [(true, doc)]) in
        let highest := highestLocalIndex b + 1 in
        if frozen o then
          Throws "TypeError"
            (mkBowl highest
                    (docWithLocalIndex b)
                    (docWithPathAndAuthor b)
                    (match arrayOfPath with
                     | Some _ =>
                         JsMap.set String.eqb (path doc) (map snd sorted)
                                   (docsByPathNewestFirst b)
                     | None => docsByPathNewestFirst b
                     end)
                    (onWriteCbs b)
                    (followers b))
            []
        else
          let doc := setLocalIndex doc highest in
          let existingDocsSamePath :=
            map (fun x : bool * Doc => if fst x then doc else snd x) sorted in
          let isFirst :=
            match sorted with
            | x :: _ => fst x
            | [] => false
            end in
          let upsertResult :=
            if isFirst then AcceptedAndLatest else AcceptedButNotLatest in
          let previousLatestDoc :=
            if isFirst && Nat.ltb 1 (List.length existingDocsSamePath)
            then nth_error existingDocsSamePath 1
            else None in
          let ev :=
            mkWriteEvent doc isFirst existingDocSameAuthor
                         previousLatestDoc in
          let events := map (fun c => EOnWrite c ev) (onWriteCbs b) in
          let stored := fun fs =>
            mkBowl highest
                   (JsMap.set Z.eqb highest doc (docWithLocalIndex b))
                   (JsMap.set String.eqb pathAndAuthor doc
                              (docWithPathAndAuthor b))
                   (JsMap.set String.eqb (path doc) existingDocsSamePath
                              (docsByPathNewestFirst b))
                   (onWriteCbs b)
                   fs in
          match updateFollowers (followers b) doc highest with
          | Ok (fs, delivered) =>
              Returns upsertResult (mkDocObject doc true) (stored fs)
                      (events ++ delivered)
          | Throw msg => Throws msg (stored (followers b)) events
          end
    end.

Section WriteObject.

Variable fakeHash : string -> string.

(** [write(keypair, docToWrite)] with the bowl it leaves behind: the
    document it prepares is a new object, not frozen. *)
Definition writeObject (b : Bowl) (keypair : AuthorKeypair)
    (docToWrite : DocToWrite.t) (now : Timestamp) (uuid : string)
    : Completion :=
  upsertObject b
    (mkDocObject (preparedDoc fakeHash b keypair docToWrite now uuid) false).

End WriteObject.

(** Every bowl a client can bring about, whether its calls return or
    throw: a new bowl; what [upsert] (and so [write]) leaves behind when it
    returns and when it throws; and any change of the callbacks and of the
    followers.  The last covers [onWrite], [addFollower], the thunks,
    the runs of followers, a callback that throws while others have not
    been called yet, and a client that writes to a follower object. *)
Inductive Reached : Bowl -> Prop :=
| Reached_new : Reached emptyBowl
| Reached_upsert b o :
    Reached b -> Reached (bowlLeft (upsertObject b o))
| Reached_subscribers b cbs fs :
    Reached b ->
    Reached (mkBowl (highestLocalIndex b) (docWithLocalIndex b)
                    (docWithPathAndAuthor b) (docsByPathNewestFirst b)
                    cbs fs).

(** [addFollower] with a synchronous follower whose callback throws at its
    call number [k] (from 0) of the catch-up.  The exception leaves the
    loop and the method: the assignment [follower.state = 'sleeping']
    behind the loop does not run, and the follower is in the set already.
    The bowl left, which holds the follower object as it is after the
    call, and the calls made, the throwing one last; [None] where the
    catch-up makes no such call. *)
Definition addFollowerCallbackThrows (b : Bowl) (fid : FollowerId)
    (follower : Follower) (k : nat) : option (Bowl * list Effect) :=
  let follower := setState follower sleeping in
  match kind follower with
  | sync =>
      let follower := setState follower running in
      let docs := getDocsSinceLocalIndex b (nextIndex follower) None in
      if Nat.ltb k (List.length docs)
      then Some (setFollowers b
                   (JsMap.set Nat.eqb fid follower (followers b)),
                 map (EFollowerCb fid) (firstn (S k) docs))
      else None
  | async => None
  end.

(* ================================================================== *)
(** ** What holds of the indexes of every bowl *)

(** The documents of all arrays of the path index. *)
Definition pathDocs (b : Bowl) : list Doc :=
  List.concat (JsMap.values (docsByPathNewestFirst b)).

(** The document [e] is in the array of its path. *)
Definition inPathArray (b : Bowl) (e : Doc) : Prop :=
  exists arr,
    JsMap.get String.eqb (path e) (docsByPathNewestFirst b) = Some arr /\
    In e arr.

(** No array of the path index is empty and each holds documents of the
    path of its key; a document of the index by local index bears its key,
    which is at most [highestLocalIndex], and a document of the index by
    path and author is filed under its key; both are in the array of their
    path. *)
Definition IndexesInv (b : Bowl) : Prop :=
  NoDup (JsMap.keys (docsByPathNewestFirst b)) /\
  Forall (fun kv => snd kv <> [] /\
                    Forall (fun e => path e = fst kv) (snd kv))
         (docsByPathNewestFirst b) /\
  Forall (fun kv => fst kv <= highestLocalIndex b /\
                    _localIndex (snd kv) = Some (fst kv) /\
                    inPathArray b (snd kv))
         (docWithLocalIndex b) /\
  Forall (fun kv => fst kv = combinePathAndAuthor (snd kv) /\
                    inPathArray b (snd kv))
         (docWithPathAndAuthor b).

(** The newer document first. *)
Definition newerOrSame (x y : Doc) : Prop := timestamp y <= timestamp x.

Definition TimeSorted (b : Bowl) : Prop :=
  Forall (fun kv => StronglySorted newerOrSame (snd kv))
         (docsByPathNewestFirst b).

(** The documents of an array that are as new as [d] or newer, and the
    older ones. *)
Definition notOlderThan (d : Doc) (arr : list Doc) : list Doc :=
  List.filter (fun e => Z.leb (timestamp d) (timestamp e)) arr.

Definition olderThan (d : Doc) (arr : list Doc) : list Doc :=
  List.filter (fun e => Z.ltb (timestamp e) (timestamp d)) arr.

(* ================================================================== *)
(** ** More sample data *)

(** The documents of A and of B as another bowl has stored them: frozen,
    with the local index they have there. *)
Definition docOfAElsewhere : DocObject :=
  mkDocObject (setLocalIndex docOfA 7) true.

Definition docOfBElsewhere : DocObject :=
  mkDocObject (setLocalIndex docOfB 1) true.

(** The bowl that holds the document of A, after [upsert] has thrown on
    the frozen document of B. *)
Definition bowlAfterThrow : Bowl :=
  bowlLeft (upsertObject bowlWithA docOfBElsewhere).

(** A newer document of B as another bowl has stored it, and the bowl
    that holds the document of A after [upsert] has thrown on it. *)
Definition newerDocOfBElsewhere : DocObject :=
  mkDocObject (setLocalIndex (sampleDoc "/p" 200 "@b" "sigb") 1) true.

Definition bowlAfterNewerThrow : Bowl :=
  bowlLeft (upsertObject bowlWithA newerDocOfBElsewhere).

(** A document whose timestamp is 2^53, and the bowl that holds it. *)
Definition docAtLimit : Doc := sampleDoc "/p" (2 ^ 53) "@a" "siga".
Definition bowlAtLimit : Bowl := bowlAfter (upsert emptyBowl docAtLimit).

(* ================================================================== *)
(** * Properties *)

(** ** The map operations *)

Module JsMapFacts.
Section Facts.
Context {K V : Type}.
Variable eqb : K -> K -> bool.
Hypothesis eqb_eq : forall x y, eqb x y = true <-> x = y.

Lemma eqb_refl (k : K) : eqb k k = true.
Proof. now apply eqb_eq. Qed.

Lemma eqb_neq (k k' : K) : k <> k' -> eqb k k' = false.
Proof.
  intros Hne. destruct (eqb k k') eqn:E; [|reflexivity].
  apply eqb_eq in E. contradiction.
Qed.

Lemma get_set_same (k : K) (v : V) (m : JsMap.t) :
  JsMap.get eqb k (JsMap.set eqb k v m) = Some v.
Proof.
  induction m as [|[k' v'] m IH]; simpl.
  - now rewrite eqb_refl.
  - destruct (eqb k k') eqn:E; simpl.
    + now rewrite eqb_refl.
    + now rewrite E.
Qed.

Lemma get_set_other (k k' : K) (v : V) (m : JsMap.t) :
  k <> k' ->
  JsMap.get eqb k' (JsMap.set eqb k v m) = JsMap.get eqb k' m.
Proof.
  intros Hne. induction m as [|[k0 v0] m IH]; simpl.
  - rewrite eqb_neq; auto.
  - destruct (eqb k k0) eqn:E; simpl.
    + apply eqb_eq in E. subst k0. rewrite !eqb_neq; auto.
    + now rewrite IH.
Qed.

Lemma get_In (k : K) (v : V) (m : JsMap.t) :
  JsMap.get eqb k m = Some v -> In (k, v) m.
Proof.
  induction m as [|[k' v'] m IH]; simpl; [discriminate|].
  destruct (eqb k k') eqn:E.
  - apply eqb_eq in E. intros [= ->]. subst. now left.
  - intros H. right. auto.
Qed.

Lemma get_None_keys (k : K) (m : JsMap.t (V := V)) :
  JsMap.get eqb k m = None <-> ~ In k (JsMap.keys m).
Proof.
  induction m as [|[k' v'] m IH]; simpl.
  - tauto.
  - destruct (eqb k k') eqn:E.
    + apply eqb_eq in E. subst. split; [discriminate|]. intros H. exfalso. auto.
    + rewrite IH. split.
      * intros H [H1|H1]; [|auto]. subst. rewrite eqb_refl in E. discriminate.
      * tauto.
Qed.

Lemma In_get (k : K) (v : V) (m : JsMap.t) :
  NoDup (JsMap.keys m) -> In (k, v) m -> JsMap.get eqb k m = Some v.
Proof.
  induction m as [|[k' v'] m IH]; simpl; [tauto|].
  intros Hnd [H|H].
  - inversion H; subst. now rewrite eqb_refl.
  - inversion Hnd as [|? ? Hnotin Hnd']; subst.
    destruct (eqb k k') eqn:E.
    + apply eqb_eq in E. subst. exfalso. apply Hnotin.
      change (In (fst (k', v)) (map fst m)). now apply in_map.
    + auto.
Qed.

Lemma keys_set (k : K) (v : V) (m : JsMap.t) :
  JsMap.keys (JsMap.set eqb k v m) =
  match JsMap.get eqb k m with
  | Some _ => JsMap.keys m
  | None => JsMap.keys m ++ [k]
  end.
Proof.
  induction m as [|[k' v'] m IH]; simpl; [reflexivity|].
  destruct (eqb k k') eqn:E; simpl.
  - apply eqb_eq in E. now subst.
  - unfold JsMap.keys in *. simpl. rewrite IH.
    now destruct (JsMap.get eqb k m).
Qed.

Lemma values_set_fresh (k : K) (v : V) (m : JsMap.t) :
  JsMap.get eqb k m = None ->
  JsMap.values (JsMap.set eqb k v m) = JsMap.values m ++ [v].
Proof.
  induction m as [|[k' v'] m IH]; simpl; [reflexivity|].
  destruct (eqb k k') eqn:E; simpl; [discriminate|].
  intros H. unfold JsMap.values in *. simpl. now rewrite IH.
Qed.

Lemma NoDup_keys_set (k : K) (v : V) (m : JsMap.t) :
  NoDup (JsMap.keys m) -> NoDup (JsMap.keys (JsMap.set eqb k v m)).
Proof.
  intros Hnd. rewrite keys_set.
  destruct (JsMap.get eqb k m) eqn:E; [assumption|].
  apply get_None_keys in E.
  apply NoDup_rev in Hnd.
  rewrite <- (rev_involutive (JsMap.keys m ++ [k])).
  apply NoDup_rev. rewrite rev_app_distr. simpl.
  constructor; [|assumption].
  now rewrite <- in_rev.
Qed.

Lemma In_set (k : K) (v : V) (m : JsMap.t) (kv : K * V) :
  In kv (JsMap.set eqb k v m) -> kv = (k, v) \/ In kv m.
Proof.
  induction m as [|[k' v'] m IH]; simpl.
  - intros [H|[]]. now left.
  - destruct (eqb k k') eqn:E; simpl.
    + intros [H|H]; auto.
    + intros [H|H]; auto. destruct (IH H); auto.
Qed.

Lemma Forall_set (P : K * V -> Prop) (k : K) (v : V) (m : JsMap.t) :
  Forall P m -> P (k, v) -> Forall P (JsMap.set eqb k v m).
Proof.
  intros Hm Hkv. apply Forall_forall. intros kv Hin.
  apply In_set in Hin. destruct Hin as [->|Hin]; [assumption|].
  rewrite Forall_forall in Hm. auto.
Qed.

Lemma In_values_set (k : K) (v w : V) (m : JsMap.t) :
  In w (JsMap.values (JsMap.set eqb k v m)) ->
  w = v \/ In w (JsMap.values m).
Proof.
  unfold JsMap.values. intros H. apply in_map_iff in H.
  destruct H as [[k' w'] [Hw Hin]]. simpl in Hw. subst w'.
  apply In_set in Hin. destruct Hin as [Heq|Hin].
  - inversion Heq. now left.
  - right. apply in_map_iff. now exists (k', w).
Qed.

End Facts.
End JsMapFacts.

Lemma Zeqb_eq (x y : Z) : Z.eqb x y = true <-> x = y.
Proof. apply Z.eqb_eq. Qed.

Lemma Seqb_eq (x y : string) : String.eqb x y = true <-> x = y.
Proof. apply String.eqb_eq. Qed.

Lemma Neqb_eq (x y : nat) : Nat.eqb x y = true <-> x = y.
Proof. apply Nat.eqb_eq. Qed.

(** ** What a call of [upsert] does *)

Lemma wakeAsyncFollower_sleeping (fid : FollowerId) (f : Follower) :
  stateIs f sleeping = true ->
  wakeAsyncFollower fid f = Ok (setState f running, [ESetImmediate fid]).
Proof. intros H. unfold wakeAsyncFollower. now rewrite H. Qed.

(** The loop over the followers never throws: it wakes a follower only
    when the follower sleeps. *)
Lemma updateFollowers_returns
    (fs : JsMap.t (K := FollowerId) (V := Follower)) (d : Doc)
    (highest : LocalIndex) :
  exists fs' t, updateFollowers fs d highest = Ok (fs', t).
Proof.
  induction fs as [|[fid f] fs [fs' [t IH]]]; simpl.
  - now eexists _, _.
  - rewrite IH. destruct (kind f); simpl.
    + now eexists _, _.
    + destruct (stateIs f sleeping) eqn:E.
      * rewrite (wakeAsyncFollower_sleeping _ _ E). simpl. now eexists _, _.
      * simpl. now eexists _, _.
Qed.

(** A document below the one filed under its key is obsolete, and one
    equal to it under the overwrite order is a duplicate. *)
Lemma upsert_Obsolete (b : Bowl) (d e : Doc) :
  JsMap.get String.eqb (combinePathAndAuthor d) (docWithPathAndAuthor b)
    = Some e ->
  docCompareForOverwrite d e = Lt ->
  upsert b d = Ok (Obsolete, d, b, []).
Proof. intros H1 H2. unfold upsert. simpl. now rewrite H1; simpl; rewrite H2. Qed.


(** Every call returns, and either leaves everything as it was or stores
    the document under the next local index. *)
Lemma upsert_cases (b : Bowl) (d : Doc) :
  exists r d' b' t,
    upsert b d = Ok (r, d', b', t) /\
    ((accepted r = false /\ d' = d /\ b' = b /\ t = [] /\
      exists e,
        JsMap.get String.eqb (combinePathAndAuthor d) (docWithPathAndAuthor b)
          = Some e /\
        ((docCompareForOverwrite d e = Lt /\ r = Obsolete) \/
         (docCompareForOverwrite d e = Eq /\ r = AlreadyHadIt)))
     \/
     (accepted r = true /\
      d' = setLocalIndex d (highestLocalIndex b + 1) /\
      highestLocalIndex b' = highestLocalIndex b + 1 /\
      docWithLocalIndex b' =
        JsMap.set Z.eqb (highestLocalIndex b + 1) d' (docWithLocalIndex b) /\
      docWithPathAndAuthor b' =
        JsMap.set String.eqb (combinePathAndAuthor d) d'
                  (docWithPathAndAuthor b) /\
      docsByPathNewestFirst b' =
        JsMap.set String.eqb (path d)
          (sortBy docComparePathThenNewestFirst
             (match JsMap.get String.eqb (path d) (docsByPathNewestFirst b)
              with Some docs => docs | None => [] end ++ [d']))
          (docsByPathNewestFirst b) /\
      onWriteCbs b' = onWriteCbs b /\
      match JsMap.get String.eqb (combinePathAndAuthor d)
                      (docWithPathAndAuthor b) with
      | Some e => docCompareForOverwrite d e = Gt
      | None => True
      end /\
      r = if match sortBy docComparePathThenNewestFirst
                    (match JsMap.get String.eqb (path d)
                                     (docsByPathNewestFirst b)
                     with Some docs => docs | None => [] end ++ [d'])
             with
             | d0 :: _ => Doc_eqb d0 d'
             | [] => false
             end
          then AcceptedAndLatest else AcceptedButNotLatest)).
Proof.
  unfold upsert. simpl.
  destruct (JsMap.get String.eqb (combinePathAndAuthor d)
                      (docWithPathAndAuthor b)) as [e|] eqn:Hget; simpl.
  - destruct (docCompareForOverwrite d e) eqn:Hcmp.
    + eexists _, _, _, _. split; [reflexivity|]. left.
      repeat split. exists e. split; [reflexivity|]. now right.
    + eexists _, _, _, _. split; [reflexivity|]. left.
      repeat split. exists e. split; [reflexivity|]. now left.
    + destruct (updateFollowers_returns (followers b)
                  (setLocalIndex d (highestLocalIndex b + 1))
                  (highestLocalIndex b + 1)) as [fs [t Hfs]].
      rewrite Hfs. simpl.
      eexists _, _, _, _. split; [reflexivity|]. right.
      repeat split. now destruct (match sortBy _ _ with [] => _ | _ => _ end).
  - destruct (updateFollowers_returns (followers b)
                (setLocalIndex d (highestLocalIndex b + 1))
                (highestLocalIndex b + 1)) as [fs [t Hfs]].
    rewrite Hfs. simpl.
    eexists _, _, _, _. split; [reflexivity|]. right.
    repeat split. now destruct (match sortBy _ _ with [] => _ | _ => _ end).
Qed.

Lemma upsert_returns (b : Bowl) (d : Doc) :
  exists r d' b' t, upsert b d = Ok (r, d', b', t).
Proof.
  destruct (upsert_cases b d) as (r & d' & b' & t & H & _).
  now exists r, d', b', t.
Qed.

Lemma write_is_upsert (fakeHash : string -> string) (b : Bowl)
    (keypair : AuthorKeypair) (docToWrite : DocToWrite.t)
    (now : Timestamp) (uuid : string) :
  exists d, write fakeHash b keypair docToWrite now uuid = upsert b d.
Proof. unfold write. now eexists. Qed.

(** ** Local indexes *)

Lemma upsert_localIndex (b : Bowl) (d : Doc) :
  exists r d' b' t,
    upsert b d = Ok (r, d', b', t) /\
    (accepted r = true ->
       _localIndex d' = Some (highestLocalIndex b + 1) /\
       highestLocalIndex b' = highestLocalIndex b + 1 /\
       JsMap.get Z.eqb (highestLocalIndex b + 1) (docWithLocalIndex b')
         = Some d') /\
    (accepted r = false -> b' = b /\ d' = d).
Proof.
  destruct (upsert_cases b d) as (r & d' & b' & t & Hu & Hcase).
  exists r, d', b', t. split; [assumption|].
  destruct Hcase as [(Hr & Hd & Hb & _)|(Hr & Hd & Hh & Hm & _)].
  - split; [congruence|]. now intros _.
  - split; [|congruence]. intros _. repeat split.
    + now subst d'.
    + assumption.
    + rewrite Hm. apply JsMapFacts.get_set_same, Zeqb_eq.
Qed.

Lemma nextIndexes_length (h : LocalIndex) (n : nat) :
  List.length (nextIndexes h n) = n.
Proof. revert h. induction n; intros h; simpl; auto. Qed.

Lemma nextIndexes_nth (n : nat) :
  forall (h : LocalIndex) (i : nat) (v : option LocalIndex),
    nth_error (nextIndexes h n) i = Some v ->
    v = Some (h + 1 + Z.of_nat i).
Proof.
  induction n as [|n IH]; intros h i v; simpl.
  - destruct i; discriminate.
  - destruct i as [|i]; simpl.
    + intros [= <-]. f_equal. lia.
    + intros H. apply IH in H. subst v. f_equal. lia.
Qed.

Lemma nextIndexes_from_0 (n : nat) :
  forall k : nat,
    nextIndexes (Z.of_nat k) n =
    map (fun i => Some (Z.of_nat i)) (seq (S k) n).
Proof.
  induction n as [|n IH]; intros k; simpl; [reflexivity|].
  f_equal.
  - f_equal. lia.
  - rewrite <- IH. f_equal. lia.
Qed.

Lemma upserts_indexes (docs : list Doc) :
  forall b : Bowl,
  exists b' log,
    upserts b docs = Ok (b', log) /\
    assignedIndexes log =
      nextIndexes (highestLocalIndex b) (List.length (assignedIndexes log)) /\
    highestLocalIndex b' =
      highestLocalIndex b + Z.of_nat (List.length (assignedIndexes log)).
Proof.
  induction docs as [|d docs IH]; intros b; simpl.
  - exists b, []. simpl. repeat split. lia.
  - destruct (upsert_localIndex b d) as (r & d' & b1 & t & Hu & Hacc & Hrej).
    rewrite Hu. simpl.
    destruct (IH b1) as (b2 & log & Hrun & Hidx & Hh).
    rewrite Hrun. simpl. exists b2, ((r, d') :: log).
    split; [reflexivity|]. simpl.
    destruct (accepted r) eqn:Hr.
    + destruct (Hacc eq_refl) as (Hd' & Hb1 & _). simpl.
      rewrite Hd'. rewrite Hb1 in Hidx, Hh. split.
      * f_equal. exact Hidx.
      * lia.
    + destruct (Hrej eq_refl) as (-> & _). now split.
Qed.

(** The local indexes one bowl assigns while every document it is given
    can be written to: every stored upsert takes [highestLocalIndex + 1];
    a run of upserts on a new bowl assigns 1, 2, 3, ... to the documents
    it stores, in this order; on any bowl the indexes assigned continue
    from the bowl's [highestLocalIndex], and of two accepted upserts the
    later one has the strictly greater index.  A run with a frozen
    document is followed with [upsertObject]. *)
Theorem localIndex_strictly_increasing :
  (forall (b : Bowl) (d : Doc),
     exists r d' b' t,
       upsert b d = Ok (r, d', b', t) /\
       (accepted r = true ->
          _localIndex d' = Some (highestLocalIndex b + 1) /\
          highestLocalIndex b' = highestLocalIndex b + 1 /\
          JsMap.get Z.eqb (highestLocalIndex b + 1) (docWithLocalIndex b')
            = Some d') /\
       (accepted r = false -> highestLocalIndex b' = highestLocalIndex b)) /\
  (forall docs : list Doc,
     exists b' log,
       upserts emptyBowl docs = Ok (b', log) /\
       assignedIndexes log =
         map (fun i => Some (Z.of_nat i))
             (seq 1 (List.length (assignedIndexes log)))) /\
  (forall (b : Bowl) (docs : list Doc),
     exists b' log,
       upserts b docs = Ok (b', log) /\
       assignedIndexes log =
         nextIndexes (highestLocalIndex b)
                     (List.length (assignedIndexes log)) /\
       highestLocalIndex b' =
         highestLocalIndex b + Z.of_nat (List.length (assignedIndexes log)) /\
       forall (i j : nat) (x y : LocalIndex),
         (i < j)%nat ->
         nth_error (assignedIndexes log) i = Some (Some x) ->
         nth_error (assignedIndexes log) j = Some (Some y) ->
         x < y).
Proof.
  split; [|split].
  - intros b d.
    destruct (upsert_localIndex b d) as (r & d' & b' & t & Hu & Hacc & Hrej).
    exists r, d', b', t. split; [assumption|]. split; [assumption|].
    intros Hr. now destruct (Hrej Hr) as [-> _].
  - intros docs.
    destruct (upserts_indexes docs emptyBowl) as (b' & log & Hrun & Hidx & _).
    exists b', log. split; [assumption|].
    rewrite Hidx at 1. apply (nextIndexes_from_0 _ 0%nat).
  - intros b docs.
    destruct (upserts_indexes docs b) as (b' & log & Hrun & Hidx & Hh).
    exists b', log. repeat split; try assumption.
    intros i j x y Hij Hi Hj.
    rewrite Hidx in Hi, Hj.
    apply nextIndexes_nth in Hi, Hj.
    injection Hi as ->. injection Hj as ->. lia.
Qed.

(** ** Validation *)

(** C10.  The validity check accepts every document, and no call of
    [upsert] returns [Invalid]. *)
Theorem upsert_never_Invalid (b : Bowl) (d : Doc) :
  docIsValid d = true /\
  exists r d' b' t, upsert b d = Ok (r, d', b', t) /\ r <> Invalid.
Proof.
  split; [reflexivity|].
  destruct (upsert_cases b d) as (r & d' & b' & t & Hu & Hcase).
  exists r, d', b', t. split; [assumption|].
  destruct Hcase as [(_ & _ & _ & _ & e & _ & [[_ ->]|[_ ->]])|(Hr & _)];
    try discriminate.
  intros ->. discriminate.
Qed.

(** ** Filters *)

(** What the three lines of [docMatchesFilter] test. *)
Lemma docMatchesFilter_pathEndsWith (d : Doc) (v : string) :
  docMatchesFilter d
    (QueryFilter.mk None None (Some v) None None None None None None None)
  = startsWith (path d) v.
Proof. unfold docMatchesFilter. simpl. now rewrite !andb_true_r. Qed.

Lemma docMatchesFilter_timestampLt (d : Doc) (v : Timestamp) :
  docMatchesFilter d
    (QueryFilter.mk None None None None None None (Some v) None None None)
  = Z.gtb (timestamp d) v.
Proof. unfold docMatchesFilter. simpl. now rewrite !andb_true_r. Qed.

Lemma docMatchesFilter_contentLengthLt (d : Doc) (v : Z) :
  docMatchesFilter d
    (QueryFilter.mk None None None None None None None None None (Some v))
  = Z.gtb (contentLength d) v.
Proof. unfold docMatchesFilter. now simpl. Qed.

(** C4.  [docMatchesFilter] is not the conjunction of the named
    relations: at the document with path ["/ab"], timestamp 5 and content
    length 1, the filter [pathEndsWith = "b"] names a suffix of the path,
    [timestampLt = 10] a greater timestamp and [contentLengthLt = 3] a
    greater length, and the code rejects the document under each of them;
    and it accepts the document under [pathEndsWith = "/a"],
    [timestampLt = 2] and [contentLengthLt = 0], which do not hold. *)
Theorem docMatchesFilter_not_named_relations :
  let d := mkDoc "/ab" 5 "@a" "x" (sampleHash "x") 1 "sig1" None in
  let ends v :=
    QueryFilter.mk None None (Some v) None None None None None None None in
  let tsLt v :=
    QueryFilter.mk None None None None None None (Some v) None None None in
  let lenLt v :=
    QueryFilter.mk None None None None None None None None None (Some v) in
  (docMatchesFilter d (ends "b") = false /\
   namedRelationsHold d (ends "b") = true) /\
  (docMatchesFilter d (tsLt 10) = false /\
   namedRelationsHold d (tsLt 10) = true) /\
  (docMatchesFilter d (lenLt 3) = false /\
   namedRelationsHold d (lenLt 3) = true) /\
  (docMatchesFilter d (ends "/a") = true /\
   namedRelationsHold d (ends "/a") = false) /\
  (docMatchesFilter d (tsLt 2) = true /\
   namedRelationsHold d (tsLt 2) = false) /\
  (docMatchesFilter d (lenLt 0) = true /\
   namedRelationsHold d (lenLt 0) = false).
Proof. cbv zeta. repeat split; vm_compute; reflexivity. Qed.

(** ** Writing *)

(** Sums of integers are exact as long as they stay within 2^53. *)
Lemma roundToDouble_exact (n : Z) : Z.abs n <= 2 ^ 53 -> roundToDouble n = n.
Proof.
  intros H. destruct (Z.eq_dec (Z.abs n) (2 ^ 53)) as [E|E].
  - destruct (Z.abs_eq_or_opp n) as [Hn|Hn]; rewrite Hn in E.
    + subst n. now vm_compute.
    + assert (n = - 2 ^ 53) as -> by lia. now vm_compute.
  - unfold roundToDouble. cbv zeta.
    replace (Z.ltb (Z.log2 (Z.abs n)) 53) with true; [reflexivity|].
    symmetry. apply Z.ltb_lt.
    destruct (Z.eq_dec (Z.abs n) 0) as [E0|E0]; [now rewrite E0|].
    apply Z.log2_lt_pow2; lia.
Qed.

Lemma numberPlusOne_exact (x : Z) :
  Z.abs x < 2 ^ 53 -> numberPlusOne x = x + 1.
Proof. intros H. apply roundToDouble_exact. lia. Qed.

(** The timestamp [write] gives the new document: the clock when the path
    is new, and otherwise one more than the timestamp of the path's latest
    document, whatever the clock says. *)
Lemma write_timestamp (fakeHash : string -> string) (b : Bowl)
    (keypair : AuthorKeypair) (docToWrite : DocToWrite.t)
    (now : Timestamp) (uuid : string) :
  exists r d' b' t,
    write fakeHash b keypair docToWrite now uuid = Ok (r, d', b', t) /\
    timestamp d' =
      match getLatestDocAtPath b (DocToWrite.path docToWrite) with
      | None => now
      | Some e => numberPlusOne (timestamp e)
      end.
Proof.
  unfold write.
  match goal with
  | |- context [upsert b ?d] =>
      destruct (upsert_cases b d) as (r & d' & b' & t & Hu & Hcase)
  end.
  exists r, d', b', t. split; [assumption|].
  destruct Hcase as [(_ & -> & _)|(_ & -> & _)]; reflexivity.
Qed.

(** C3.  The clock is ignored when the path has a document: after a
    write at ["/a"] at the time 100, a write at ["/a"] at the time 1000
    gives its document the timestamp 101, which is below the clock and is
    not [max(1000, 100 + 1)]. *)
Theorem write_timestamp_not_max_of_clock :
  exists d1 b1 d2 b2,
    write sampleHash emptyBowl authorA (DocToWrite.mk "/a" "@a" "x") 100 "1"
      = Ok (AcceptedAndLatest, d1, b1, []) /\
    getLatestDocAtPath b1 "/a" = Some d1 /\
    timestamp d1 = 100 /\
    write sampleHash b1 authorB (DocToWrite.mk "/a" "@b" "y") 1000 "2"
      = Ok (AcceptedAndLatest, d2, b2, []) /\
    timestamp d2 = 101 /\
    Z.max 1000 (timestamp d1 + 1) = 1000 /\
    timestamp d2 < 1000.
Proof.
  eexists _, _, _, _.
  split; [vm_compute; reflexivity|].
  split; [vm_compute; reflexivity|].
  split; [reflexivity|].
  split; [vm_compute; reflexivity|].
  split; [reflexivity|].
  split; reflexivity.
Qed.

(** ** Overwriting *)

(** C1.  The document an author overwrites stays in the bowl: after the
    author has written ["/a"] twice, both writes accepted as the latest
    with the local indexes 1 and 2, [getAllDocs()] has two documents, the
    array of the path has both, the index by local index still has the
    first under 1, and only the index by path and author has dropped it. *)
Theorem overwritten_doc_is_retained :
  exists d1 b1 d2 b2,
    write sampleHash emptyBowl authorA (DocToWrite.mk "/a" "@a" "x") 100 "1"
      = Ok (AcceptedAndLatest, d1, b1, []) /\
    write sampleHash b1 authorA (DocToWrite.mk "/a" "@a" "y") 1000 "2"
      = Ok (AcceptedAndLatest, d2, b2, []) /\
    _localIndex d1 = Some 1 /\
    _localIndex d2 = Some 2 /\
    author d1 = author d2 /\
    path d1 = path d2 /\
    option_map content (getLatestDocAtPath b2 "/a") = Some "y" /\
    getAllDocs b2 true = [d2; d1] /\
    List.length (getAllDocs b2 true) = 2%nat /\
    getAllDocsAtPath b2 "/a" = Some [d2; d1] /\
    JsMap.get Z.eqb 1 (docWithLocalIndex b2) = Some d1 /\
    JsMap.values (docWithPathAndAuthor b2) = [d2].
Proof.
  eexists _, _, _, _.
  split; [vm_compute; reflexivity|].
  split; [vm_compute; reflexivity|].
  repeat split; vm_compute; reflexivity.
Qed.

(** ** Followers *)

(** No run of an asynchronous follower moves its [nextIndex]. *)
Lemma continueAsyncFollower_nextIndex (fid : FollowerId) (f f' : Follower)
    (b : Bowl) (t : list Effect) :
  continueAsyncFollower fid f b = Ok (f', t) -> nextIndex f' = nextIndex f.
Proof.
  unfold continueAsyncFollower.
  destruct (stateIs f quitting); [now intros [= <- _]|].
  destruct (stateIs f sleeping); [discriminate|].
  destruct (Z.gtb (nextIndex f) (highestLocalIndex b)); now intros [= <- _].
Qed.

(** A running follower that has documents ahead of it delivers the batch
    at its [nextIndex], schedules its next run, and is as it was. *)
Lemma continueAsyncFollower_running (fid : FollowerId) (f : Follower)
    (b : Bowl) :
  state f = Some running ->
  nextIndex f <= highestLocalIndex b ->
  continueAsyncFollower fid f b =
    Ok (f, map (EFollowerCb fid)
               (getDocsSinceLocalIndex b (nextIndex f) (Some 40))
           ++ [ESetImmediate fid]).
Proof.
  intros Hs Hn. unfold continueAsyncFollower, stateIs. rewrite Hs. simpl.
  destruct (Z.gtb (nextIndex f) (highestLocalIndex b)) eqn:E; [|reflexivity].
  apply Z.gtb_lt in E. lia.
Qed.

(** So its runs repeat the same batch for ever, and it never sleeps. *)
Lemma continueTimes_running (n : nat) (fid : FollowerId) (f : Follower)
    (b : Bowl) :
  state f = Some running ->
  nextIndex f <= highestLocalIndex b ->
  continueTimes n fid f b =
    Ok (f, List.concat (repeat
                     (map (EFollowerCb fid)
                          (getDocsSinceLocalIndex b (nextIndex f) (Some 40))
                      ++ [ESetImmediate fid]) n)).
Proof.
  intros Hs Hn. induction n as [|n IH]; simpl; [reflexivity|].
  rewrite (continueAsyncFollower_running _ _ _ Hs Hn). simpl.
  rewrite IH. reflexivity.
Qed.

(** C5.  An asynchronous follower does not move along the local indexes:
    registered with [nextIndex = 1] on a bowl that holds one document, it
    is woken and then, run after run, is called with the document of local
    index 1 again; after [n] runs it has been called [n] times with that
    index, its [nextIndex] is 1 and its state is [running], never
    [sleeping]. *)
Theorem async_follower_repeats_its_batch :
  exists d1 b1 b2 f,
    write sampleHash emptyBowl authorA (DocToWrite.mk "/a" "@a" "x") 100 "1"
      = Ok (AcceptedAndLatest, d1, b1, []) /\
    addFollower b1 0%nat (mkFollower 7%nat 1 async None)
      = Ok (b2, [ESetImmediate 0%nat]) /\
    highestLocalIndex b2 = 1 /\
    JsMap.get Nat.eqb 0%nat (followers b2) = Some f /\
    forall n : nat,
    exists t,
      continueTimes n 0%nat f b2 = Ok (f, t) /\
      deliveredIndexes 0%nat t = repeat (Some 1) n /\
      nextIndex f = 1 /\
      state f = Some running.
Proof.
  eexists _, _, _, _.
  split; [vm_compute; reflexivity|].
  split; [vm_compute; reflexivity|].
  split; [reflexivity|].
  split; [vm_compute; reflexivity|].
  intros n. eexists. split; [|split; [|split; reflexivity]].
  - apply continueTimes_running; [reflexivity|vm_compute; discriminate].
  - induction n as [|n IH]; [reflexivity|].
    simpl repeat. rewrite List.concat_cons.
    change (Some 1 :: repeat (Some 1) n) with ([Some 1] ++ repeat (Some 1) n).
    rewrite <- IH. reflexivity.
Qed.

(** Registering a synchronous follower calls it with the documents from
    its [nextIndex] on and leaves the [nextIndex] where it was. *)
Lemma addFollower_sync (b : Bowl) (fid : FollowerId) (f : Follower) :
  kind f = sync ->
  addFollower b fid f =
    Ok (setFollowers b
          (JsMap.set Nat.eqb fid
             (mkFollower (cb f) (nextIndex f) sync (Some sleeping))
             (followers b)),
        map (EFollowerCb fid)
            (getDocsSinceLocalIndex b (nextIndex f) None)).
Proof.
  intros Hk. unfold addFollower, setState. simpl. rewrite Hk. reflexivity.
Qed.

(** C6.  Registering a synchronous follower with [nextIndex = 1] on a
    bowl that holds five documents calls the callback five times, with the
    local indexes 1 to 5 in this order, and the follower's [nextIndex] is
    still 1 when [addFollower] returns: the catch-up does not advance
    it. *)
Theorem sync_catch_up_leaves_nextIndex :
  exists b b' t f,
    fiveWrites = Ok b /\
    highestLocalIndex b = 5 /\
    addFollower b 0%nat (mkFollower 7%nat 1 sync None) = Ok (b', t) /\
    List.length t = 5%nat /\
    deliveredIndexes 0%nat t = [Some 1; Some 2; Some 3; Some 4; Some 5] /\
    JsMap.get Nat.eqb 0%nat (followers b') = Some f /\
    state f = Some sleeping /\
    nextIndex f = 1.
Proof.
  eexists _, _, _, _.
  split; [vm_compute; reflexivity|].
  split; [reflexivity|].
  split; [vm_compute; reflexivity|].
  repeat split; vm_compute; reflexivity.
Qed.

(** ** Sorting *)

Section SortFacts.
Context {A : Type}.
Variable cmp : A -> A -> Cmp.

Lemma insertBy_perm (x : A) (l : list A) :
  Permutation (x :: l) (insertBy cmp x l).
Proof.
  induction l as [|y l IH]; simpl; [reflexivity|].
  destruct (cmp x y); try reflexivity.
  rewrite perm_swap. now constructor.
Qed.

Lemma sortBy_perm (l : list A) : Permutation l (sortBy cmp l).
Proof.
  induction l as [|x l IH]; simpl; [reflexivity|].
  rewrite <- insertBy_perm. now constructor.
Qed.

Lemma sortBy_In (l : list A) (x : A) : In x (sortBy cmp l) <-> In x l.
Proof.
  split; apply Permutation_in; [symmetry|]; apply sortBy_perm.
Qed.

Lemma sortBy_app_last (l : list A) (x : A) :
  sortBy cmp (l ++ [x]) = fold_right (insertBy cmp) [x] l.
Proof. unfold sortBy. now rewrite fold_right_app. Qed.

(** An element that is not greater than the head goes to the front. *)
Lemma insertBy_front (x : A) (l : list A) :
  match l with
  | [] => True
  | y :: _ => cmp x y <> Gt
  end ->
  insertBy cmp x l = x :: l.
Proof.
  destruct l as [|y l]; simpl; [reflexivity|].
  destruct (cmp x y); congruence.
Qed.

Lemma sortBy_nonempty (l : list A) : l <> [] -> sortBy cmp l <> [].
Proof.
  intros Hl Hs. apply Hl.
  apply Permutation_nil. rewrite <- Hs. symmetry. apply sortBy_perm.
Qed.

End SortFacts.

(** ** The two orders on documents *)

Lemma String_compare_refl (s : string) : String.compare s s = Eq.
Proof. now apply String_as_OT.cmp_eq. Qed.

Lemma String_compare_Gt_Lt (s1 s2 : string) :
  String.compare s1 s2 = Gt <-> String.compare s2 s1 = Lt.
Proof.
  rewrite (String.compare_antisym s1 s2).
  destruct (String.compare s2 s1); simpl; split; congruence.
Qed.

Lemma String_compare_Lt_trans (s1 s2 s3 : string) :
  String.compare s1 s2 = Lt -> String.compare s2 s3 = Lt ->
  String.compare s1 s3 = Lt.
Proof.
  intros H1 H2.
  apply String_as_OT.cmp_lt in H1. apply String_as_OT.cmp_lt in H2.
  apply String_as_OT.cmp_lt. eapply String_as_OT.lt_trans; eassumption.
Qed.

Lemma docCompareForOverwrite_Lt (x y : Doc) :
  docCompareForOverwrite x y = Lt <->
  timestamp x < timestamp y \/
  (timestamp x = timestamp y /\
   String.compare (signature x) (signature y) = Lt).
Proof.
  unfold docCompareForOverwrite, arrayCompare. simpl.
  destruct (Z.compare_spec (timestamp x) (timestamp y)) as [H|H|H].
  - split; [now right|]. intros [H1|[_ H1]]; [lia|assumption].
  - split; [now left|reflexivity].
  - split; [discriminate|]. intros [H1|[H1 _]]; lia.
Qed.

Lemma docCompareForOverwrite_Gt (x y : Doc) :
  docCompareForOverwrite x y = Gt <-> docCompareForOverwrite y x = Lt.
Proof.
  rewrite docCompareForOverwrite_Lt.
  unfold docCompareForOverwrite, arrayCompare. simpl.
  destruct (Z.compare_spec (timestamp x) (timestamp y)) as [H|H|H].
  - rewrite String_compare_Gt_Lt.
    split; [intros H1; right; split; [lia|assumption]|].
    intros [H1|[_ H1]]; [lia|assumption].
  - split; [discriminate|]. intros [H1|[H1 _]]; lia.
  - split; [now left|reflexivity].
Qed.

Lemma docCompareForOverwrite_Lt_trans (x y z : Doc) :
  docCompareForOverwrite x y = Lt -> docCompareForOverwrite y z = Lt ->
  docCompareForOverwrite x z = Lt.
Proof.
  rewrite !docCompareForOverwrite_Lt.
  intros [H1|[H1 S1]] [H2|[H2 S2]]; try (left; lia).
  right. split; [lia|]. eapply String_compare_Lt_trans; eassumption.
Qed.

Lemma docCompareForOverwrite_setLocalIndex_r (x y : Doc) (i : LocalIndex) :
  docCompareForOverwrite x (setLocalIndex y i) = docCompareForOverwrite x y.
Proof. reflexivity. Qed.

(** Within one path, an older document is never sorted before a newer
    one... *)
Lemma docCompare_not_Gt (x y : Doc) :
  path x = path y -> timestamp y <= timestamp x ->
  docComparePathThenNewestFirst x y <> Gt.
Proof.
  intros Hp Ht. unfold docComparePathThenNewestFirst, arrayCompare. simpl.
  destruct (String.eqb (signature x) (signature y)); [discriminate|].
  rewrite Hp, String_compare_refl.
  rewrite Z.compare_gt_iff. lia.
Qed.

(** ... and an older document goes behind a newer one with another
    signature. *)
Lemma docCompare_Gt (x y : Doc) :
  path x = path y -> timestamp x < timestamp y ->
  signature x <> signature y ->
  docComparePathThenNewestFirst x y = Gt.
Proof.
  intros Hp Ht Hs. unfold docComparePathThenNewestFirst, arrayCompare. simpl.
  apply String.eqb_neq in Hs. rewrite Hs.
  rewrite Hp, String_compare_refl.
  rewrite Z.compare_gt_iff. lia.
Qed.

(** ** The invariants hold in every reachable bowl *)

Lemma upsert_inv (b : Bowl) (d : Doc) (r : UpsertResult) (d' : Doc)
    (b' : Bowl) (t : list Effect) :
  upsert b d = Ok (r, d', b', t) ->
  (accepted r = false /\ d' = d /\ b' = b /\ t = [])
  \/
  (accepted r = true /\
   d' = setLocalIndex d (highestLocalIndex b + 1) /\
   highestLocalIndex b' = highestLocalIndex b + 1 /\
   docWithLocalIndex b' =
     JsMap.set Z.eqb (highestLocalIndex b + 1) d' (docWithLocalIndex b) /\
   docWithPathAndAuthor b' =
     JsMap.set String.eqb (combinePathAndAuthor d) d'
               (docWithPathAndAuthor b) /\
   docsByPathNewestFirst b' =
     JsMap.set String.eqb (path d)
       (sortBy docComparePathThenNewestFirst
          (match JsMap.get String.eqb (path d) (docsByPathNewestFirst b)
           with Some docs => docs | None => [] end ++ [d']))
       (docsByPathNewestFirst b) /\
   match JsMap.get String.eqb (combinePathAndAuthor d)
                   (docWithPathAndAuthor b) with
   | Some e => docCompareForOverwrite d e = Gt
   | None => True
   end /\
   r = if match sortBy docComparePathThenNewestFirst
                 (match JsMap.get String.eqb (path d)
                                  (docsByPathNewestFirst b)
                  with Some docs => docs | None => [] end ++ [d'])
          with
          | d0 :: _ => Doc_eqb d0 d'
          | [] => false
          end
       then AcceptedAndLatest else AcceptedButNotLatest).
Proof.
  intros H.
  destruct (upsert_cases b d) as (r0 & d0 & b0 & t0 & Hu & Hcase).
  rewrite H in Hu. injection Hu as <- <- <- <-.
  destruct Hcase
    as [(H1 & H2 & H3 & H4 & _)
       |(H1 & H2 & H3 & H4 & H5 & H6 & _ & H8 & H9)].
  - now left.
  - right. repeat split; assumption.
Qed.

Lemma LocalIndexInv_fresh (b : Bowl) :
  LocalIndexInv b ->
  JsMap.get Z.eqb (highestLocalIndex b + 1) (docWithLocalIndex b) = None.
Proof.
  intros (Hh & Hk & _).
  apply (JsMapFacts.get_None_keys Z.eqb Zeqb_eq).
  unfold LocalIndex in *. rewrite Hk. intros Hin. apply in_map_iff in Hin.
  destruct Hin as (i & Hi & Hin). apply in_seq in Hin. lia.
Qed.

Lemma LocalIndexInv_bound (b : Bowl) (e : Doc) :
  LocalIndexInv b -> In e (storedDocs b) ->
  exists k, _localIndex e = Some k /\ 1 <= k <= highestLocalIndex b.
Proof.
  intros (Hh & Hk & Hv) Hin.
  unfold storedDocs, JsMap.values in Hin. apply in_map_iff in Hin.
  destruct Hin as ([k e'] & He & Hin). simpl in He. subst e'.
  exists k. split.
  - rewrite Forall_forall in Hv. apply (Hv _ Hin).
  - assert (Hkin : In k (JsMap.keys (docWithLocalIndex b))).
    { unfold JsMap.keys. apply in_map_iff. now exists (k, e). }
    rewrite Hk in Hkin. apply in_map_iff in Hkin.
    destruct Hkin as (i & Hi & Hin'). apply in_seq in Hin'. lia.
Qed.

(** An accepted document is added at the end of the bowl's documents, and
    none is taken away. *)
Lemma upsert_storedDocs (b : Bowl) (d : Doc) (r : UpsertResult) (d' : Doc)
    (b' : Bowl) (t : list Effect) :
  LocalIndexInv b ->
  upsert b d = Ok (r, d', b', t) ->
  storedDocs b' = if accepted r then storedDocs b ++ [d'] else storedDocs b.
Proof.
  intros Hinv Hu. apply upsert_inv in Hu.
  destruct Hu as [(-> & _ & -> & _)|(-> & _ & _ & Hm & _)]; [reflexivity|].
  unfold storedDocs. rewrite Hm.
  apply (JsMapFacts.values_set_fresh Z.eqb).
  now apply LocalIndexInv_fresh.
Qed.

Lemma LocalIndexInv_upsert (b : Bowl) (d : Doc) (r : UpsertResult)
    (d' : Doc) (b' : Bowl) (t : list Effect) :
  LocalIndexInv b -> upsert b d = Ok (r, d', b', t) -> LocalIndexInv b'.
Proof.
  intros Hinv Hu. pose proof (LocalIndexInv_fresh b Hinv) as Hfresh.
  apply upsert_inv in Hu.
  destruct Hu as [(_ & _ & -> & _)|(_ & Hd & Hh & Hm & _)]; [assumption|].
  destruct Hinv as (H0 & Hk & Hv).
  split; [lia|]. split.
  - unfold LocalIndex in *. rewrite Hm, (JsMapFacts.keys_set Z.eqb Zeqb_eq), Hfresh, Hk, Hh.
    replace (Z.to_nat (highestLocalIndex b + 1))
      with (S (Z.to_nat (highestLocalIndex b))) by lia.
    rewrite seq_S, map_app. simpl. do 2 f_equal. lia.
  - rewrite Hm. apply JsMapFacts.Forall_set; [assumption|].
    simpl. now rewrite Hd.
Qed.

Lemma PathAndAuthorInv_upsert (b : Bowl) (d : Doc) (r : UpsertResult)
    (d' : Doc) (b' : Bowl) (t : list Effect) :
  LocalIndexInv b -> PathAndAuthorInv b ->
  upsert b d = Ok (r, d', b', t) -> PathAndAuthorInv b'.
Proof.
  intros Hidx (Hnd & Hent & Hmax) Hu.
  pose proof (upsert_storedDocs _ _ _ _ _ _ Hidx Hu) as Hdocs.
  apply upsert_inv in Hu.
  destruct Hu as [(_ & _ & -> & _)|(Hr & Hd & _ & _ & Hpa & _ & Hgt & _)].
  { repeat split; assumption. }
  rewrite Hr in Hdocs.
  assert (Hkey : combinePathAndAuthor d' = combinePathAndAuthor d)
    by now rewrite Hd.
  split; [|split].
  - rewrite Hpa. now apply (JsMapFacts.NoDup_keys_set String.eqb Seqb_eq).
  - rewrite Hpa, Hdocs. apply JsMapFacts.Forall_set.
    + eapply Forall_impl; [|exact Hent].
      intros kv (H1 & H2). split; [assumption|].
      apply in_or_app. now left.
    + simpl. split; [now rewrite Hkey|].
      apply in_or_app. right. now left.
  - rewrite Hdocs. apply Forall_app. split.
    + eapply Forall_impl; [|exact Hmax].
      intros e (e2 & Hget & Hle). rewrite Hpa.
      destruct (string_dec (combinePathAndAuthor d) (combinePathAndAuthor e))
        as [Heq|Hne].
      * exists d'. rewrite Heq.
        rewrite (JsMapFacts.get_set_same String.eqb Seqb_eq).
        split; [reflexivity|]. right.
        rewrite <- Heq in Hget. rewrite Hget in Hgt.
        apply docCompareForOverwrite_Gt in Hgt.
        rewrite Hd, docCompareForOverwrite_setLocalIndex_r.
        destruct Hle as [->|Hlt]; [assumption|].
        eapply docCompareForOverwrite_Lt_trans; eassumption.
      * exists e2.
        rewrite (JsMapFacts.get_set_other String.eqb Seqb_eq) by assumption.
        now split.
    + constructor; [|constructor].
      exists d'. rewrite Hpa, Hkey.
      rewrite (JsMapFacts.get_set_same String.eqb Seqb_eq).
      split; [reflexivity|now left].
Qed.

Lemma PathInv_upsert (b : Bowl) (d : Doc) (r : UpsertResult)
    (d' : Doc) (b' : Bowl) (t : list Effect) :
  LocalIndexInv b -> PathInv b ->
  upsert b d = Ok (r, d', b', t) -> PathInv b'.
Proof.
  intros Hidx (Hnd & Hent) Hu.
  pose proof (upsert_storedDocs _ _ _ _ _ _ Hidx Hu) as Hdocs.
  apply upsert_inv in Hu.
  destruct Hu as [(_ & _ & -> & _)|(Hr & Hd & _ & _ & _ & Hp & _)].
  { split; assumption. }
  rewrite Hr in Hdocs.
  split.
  - rewrite Hp. now apply (JsMapFacts.NoDup_keys_set String.eqb Seqb_eq).
  - rewrite Hp, Hdocs. apply JsMapFacts.Forall_set.
    + eapply Forall_impl; [|exact Hent].
      intros kv (H1 & H2). split; [assumption|].
      eapply Forall_impl; [|exact H2].
      intros e (H3 & H4). split; [assumption|].
      apply in_or_app. now left.
    + simpl. split.
      * apply sortBy_nonempty. now destruct (JsMap.get _ _ _) as [[|]|].
      * apply Forall_forall. intros e He.
        apply sortBy_In in He. apply in_app_or in He.
        destruct He as [He|[<-|[]]].
        -- destruct (JsMap.get String.eqb (path d) (docsByPathNewestFirst b))
             as [docs|] eqn:Hget; [|destruct He].
           apply (JsMapFacts.get_In String.eqb Seqb_eq) in Hget.
           rewrite Forall_forall in Hent.
           destruct (Hent _ Hget) as (_ & Hall). simpl in Hall.
           rewrite Forall_forall in Hall. destruct (Hall _ He) as (H1 & H2).
           split; [assumption|]. apply in_or_app. now left.
        -- split; [now rewrite Hd|]. apply in_or_app. right. now left.
Qed.

Lemma StoreInv_upsert (b : Bowl) (d : Doc) (r : UpsertResult)
    (d' : Doc) (b' : Bowl) (t : list Effect) :
  StoreInv b -> upsert b d = Ok (r, d', b', t) -> StoreInv b'.
Proof.
  intros (H1 & H2 & H3) Hu. split; [|split].
  - eapply LocalIndexInv_upsert; eassumption.
  - eapply PathAndAuthorInv_upsert; eassumption.
  - eapply PathInv_upsert; eassumption.
Qed.

(** The invariants speak of the three indexes and the highest local index
    only. *)
Lemma StoreInv_same_store (b b' : Bowl) :
  highestLocalIndex b' = highestLocalIndex b ->
  docWithLocalIndex b' = docWithLocalIndex b ->
  docWithPathAndAuthor b' = docWithPathAndAuthor b ->
  docsByPathNewestFirst b' = docsByPathNewestFirst b ->
  StoreInv b -> StoreInv b'.
Proof.
  unfold StoreInv, LocalIndexInv, PathAndAuthorInv, PathInv, storedDocs.
  intros -> -> -> ->. tauto.
Qed.

Lemma addFollower_store (b : Bowl) (fid : FollowerId) (f : Follower)
    (b' : Bowl) (t : list Effect) :
  addFollower b fid f = Ok (b', t) ->
  exists fs, b' = setFollowers b fs.
Proof.
  unfold addFollower. destruct (kind (setState f sleeping)).
  - intros [= <- _]. now eexists.
  - destruct (wakeAsyncFollower fid (setState f sleeping)) as [[f' e]|];
      simpl; [|discriminate].
    intros [= <- _]. now eexists.
Qed.

Lemma StoreInv_reachable (b : Bowl) : Reachable b -> StoreInv b.
Proof.
  induction 1 as [ | b c _ IH | b c _ IH | b fid f b' t _ IH Hadd
                 | b fid _ IH | b fid f f' t _ IH _ _
                 | b d r d' b' t _ IH Hu
                 | fakeHash b kp dw now uuid r d' b' t _ IH Hw ].
  - repeat split; simpl; try constructor. lia.
  - revert IH. now apply StoreInv_same_store.
  - revert IH. now apply StoreInv_same_store.
  - apply addFollower_store in Hadd. destruct Hadd as [fs ->].
    revert IH. now apply StoreInv_same_store.
  - revert IH. now apply StoreInv_same_store.
  - revert IH. now apply StoreInv_same_store.
  - eapply StoreInv_upsert; eassumption.
  - unfold write in Hw. eapply StoreInv_upsert; eassumption.
Qed.

(** ** Rejected documents *)

Lemma append_separator_inj (p1 : string) :
  forall (p2 a1 a2 : string),
    separatorFree p1 = true -> separatorFree p2 = true ->
    (p1 ++ String "|" a1 = p2 ++ String "|" a2)%string ->
    p1 = p2 /\ a1 = a2.
Proof.
  induction p1 as [|c1 p1 IH]; intros [|c2 p2] a1 a2 H1 H2 Heq;
    simpl in *.
  - injection Heq as ->. now split.
  - injection Heq as <- _. simpl in H2. discriminate.
  - injection Heq as -> _. simpl in H1. discriminate.
  - injection Heq as -> Heq.
    apply andb_true_iff in H1, H2.
    assert (H : p1 = p2 /\ a1 = a2) by (apply IH; tauto).
    destruct H as [-> ->]. now split.
Qed.

(** Without the separator in the paths, the key tells path and author. *)
Lemma combinePathAndAuthor_inj (x y : Doc) :
  separatorFree (path x) = true -> separatorFree (path y) = true ->
  combinePathAndAuthor x = combinePathAndAuthor y ->
  path x = path y /\ author x = author y.
Proof. intros Hx Hy. now apply append_separator_inj. Qed.

Lemma overwriteKeyLt_iff (x y : Doc) :
  overwriteKeyLt x y <-> docCompareForOverwrite x y = Lt.
Proof. symmetry. apply docCompareForOverwrite_Lt. Qed.

(** In a reachable bowl, a document above [d] that is filed under the key
    of [d] is a stored document with that key; and where a stored document
    with the key of [d] is above [d], so is the one filed under the key. *)
Lemma higher_key_filed_is_stored (b : Bowl) (d : Doc) :
  StoreInv b ->
  (exists e,
     JsMap.get String.eqb (combinePathAndAuthor d) (docWithPathAndAuthor b)
       = Some e /\
     docCompareForOverwrite d e = Lt) ->
  exists e,
    In e (storedDocs b) /\
    combinePathAndAuthor e = combinePathAndAuthor d /\
    overwriteKeyLt d e.
Proof.
  intros (_ & (_ & Hent & _) & _) (e & Hget & Hlt).
  apply (JsMapFacts.get_In String.eqb Seqb_eq) in Hget.
  rewrite Forall_forall in Hent. destruct (Hent _ Hget) as (Hk & Hin).
  simpl in Hk, Hin. exists e. split; [assumption|]. split; [auto|].
  now apply overwriteKeyLt_iff.
Qed.

Lemma higher_key_stored_is_filed (b : Bowl) (d e : Doc) :
  StoreInv b ->
  In e (storedDocs b) ->
  combinePathAndAuthor e = combinePathAndAuthor d ->
  overwriteKeyLt d e ->
  exists e2,
    JsMap.get String.eqb (combinePathAndAuthor d) (docWithPathAndAuthor b)
      = Some e2 /\
    docCompareForOverwrite d e2 = Lt.
Proof.
  intros (_ & (_ & _ & Hmax) & _) Hin Hk Hlt.
  rewrite Forall_forall in Hmax.
  destruct (Hmax _ Hin) as (e2 & Hget & Hle).
  exists e2. rewrite <- Hk. split; [assumption|].
  apply overwriteKeyLt_iff in Hlt.
  destruct Hle as [->|Hle]; [assumption|].
  eapply docCompareForOverwrite_Lt_trans; eassumption.
Qed.

(** A call of [upsert] that returns [Obsolete], [AlreadyHadIt] or
    [Invalid] leaves the bowl (indexes, highest local index, callbacks
    and followers) and the document as they were and calls no callback.
    [Obsolete] is returned exactly when the index by
    path and author holds, under the key [path|author] of the document, a
    document with a strictly higher overwrite key; in a reachable bowl
    whose paths, like the document's, are free of the separator ['|'],
    this is exactly when a stored document with the same path and the same
    author has a strictly higher overwrite key. *)
Theorem rejected_upsert_changes_nothing (b : Bowl) (d : Doc) :
  exists r d' b' t,
    upsert b d = Ok (r, d', b', t) /\
    (r = Obsolete \/ r = AlreadyHadIt \/ r = Invalid ->
       b' = b /\ d' = d /\ t = []) /\
    (r = Obsolete <->
       exists e,
         JsMap.get String.eqb (combinePathAndAuthor d)
                   (docWithPathAndAuthor b) = Some e /\
         overwriteKeyLt d e) /\
    (Reachable b ->
     separatorFree (path d) = true ->
     Forall (fun e => separatorFree (path e) = true) (storedDocs b) ->
     (r = Obsolete <->
        exists e,
          In e (storedDocs b) /\
          path e = path d /\ author e = author d /\
          overwriteKeyLt d e)).
Proof.
  destruct (upsert_cases b d) as (r & d' & b' & t & Hu & Hcase).
  exists r, d', b', t. split; [assumption|].
  assert (Hobs : r = Obsolete <->
            exists e,
              JsMap.get String.eqb (combinePathAndAuthor d)
                        (docWithPathAndAuthor b) = Some e /\
              docCompareForOverwrite d e = Lt).
  { split.
    - intros ->.
      destruct Hcase as [(_ & _ & _ & _ & e & Hget & [[Hlt _]|[_ [=]]])
                        |([=] & _)].
      now exists e.
    - intros (e & Hget & Hlt).
      rewrite (upsert_Obsolete _ _ _ Hget Hlt) in Hu. now injection Hu. }
  split; [|split].
  - intros Hr.
    destruct Hcase as [(_ & -> & -> & -> & _)|(Hacc & _)]; [now repeat split|].
    destruct Hr as [->|[->| ->]]; discriminate.
  - rewrite Hobs. split; intros (e & Hget & Hlt); exists e;
      (split; [assumption|]); now apply overwriteKeyLt_iff.
  - intros Hreach Hd Hsep. apply StoreInv_reachable in Hreach.
    rewrite Hobs. split.
    + intros H. apply (higher_key_filed_is_stored _ _ Hreach) in H.
      destruct H as (e & Hin & Hk & Hlt).
      rewrite Forall_forall in Hsep.
      destruct (combinePathAndAuthor_inj e d (Hsep _ Hin) Hd Hk) as [Hp Ha].
      now exists e.
    + intros (e & Hin & Hp & Ha & Hlt).
      apply (higher_key_stored_is_filed _ _ e Hreach Hin); [|assumption].
      unfold combinePathAndAuthor. now rewrite Hp, Ha.
Qed.

(** C8.  [Obsolete] is returned for a document although the bowl has no
    document of its path and author: the lookup is by the string
    [path|author], and the separator may occur in a path.  After the
    document with path ["a|b"] and author ["c"] is stored, the document
    with path ["a"] and author ["b|c"] is [Obsolete]; the bowl is left
    as it was. *)
Lemma obsolete_without_same_path_and_author :
  exists d1 b1,
    upsert emptyBowl (sampleDoc "a|b" 5 "c" "s1")
      = Ok (AcceptedAndLatest, d1, b1, []) /\
    upsert b1 (sampleDoc "a" 1 "b|c" "s0")
      = Ok (Obsolete, sampleDoc "a" 1 "b|c" "s0", b1, []) /\
    ~ (exists e,
         In e (storedDocs b1) /\
         path e = "a" /\ author e = "b|c" /\
         overwriteKeyLt (sampleDoc "a" 1 "b|c" "s0") e).
Proof.
  eexists _, _.
  split; [vm_compute; reflexivity|].
  split; [vm_compute; reflexivity|].
  intros (e & [<-|[]] & Hp & _). discriminate.
Qed.

(** ** The order of the arrays of the path index *)

Section SortedFacts.
Context {A : Type}.

Lemma StronglySorted_impl (R R' : A -> A -> Prop) (l : list A) :
  (forall x y, R x y -> R' x y) ->
  StronglySorted R l -> StronglySorted R' l.
Proof.
  intros Himp. induction 1 as [|x l Hl IH Hx]; constructor; [assumption|].
  eapply Forall_impl; [|exact Hx]. intros y. apply Himp.
Qed.

Lemma StronglySorted_filter (R : A -> A -> Prop) (f : A -> bool)
    (l : list A) :
  StronglySorted R l -> StronglySorted R (List.filter f l).
Proof.
  induction 1 as [|x l Hl IH Hx]; simpl; [constructor|].
  destruct (f x); [|assumption].
  constructor; [assumption|].
  apply Forall_forall. intros y Hy. apply filter_In in Hy.
  rewrite Forall_forall in Hx. now apply Hx.
Qed.

Lemma StronglySorted_middle (R : A -> A -> Prop) (l1 l2 : list A) (x : A) :
  StronglySorted R l1 -> StronglySorted R l2 ->
  Forall (fun a => R a x) l1 -> Forall (R x) l2 ->
  (forall a c, In a l1 -> In c l2 -> R a c) ->
  StronglySorted R (l1 ++ x :: l2).
Proof.
  intros H1 H2 Hl Hr Hlr.
  induction H1 as [|a l1 Hs IH Ha]; simpl.
  - now constructor.
  - constructor.
    + apply IH.
      * now inversion Hl.
      * intros a' c Ha' Hc. apply Hlr; [now right|assumption].
    + apply Forall_app. split; [assumption|].
      constructor; [now inversion Hl|].
      apply Forall_forall. intros c Hc. apply Hlr; [now left|assumption].
Qed.

Lemma filter_all (f : A -> bool) (l : list A) :
  Forall (fun x => f x = true) l -> List.filter f l = l.
Proof.
  induction 1 as [|x l Hx _ IH]; simpl; [reflexivity|].
  now rewrite Hx, IH.
Qed.

Lemma filter_none (f : A -> bool) (l : list A) :
  Forall (fun x => f x = false) l -> List.filter f l = [].
Proof.
  induction 1 as [|x l Hx _ IH]; simpl; [reflexivity|].
  now rewrite Hx, IH.
Qed.

End SortedFacts.

(** Where the sort puts a pushed document: behind the documents that are
    as new or newer, before the older ones.  The array is sorted already,
    its documents have the path of the new one, and a document with the
    signature of the new one has its timestamp. *)
Lemma sortBy_push (arr : list Doc) (d : Doc) :
  StronglySorted (fun x y => timestamp y <= timestamp x) arr ->
  Forall (fun e => path e = path d) arr ->
  (forall e, In e arr -> signature e = signature d ->
             timestamp e = timestamp d) ->
  sortBy docComparePathThenNewestFirst (arr ++ [d]) =
    List.filter (fun e => Z.leb (timestamp d) (timestamp e)) arr
    ++ d :: List.filter (fun e => Z.ltb (timestamp e) (timestamp d)) arr.
Proof.
  intros Hs Hp Hsig.
  induction Hs as [|a arr Hs IH Ha]; [reflexivity|].
  inversion Hp as [|? ? Hpa Hparr]; subst.
  assert (IH' := IH Hparr (fun e He => Hsig e (or_intror He))).
  clear IH. change (sortBy docComparePathThenNewestFirst ((a :: arr) ++ [d]))
    with (insertBy docComparePathThenNewestFirst a
            (sortBy docComparePathThenNewestFirst (arr ++ [d]))).
  rewrite IH'. clear IH'. simpl List.filter.
  rewrite Forall_forall in Ha, Hparr.
  destruct (Z.leb_spec (timestamp d) (timestamp a)) as [Hle|Hlt].
  - replace (Z.ltb (timestamp a) (timestamp d)) with false
      by (symmetry; apply Z.ltb_ge; lia).
    apply insertBy_front.
    destruct (List.filter _ arr) as [|x rest] eqn:Hf; simpl.
    + now apply docCompare_not_Gt.
    + assert (Hx : In x arr).
      { assert (In x (x :: rest)) as Hin by now left.
        rewrite <- Hf in Hin. now apply filter_In in Hin. }
      apply docCompare_not_Gt; [|now apply Ha].
      now rewrite Hpa, (Hparr _ Hx).
  - replace (Z.ltb (timestamp a) (timestamp d)) with true
      by (symmetry; apply Z.ltb_lt; lia).
    rewrite filter_none, filter_all.
    + simpl. rewrite docCompare_Gt; try assumption.
      * f_equal. apply insertBy_front.
        destruct arr as [|x rest]; [exact I|].
        apply docCompare_not_Gt.
        -- now rewrite Hpa, (Hparr x (or_introl eq_refl)).
        -- apply Ha. now left.
      * intros Heq. specialize (Hsig a (or_introl eq_refl) Heq). lia.
    + apply Forall_forall. intros e He. apply Z.ltb_lt.
      specialize (Ha e He). simpl in Ha. lia.
    + apply Forall_forall. intros e He. apply Z.leb_gt.
      specialize (Ha e He). simpl in Ha. lia.
Qed.

Lemma docsAtPath_facts (b : Bowl) (p : Path) (arr : list Doc) :
  StoreInv b -> PathSorted b ->
  JsMap.get String.eqb p (docsByPathNewestFirst b) = Some arr ->
  arr <> [] /\
  StronglySorted newestFirst arr /\
  Forall (fun e => path e = p /\ In e (storedDocs b)) arr.
Proof.
  intros (_ & _ & (_ & Hent)) Hsorted Hget.
  apply (JsMapFacts.get_In String.eqb Seqb_eq) in Hget.
  unfold PathSorted in Hsorted. rewrite Forall_forall in Hent, Hsorted.
  destruct (Hent _ Hget) as (H1 & H2). specialize (Hsorted _ Hget).
  now repeat split.
Qed.

Lemma newestFirst_timestamp (x y : Doc) :
  newestFirst x y -> timestamp y <= timestamp x.
Proof. unfold newestFirst. lia. Qed.

(** The array of a path after a document is pushed and the array sorted. *)
Lemma pushed_array_sorted (b : Bowl) (d : Doc) (arr : list Doc) :
  LocalIndexInv b ->
  StronglySorted newestFirst arr ->
  Forall (fun e => path e = path d /\ In e (storedDocs b)) arr ->
  (forall e, In e arr -> signature e = signature d ->
             timestamp e = timestamp d) ->
  let d' := setLocalIndex d (highestLocalIndex b + 1) in
  let arr' := sortBy docComparePathThenNewestFirst (arr ++ [d']) in
  arr' = List.filter (fun e => Z.leb (timestamp d) (timestamp e)) arr
         ++ d' :: List.filter (fun e => Z.ltb (timestamp e) (timestamp d)) arr
  /\ StronglySorted newestFirst arr'.
Proof.
  intros Hidx Hs Hall Hsig d' arr'.
  assert (Heq : arr' =
            List.filter (fun e => Z.leb (timestamp d) (timestamp e)) arr
            ++ d' :: List.filter
                       (fun e => Z.ltb (timestamp e) (timestamp d)) arr).
  { unfold arr'. apply (sortBy_push arr d').
    - eapply StronglySorted_impl; [|exact Hs]. apply newestFirst_timestamp.
    - eapply Forall_impl; [|exact Hall]. now intros e [H _].
    - exact Hsig. }
  split; [assumption|]. rewrite Heq.
  rewrite Forall_forall in Hall.
  apply StronglySorted_middle.
  - now apply StronglySorted_filter.
  - now apply StronglySorted_filter.
  - apply Forall_forall. intros a Ha. apply filter_In in Ha.
    destruct Ha as [Ha Hle]. apply Z.leb_le in Hle.
    destruct (Hall _ Ha) as [_ Hin].
    destruct (LocalIndexInv_bound _ _ Hidx Hin) as (k & Hk & Hb).
    unfold newestFirst, localIndexOr0. rewrite Hk. simpl. lia.
  - apply Forall_forall. intros c Hc. apply filter_In in Hc.
    destruct Hc as [_ Hlt]. apply Z.ltb_lt in Hlt.
    left. simpl. lia.
  - intros a c Ha Hc. apply filter_In in Ha, Hc.
    destruct Ha as [_ Hle]. destruct Hc as [_ Hlt].
    apply Z.leb_le in Hle. apply Z.ltb_lt in Hlt. left. lia.
Qed.

Lemma PathSorted_upsert (b : Bowl) (d : Doc) (r : UpsertResult)
    (d' : Doc) (b' : Bowl) (t : list Effect) :
  StoreInv b -> PathSorted b ->
  upsert b d = Ok (r, d', b', t) ->
  signaturesAgree (storedDocs b') ->
  PathSorted b'.
Proof.
  intros Hinv Hsorted Hu Hsig.
  pose proof Hinv as (Hidx & _ & _).
  pose proof (upsert_storedDocs _ _ _ _ _ _ Hidx Hu) as Hdocs.
  apply upsert_inv in Hu.
  destruct Hu as [(_ & _ & -> & _)|(Hr & Hd & _ & _ & _ & Hp & _)];
    [assumption|].
  rewrite Hr in Hdocs. unfold PathSorted. rewrite Hp.
  apply JsMapFacts.Forall_set; [exact Hsorted|]. simpl. rewrite Hd.
  assert (Hcons : forall e, In e (storedDocs b) ->
                            signature e = signature d ->
                            timestamp e = timestamp d).
  { intros e He Hse.
    assert (H : timestamp e = timestamp d').
    { apply Hsig.
      - rewrite Hdocs. apply in_or_app. now left.
      - rewrite Hdocs. apply in_or_app. right. now left.
      - now rewrite Hd. }
    now rewrite Hd in H. }
  destruct (JsMap.get String.eqb (path d) (docsByPathNewestFirst b))
    as [arr|] eqn:Hget.
  - destruct (docsAtPath_facts _ _ _ Hinv Hsorted Hget) as (_ & Hs & Hall).
    apply pushed_array_sorted; try assumption.
    intros e He. apply Hcons.
    rewrite Forall_forall in Hall. now apply Hall.
  - apply (pushed_array_sorted b d []); try assumption; try constructor.
    intros e [].
Qed.

Lemma signaturesAgree_incl (l l' : list Doc) :
  incl l l' -> signaturesAgree l' -> signaturesAgree l.
Proof. intros Hincl H x y Hx Hy. apply H; now apply Hincl. Qed.

Lemma upsert_storedDocs_incl (b : Bowl) (d : Doc) (r : UpsertResult)
    (d' : Doc) (b' : Bowl) (t : list Effect) :
  LocalIndexInv b -> upsert b d = Ok (r, d', b', t) ->
  incl (storedDocs b) (storedDocs b').
Proof.
  intros Hidx Hu. rewrite (upsert_storedDocs _ _ _ _ _ _ Hidx Hu).
  destruct (accepted r); [apply incl_appl|]; apply incl_refl.
Qed.

Lemma PathSorted_reachable (b : Bowl) :
  Reachable b -> signaturesAgree (storedDocs b) -> PathSorted b.
Proof.
  induction 1 as [ | b c _ IH | b c _ IH | b fid f b' t _ IH Hadd
                 | b fid _ IH | b fid f f' t _ IH _ _
                 | b d r d' b' t Hreach IH Hu
                 | fakeHash b kp dw now uuid r d' b' t Hreach IH Hw ];
    try exact IH.
  - intros _. constructor.
  - apply addFollower_store in Hadd. destruct Hadd as [fs ->]. exact IH.
  - intros Hsig. apply StoreInv_reachable in Hreach.
    eapply PathSorted_upsert; try eassumption.
    apply IH. eapply signaturesAgree_incl; [|exact Hsig].
    eapply upsert_storedDocs_incl; [apply Hreach|eassumption].
  - intros Hsig. apply StoreInv_reachable in Hreach. unfold write in Hw.
    eapply PathSorted_upsert; try eassumption.
    apply IH. eapply signaturesAgree_incl; [|exact Hsig].
    eapply upsert_storedDocs_incl; [apply Hreach|eassumption].
Qed.

Lemma Doc_eqb_localIndex (x y : Doc) :
  Doc_eqb x y = true -> _localIndex x = _localIndex y.
Proof.
  unfold Doc_eqb. rewrite !andb_true_iff. intros (_ & H).
  destruct (_localIndex x), (_localIndex y); simpl in H;
    try discriminate; [|reflexivity].
  apply Z.eqb_eq in H. now subst.
Qed.

(** The order of the arrays in the bowls that calls which return bring
    about.  In a reachable bowl whose documents bear
    different signatures (or the same timestamp where they bear the same
    signature), the array of every path is not empty, holds documents of
    that path, the newer before the older and, among documents of one
    timestamp, the one stored first before the others, whatever their
    signatures; element 0 is what [getLatestDocAtPath] returns.  So a
    document upserted with a timestamp that is not above the one of the
    path's latest document does not become the latest, whatever its
    signature: the latest stays. *)
Theorem path_arrays_newest_first_then_arrival (b : Bowl)
    (Hreach : Reachable b) (Hsig : signaturesAgree (storedDocs b)) :
  (forall (p : Path) (arr : list Doc),
     getAllDocsAtPath b p = Some arr ->
     arr <> [] /\
     Forall (fun e => path e = p) arr /\
     StronglySorted newestFirst arr /\
     getLatestDocAtPath b p = nth_error arr 0) /\
  (forall (d old : Doc),
     signaturesAgree (d :: storedDocs b) ->
     getLatestDocAtPath b (path d) = Some old ->
     timestamp d <= timestamp old ->
     exists r d' b' t,
       upsert b d = Ok (r, d', b', t) /\
       r <> AcceptedAndLatest /\
       getLatestDocAtPath b' (path d) = Some old).
Proof.
  pose proof (StoreInv_reachable _ Hreach) as Hinv.
  pose proof (PathSorted_reachable _ Hreach Hsig) as Hsorted.
  split.
  - intros p arr Hget. unfold getAllDocsAtPath in Hget.
    destruct (docsAtPath_facts _ _ _ Hinv Hsorted Hget) as (Hne & Hs & Hall).
    repeat split; try assumption.
    + eapply Forall_impl; [|exact Hall]. now intros e [H _].
    + unfold getLatestDocAtPath. now rewrite Hget.
  - intros d old Hsigd Hold Hts.
    destruct (upsert_cases b d) as (r & d' & b' & t & Hu & Hcase).
    exists r, d', b', t. split; [assumption|].
    destruct Hcase
      as [(_ & _ & -> & _ & e & _ & [[_ ->]|[_ ->]])
         |(_ & Hd & _ & _ & _ & Hp & _ & _ & Hr)];
      try (split; [discriminate|assumption]).
    unfold getLatestDocAtPath in Hold |- *.
    destruct (JsMap.get String.eqb (path d) (docsByPathNewestFirst b))
      as [arr|] eqn:Hget; [|discriminate].
    destruct arr as [|old' rest]; [discriminate|].
    injection Hold as ->.
    destruct (docsAtPath_facts _ _ _ Hinv Hsorted Hget) as (_ & Hs & Hall).
    destruct Hinv as (Hidx & _).
    destruct (pushed_array_sorted b d (old :: rest) Hidx Hs Hall)
      as [Harr _].
    { intros e He. apply Hsigd; [right|now left].
      rewrite Forall_forall in Hall. now apply Hall. }
    simpl List.filter in Harr.
    replace (Z.leb (timestamp d) (timestamp old)) with true in Harr
      by (symmetry; now apply Z.leb_le).
    rewrite <- Hd in Harr. rewrite Harr in Hp, Hr. simpl in Hr.
    split.
    + destruct (Doc_eqb old d') eqn:E; [|subst r; discriminate].
      apply Doc_eqb_localIndex in E.
      inversion Hall as [|? ? [_ Hin] _]; subst.
      destruct (LocalIndexInv_bound _ _ Hidx Hin) as (k & Hk & Hb).
      rewrite Hk in E. simpl in E. injection E as ->. lia.
    + rewrite Hp, (JsMapFacts.get_set_same String.eqb Seqb_eq).
      reflexivity.
Qed.

Lemma bowlWithAB_reachable : Reachable bowlWithAB.
Proof.
  eapply (Reach_upsert bowlWithA docOfB).
  - eapply (Reach_upsert emptyBowl docOfA).
    + constructor.
    + vm_compute. reflexivity.
  - vm_compute. reflexivity.
Defined.

Lemma bowlWithAB_signaturesAgree : signaturesAgree (storedDocs bowlWithAB).
Proof.
  intros x y Hx Hy _. vm_compute in Hx, Hy.
  destruct Hx as [<-|[<-|[]]]; destruct Hy as [<-|[<-|[]]]; reflexivity.
Defined.

(** The theorem at the bowl two authors have upserted into. *)
Lemma path_arrays_newest_first_then_arrival_witness :
  (forall (p : Path) (arr : list Doc),
     getAllDocsAtPath bowlWithAB p = Some arr ->
     arr <> [] /\
     Forall (fun e => path e = p) arr /\
     StronglySorted newestFirst arr /\
     getLatestDocAtPath bowlWithAB p = nth_error arr 0) /\
  (forall (d old : Doc),
     signaturesAgree (d :: storedDocs bowlWithAB) ->
     getLatestDocAtPath bowlWithAB (path d) = Some old ->
     timestamp d <= timestamp old ->
     exists r d' b' t,
       upsert bowlWithAB d = Ok (r, d', b', t) /\
       r <> AcceptedAndLatest /\
       getLatestDocAtPath b' (path d) = Some old).
Proof.
  apply (path_arrays_newest_first_then_arrival bowlWithAB).
  - exact bowlWithAB_reachable.
  - exact bowlWithAB_signaturesAgree.
Defined.

(** The claim C2 as stated fails: A and B upsert at ["/p"] with the
    timestamp 100, the signature of B is the greater one, both documents
    are stored, and the latest document of the path is the one of A, which
    came first. *)
Lemma latest_is_not_highest_signature :
  exists dA dB,
    upsert emptyBowl docOfA = Ok (AcceptedAndLatest, dA, bowlWithA, []) /\
    upsert bowlWithA docOfB = Ok (AcceptedButNotLatest, dB, bowlWithAB, []) /\
    timestamp dA = timestamp dB /\
    String.compare (signature dA) (signature dB) = Lt /\
    author dA = "@a" /\ author dB = "@b" /\
    getAllDocsAtPath bowlWithAB "/p" = Some [dA; dB] /\
    getLatestDocAtPath bowlWithAB "/p" = Some dA /\
    getLatestDocAtPath bowlWithAB "/p" <> Some dB.
Proof.
  eexists _, _.
  split; [vm_compute; reflexivity|].
  split; [vm_compute; reflexivity|].
  repeat split; try (vm_compute; reflexivity).
  vm_compute. discriminate.
Qed.

(** ** Paths of a query *)

Lemma strLt_irrefl (x : string) : ~ strLt x x.
Proof. unfold strLt. now rewrite String_compare_refl. Qed.

Lemma strLt_trans (x y z : string) : strLt x y -> strLt y z -> strLt x z.
Proof. apply String_compare_Lt_trans. Qed.

Lemma uniq_In (l : list string) (x : string) : In x (uniq l) <-> In x l.
Proof.
  induction l as [|y l IH]; simpl; [tauto|].
  rewrite filter_In, IH, negb_true_iff, String.eqb_neq.
  destruct (string_dec y x); tauto.
Qed.

Lemma uniq_NoDup (l : list string) : NoDup (uniq l).
Proof.
  induction l as [|y l IH]; simpl; constructor.
  - rewrite filter_In, negb_true_iff, String.eqb_neq. tauto.
  - now apply NoDup_filter.
Qed.

(** [Array.sort()] on strings without repetition gives a strictly
    ascending array. *)
Lemma insertBy_compare_sorted (x : string) (l : list string) :
  ~ In x l -> StronglySorted strLt l ->
  StronglySorted strLt (insertBy String.compare x l).
Proof.
  intros Hx Hs. induction Hs as [|y l Hs IH Hy]; simpl.
  - repeat constructor.
  - destruct (String.compare x y) eqn:E.
    + apply String_as_OT.cmp_eq in E. subst. exfalso. apply Hx. now left.
    + constructor; [now constructor|].
      constructor; [exact E|].
      eapply Forall_impl; [|exact Hy]. intros z. now apply strLt_trans.
    + constructor.
      * apply IH. intros H. apply Hx. now right.
      * apply Forall_forall. intros z Hz.
        apply (Permutation_in _ (Permutation_sym (insertBy_perm _ x l))) in Hz.
        destruct Hz as [<-|Hz].
        -- now apply String_compare_Gt_Lt.
        -- rewrite Forall_forall in Hy. now apply Hy.
Qed.

Lemma sortBy_compare_sorted (l : list string) :
  NoDup l -> StronglySorted strLt (sortBy String.compare l).
Proof.
  induction 1 as [|x l Hx Hnd IH]; simpl; [constructor|].
  apply insertBy_compare_sorted; [|assumption].
  now rewrite sortBy_In.
Qed.

Lemma insertUnique_In (s x : string) (l : list string) :
  In x (insertUnique s l) <-> x = s \/ In x l.
Proof.
  induction l as [|y l IH]; simpl; [intuition|].
  destruct (String.compare s y) eqn:E; simpl.
  - apply String_as_OT.cmp_eq in E. subst. intuition.
  - intuition.
  - rewrite IH. intuition.
Qed.

Lemma insertUnique_sorted (s : string) (l : list string) :
  StronglySorted strLt l -> StronglySorted strLt (insertUnique s l).
Proof.
  intros Hs. induction Hs as [|y l Hs IH Hy]; simpl.
  - repeat constructor.
  - destruct (String.compare s y) eqn:E.
    + now constructor.
    + constructor; [now constructor|].
      constructor; [exact E|].
      eapply Forall_impl; [|exact Hy]. intros z. now apply strLt_trans.
    + constructor; [assumption|].
      apply Forall_forall. intros z Hz. apply insertUnique_In in Hz.
      destruct Hz as [->|Hz].
      * now apply String_compare_Gt_Lt.
      * rewrite Forall_forall in Hy. now apply Hy.
Qed.

Lemma sortedUnique_In (l : list string) (x : string) :
  In x (sortedUnique l) <-> In x l.
Proof.
  induction l as [|y l IH]; simpl; [tauto|].
  rewrite insertUnique_In. unfold sortedUnique in IH. rewrite IH.
  intuition.
Qed.

Lemma sortedUnique_sorted (l : list string) :
  StronglySorted strLt (sortedUnique l).
Proof.
  induction l as [|y l IH]; simpl; [constructor|].
  now apply insertUnique_sorted.
Qed.

(** Two strictly ascending lists with the same elements are equal. *)
Lemma strictly_sorted_unique (l1 : list string) :
  forall l2 : list string,
    StronglySorted strLt l1 -> StronglySorted strLt l2 ->
    (forall x, In x l1 <-> In x l2) ->
    l1 = l2.
Proof.
  induction l1 as [|x1 r1 IH]; intros [|x2 r2] H1 H2 Hin.
  - reflexivity.
  - exfalso. apply (Hin x2). now left.
  - exfalso. apply (Hin x1). now left.
  - inversion H1 as [|? ? Hs1 Hf1]; subst.
    inversion H2 as [|? ? Hs2 Hf2]; subst.
    rewrite Forall_forall in Hf1, Hf2.
    assert (Heq : x1 = x2).
    { destruct (proj1 (Hin x1) (or_introl eq_refl)) as [E|E]; [auto|].
      destruct (proj2 (Hin x2) (or_introl eq_refl)) as [E'|E']; [auto|].
      exfalso. apply (strLt_irrefl x1).
      eapply strLt_trans; [apply Hf1, E'|apply Hf2, E]. }
    subst x2. f_equal. apply IH; try assumption.
    intros x. split; intros Hx.
    + destruct (proj1 (Hin x) (or_intror Hx)) as [E|E]; [|assumption].
      subst x. exfalso. apply (strLt_irrefl x1). now apply Hf1.
    + destruct (proj2 (Hin x) (or_intror Hx)) as [E|E]; [|assumption].
      subst x. exfalso. apply (strLt_irrefl x1). now apply Hf2.
Qed.

(** The code's way to the unique sorted paths and the specification's
    agree. *)
Lemma sort_uniq_is_sortedUnique (l : list string) :
  sortBy String.compare (uniq l) = sortedUnique l.
Proof.
  apply strictly_sorted_unique.
  - apply sortBy_compare_sorted, uniq_NoDup.
  - apply sortedUnique_sorted.
  - intros x. now rewrite sortBy_In, uniq_In, sortedUnique_In.
Qed.

Lemma sort_keys_is_sortedUnique (keys l : list string) :
  NoDup keys -> (forall x, In x keys <-> In x l) ->
  sortBy String.compare keys = sortedUnique l.
Proof.
  intros Hnd Hin. apply strictly_sorted_unique.
  - now apply sortBy_compare_sorted.
  - apply sortedUnique_sorted.
  - intros x. now rewrite sortBy_In, sortedUnique_In.
Qed.

(** Without [startAt], [filter] and [limit] the loop of [queryDocs] keeps
    every document. *)
Lemma queryLoop_all (q : Query) (docs acc : list Doc) :
  startAt q = None -> filter q = None -> limit q = None ->
  queryLoop q docs acc = acc ++ docs.
Proof.
  intros H1 H2 H3. revert acc.
  induction docs as [|d docs IH]; intros acc; simpl.
  - now rewrite app_nil_r.
  - unfold skippedByStartAt. rewrite H1, H2, H3, IH.
    now rewrite <- app_assoc.
Qed.

Lemma queryDocs_default (b : Bowl) :
  queryDocs b None =
    sortBy docComparePathThenNewestFirst (getLatestDocs b false) /\
  queryDocs b (Some emptyQuery) =
    sortBy docComparePathThenNewestFirst (getLatestDocs b false).
Proof.
  split; unfold queryDocs; simpl; now rewrite queryLoop_all.
Qed.

(** The latest documents are one per key of the path index, each with the
    path of its key. *)
Lemma getLatestDocs_paths (b : Bowl) :
  PathInv b ->
  map path (getLatestDocs b false) = JsMap.keys (docsByPathNewestFirst b).
Proof.
  intros (_ & Hent). unfold getLatestDocs, JsMap.values, JsMap.keys.
  induction Hent as [|[p arr] m (Hne & Hall) _ IH]; simpl; [reflexivity|].
  simpl in Hne, Hall. destruct arr as [|d arr]; [contradiction|].
  inversion Hall as [|? ? [Hp _] _]; subst.
  change (path d :: map path
            (flat_map (fun docArray => firstn 1 docArray) (map snd m))
          = path d :: map fst m).
  f_equal. exact IH.
Qed.

Lemma isEmptyQuery_spec (q : Query) : isEmptyQuery q = true -> q = emptyQuery.
Proof.
  destruct q as [[|] [|] [|] [|] [|]]; simpl; try discriminate. reflexivity.
Qed.

(** C9.  In every reachable bowl and for every query, and for the call
    without a query, [queryPaths] returns the sorted unique paths of the
    documents [queryDocs] returns, reversed when the query orders by
    ['path DESC']. *)
Theorem queryPaths_sortedUnique (b : Bowl) (query : option Query)
    (Hreach : Reachable b) :
  queryPaths b query =
    let paths := sortedUnique (map path (queryDocs b query)) in
    match query with
    | Some q => if orderByIs q path_DESC then rev paths else paths
    | None => paths
    end.
Proof.
  apply StoreInv_reachable in Hreach. destruct Hreach as (_ & _ & Hpath).
  assert (Hkeys : forall docs,
            Permutation (getLatestDocs b false) docs ->
            sortBy String.compare (JsMap.keys (docsByPathNewestFirst b)) =
            sortedUnique (map path docs)).
  { intros docs Hperm. apply sort_keys_is_sortedUnique.
    - apply Hpath.
    - intros x. rewrite <- (getLatestDocs_paths b Hpath).
      split; apply Permutation_in, Permutation_map;
        [assumption|now symmetry]. }
  unfold queryPaths. cbv zeta.
  destruct query as [q|].
  - destruct (isEmptyQuery q) eqn:E.
    + apply isEmptyQuery_spec in E. subst q.
      change (orderByIs emptyQuery path_DESC) with false. cbv iota.
      apply Hkeys. rewrite (proj2 (queryDocs_default b)). apply sortBy_perm.
    + now rewrite sort_uniq_is_sortedUnique.
  - apply Hkeys. rewrite (proj1 (queryDocs_default b)). apply sortBy_perm.
Qed.

Lemma queryPaths_sortedUnique_witness :
  queryPaths bowlWithAB (Some (mkQuery (Some all) (Some path_DESC) None None None))
  = rev (sortedUnique
           (map path
              (queryDocs bowlWithAB
                 (Some (mkQuery (Some all) (Some path_DESC) None None None))))).
Proof.
  apply (queryPaths_sortedUnique bowlWithAB
           (Some (mkQuery (Some all) (Some path_DESC) None None None))).
  exact bowlWithAB_reachable.
Defined.

(** The theorem at a stale document of A and the bowl A and B have
    upserted into. *)
Lemma rejected_upsert_changes_nothing_witness :
  Reachable bowlWithAB /\
  separatorFree (path staleDocOfA) = true /\
  Forall (fun e => separatorFree (path e) = true) (storedDocs bowlWithAB) /\
  exists r d' b' t,
    upsert bowlWithAB staleDocOfA = Ok (r, d', b', t) /\
    (r = Obsolete \/ r = AlreadyHadIt \/ r = Invalid ->
       b' = bowlWithAB /\ d' = staleDocOfA /\ t = []) /\
    (r = Obsolete <->
       exists e,
         JsMap.get String.eqb (combinePathAndAuthor staleDocOfA)
                   (docWithPathAndAuthor bowlWithAB) = Some e /\
         overwriteKeyLt staleDocOfA e) /\
    (Reachable bowlWithAB ->
     separatorFree (path staleDocOfA) = true ->
     Forall (fun e => separatorFree (path e) = true)
            (storedDocs bowlWithAB) ->
     (r = Obsolete <->
        exists e,
          In e (storedDocs bowlWithAB) /\
          path e = path staleDocOfA /\ author e = author staleDocOfA /\
          overwriteKeyLt staleDocOfA e)).
Proof.
  split; [exact bowlWithAB_reachable|].
  split; [reflexivity|].
  split; [vm_compute; repeat constructor|].
  apply (rejected_upsert_changes_nothing bowlWithAB staleDocOfA).
Defined.

(** ** Nothing is ever taken out of the bowl *)

(** In a reachable bowl an accepted upsert adds its document to the
    documents of the bowl, also when a document of the same author at the
    same path is there: [getAllDocs()] grows by one. *)
Lemma accepted_upsert_adds_a_document (b : Bowl) (d : Doc)
    (r : UpsertResult) (d' : Doc) (b' : Bowl) (t : list Effect) :
  Reachable b ->
  upsert b d = Ok (r, d', b', t) ->
  accepted r = true ->
  getAllDocs b' false = getAllDocs b false ++ [d'] /\
  List.length (getAllDocs b' true) = S (List.length (getAllDocs b true)).
Proof.
  intros Hreach Hu Hr. apply StoreInv_reachable in Hreach.
  destruct Hreach as (Hidx & _).
  pose proof (upsert_storedDocs _ _ _ _ _ _ Hidx Hu) as Hdocs.
  rewrite Hr in Hdocs. unfold storedDocs in Hdocs.
  unfold getAllDocs. split; [assumption|].
  rewrite <- !(Permutation_length (sortBy_perm _ _)).
  rewrite Hdocs, length_app. simpl. lia.
Qed.

(** ** Catching up *)

Lemma LocalIndexInv_get (b : Bowl) (k : LocalIndex) :
  LocalIndexInv b ->
  (1 <= k <= highestLocalIndex b ->
   exists d, JsMap.get Z.eqb k (docWithLocalIndex b) = Some d /\
             _localIndex d = Some k) /\
  (~ 1 <= k <= highestLocalIndex b ->
   JsMap.get Z.eqb k (docWithLocalIndex b) = None).
Proof.
  intros (Hh & Hk & Hv).
  assert (Hin : In k (JsMap.keys (docWithLocalIndex b)) <->
                1 <= k <= highestLocalIndex b).
  { unfold LocalIndex in *. rewrite Hk, in_map_iff. split.
    - intros (i & <- & Hi). apply in_seq in Hi. lia.
    - intros Hr. exists (Z.to_nat k). split; [lia|]. apply in_seq. lia. }
  split.
  - intros Hr.
    destruct (JsMap.get Z.eqb k (docWithLocalIndex b)) as [d|] eqn:Hget.
    + exists d. split; [reflexivity|].
      apply (JsMapFacts.get_In Z.eqb Zeqb_eq) in Hget.
      rewrite Forall_forall in Hv. apply (Hv _ Hget).
    + apply (JsMapFacts.get_None_keys Z.eqb Zeqb_eq) in Hget. tauto.
  - intros Hr. apply (JsMapFacts.get_None_keys Z.eqb Zeqb_eq). tauto.
Qed.

Lemma docsSinceLoop_indexes (b : Bowl) (n : nat) :
  LocalIndexInv b ->
  forall (ii : LocalIndex) (docs : list Doc),
    ii + Z.of_nat n = highestLocalIndex b + 1 ->
    map _localIndex (docsSinceLoop (docWithLocalIndex b) None n ii docs) =
    map _localIndex docs ++
    nextIndexes (Z.max ii 1 - 1)
                (Z.to_nat (highestLocalIndex b + 1 - Z.max ii 1)).
Proof.
  intros Hinv. pose proof Hinv as (Hh & _).
  induction n as [|n IH]; intros ii docs Hii.
  - simpl. replace (Z.to_nat _) with 0%nat by lia. simpl.
    now rewrite app_nil_r.
  - simpl docsSinceLoop.
    destruct (LocalIndexInv_get b ii Hinv) as [Hin Hout].
    destruct (Z_le_gt_dec 1 ii) as [Hge|Hlt].
    + destruct Hin as (d & Hget & Hd); [lia|].
      unfold LocalIndex in *. rewrite Hget, IH by lia.
      rewrite map_app, <- app_assoc. f_equal. simpl. rewrite Hd.
      replace (Z.to_nat (highestLocalIndex b + 1 - Z.max ii 1))
        with (S (Z.to_nat (highestLocalIndex b + 1 - Z.max (ii + 1) 1)))
        by lia.
      simpl. f_equal; [f_equal; lia|]. f_equal. lia.
    + unfold LocalIndex in *. rewrite Hout, IH by lia.
      f_equal. f_equal; [lia|]. f_equal. lia.
Qed.

Lemma deliveredIndexes_map (fid : FollowerId) (docs : list Doc) :
  deliveredIndexes fid (map (EFollowerCb fid) docs) = map _localIndex docs.
Proof.
  induction docs as [|d docs IH]; simpl; [reflexivity|].
  now rewrite Nat.eqb_refl, IH.
Qed.

(** In a reachable bowl the catch-up of a synchronous follower calls the
    callback with the local indexes from its [nextIndex] (from 1 when that
    is below 1) to the highest one, one after the other: every index up to
    the highest is taken, as no document is ever removed.  The follower
    keeps its [nextIndex]. *)
Lemma sync_catch_up_delivers (b : Bowl) (fid : FollowerId) (f : Follower) :
  Reachable b -> kind f = sync ->
  exists b' t f',
    addFollower b fid f = Ok (b', t) /\
    deliveredIndexes fid t =
      nextIndexes (Z.max (nextIndex f) 1 - 1)
        (Z.to_nat (highestLocalIndex b + 1 - Z.max (nextIndex f) 1)) /\
    JsMap.get Nat.eqb fid (followers b') = Some f' /\
    nextIndex f' = nextIndex f.
Proof.
  intros Hreach Hk. apply StoreInv_reachable in Hreach.
  destruct Hreach as (Hidx & _). pose proof Hidx as (Hh & _).
  rewrite (addFollower_sync _ _ _ Hk). eexists _, _, _.
  split; [reflexivity|]. split; [|split].
  - rewrite deliveredIndexes_map. unfold getDocsSinceLocalIndex.
    destruct (Z_le_gt_dec (nextIndex f) (highestLocalIndex b + 1))
      as [Hle|Hgt].
    + rewrite (docsSinceLoop_indexes b _ Hidx) by lia. reflexivity.
    + replace (Z.to_nat (highestLocalIndex b + 1 - nextIndex f))
        with 0%nat by lia.
      replace (Z.to_nat (highestLocalIndex b + 1 - Z.max (nextIndex f) 1))
        with 0%nat by lia.
      reflexivity.
  - simpl. apply (JsMapFacts.get_set_same Nat.eqb Neqb_eq).
  - reflexivity.
Qed.

(* ================================================================== *)
(** * Further properties of the bowl *)

(** ** Upserting and looking up *)

Lemma optZ_eqb_eq (a b : option Z) : optZ_eqb a b = true <-> a = b.
Proof.
  destruct a as [x|], b as [y|]; simpl; try (split; congruence).
  rewrite Z.eqb_eq. split; congruence.
Qed.

Lemma Doc_eqb_eq (x y : Doc) : Doc_eqb x y = true <-> x = y.
Proof.
  destruct x, y. unfold Doc_eqb. simpl.
  rewrite !andb_true_iff, !String.eqb_eq, !Z.eqb_eq, optZ_eqb_eq.
  split.
  - intros (((((((-> & ->) & ->) & ->) & ->) & ->) & ->) & ->). reflexivity.
  - intros [= -> -> -> -> -> -> -> ->]. repeat split.
Qed.






(** ** Write events and followers of an upsert *)

Lemma writeEventsTo_app (c : CbId) (t1 t2 : list Effect) :
  writeEventsTo c (t1 ++ t2) = writeEventsTo c t1 ++ writeEventsTo c t2.
Proof.
  induction t1 as [|e t1 IH]; [reflexivity|].
  destruct e as [c' ev|f d|f]; simpl; try assumption.
  destruct (Nat.eqb c' c); simpl; now rewrite IH.
Qed.

Lemma deliveredDocs_app (fid : FollowerId) (t1 t2 : list Effect) :
  deliveredDocs fid (t1 ++ t2) = deliveredDocs fid t1 ++ deliveredDocs fid t2.
Proof.
  induction t1 as [|e t1 IH]; [reflexivity|].
  destruct e as [c' ev|f d|f]; simpl; try assumption;
    destruct (Nat.eqb f fid); simpl; now rewrite IH.
Qed.

Lemma scheduledRuns_app (fid : FollowerId) (t1 t2 : list Effect) :
  scheduledRuns fid (t1 ++ t2)
  = (scheduledRuns fid t1 + scheduledRuns fid t2)%nat.
Proof.
  induction t1 as [|e t1 IH]; [reflexivity|].
  destruct e as [c' ev|f d|f]; simpl; try assumption;
    destruct (Nat.eqb f fid); simpl; now rewrite IH.
Qed.

(** The loop over the followers: the same followers in the same order,
    every one stepped by [followerAfterUpsert]; a synchronous follower is
    called once with the document, a sleeping asynchronous one is
    scheduled once, and nothing else happens. *)
Lemma updateFollowers_spec
    (fs : JsMap.t (K := FollowerId) (V := Follower)) (d : Doc)
    (highest : LocalIndex) :
  NoDup (JsMap.keys fs) ->
  exists fs' t,
    updateFollowers fs d highest = Ok (fs', t) /\
    JsMap.keys fs' = JsMap.keys fs /\
    (forall c, writeEventsTo c t = []) /\
    forall fid,
      match JsMap.get Nat.eqb fid fs with
      | None =>
          JsMap.get Nat.eqb fid fs' = None /\
          deliveredDocs fid t = [] /\ scheduledRuns fid t = 0%nat
      | Some f =>
          JsMap.get Nat.eqb fid fs' = Some (followerAfterUpsert f highest) /\
          deliveredDocs fid t =
            match kind f with sync => [d] | async => [] end /\
          scheduledRuns fid t =
            match kind f with
            | sync => 0%nat
            | async => if stateIs f sleeping then 1%nat else 0%nat
            end
      end.
Proof.
  induction fs as [|[k f] fs IH]; intros Hnd.
  - exists [], []. simpl. repeat split.
  - inversion Hnd as [|? ? Hk Hnd']; subst.
    destruct (IH Hnd') as (fs' & t & Hu & Hkeys & Hw & Hall). clear IH.
    assert (Hstep : exists f' e1,
              match kind f with
              | sync =>
                  Ok (setNextIndex f (highest + 1), [EFollowerCb k d])
              | async =>
                  if stateIs f sleeping then wakeAsyncFollower k f
                  else Ok (f, [])
              end = Ok (f', e1) /\
              f' = followerAfterUpsert f highest /\
              (forall c, writeEventsTo c e1 = []) /\
              deliveredDocs k e1 =
                match kind f with sync => [d] | async => [] end /\
              scheduledRuns k e1 =
                match kind f with
                | sync => 0%nat
                | async => if stateIs f sleeping then 1%nat else 0%nat
                end /\
              forall fid, fid <> k ->
                deliveredDocs fid e1 = [] /\ scheduledRuns fid e1 = 0%nat).
    { unfold followerAfterUpsert. destruct (kind f).
      - eexists _, _. split; [reflexivity|]. simpl. rewrite Nat.eqb_refl.
        do 4 (split; [reflexivity|]). intros fid Hne.
        apply Nat.eqb_neq in Hne. rewrite Nat.eqb_sym in Hne. now rewrite Hne.
      - destruct (stateIs f sleeping) eqn:E.
        + rewrite (wakeAsyncFollower_sleeping _ _ E).
          eexists _, _. split; [reflexivity|]. simpl. rewrite Nat.eqb_refl.
          do 4 (split; [reflexivity|]). intros fid Hne.
          apply Nat.eqb_neq in Hne. rewrite Nat.eqb_sym in Hne.
          now rewrite Hne.
        + eexists _, _. split; [reflexivity|]. simpl.
          do 4 (split; [reflexivity|]). now intros fid Hne. }
    destruct Hstep as (f' & e1 & Hs & Hf' & Hw1 & Hd1 & Hr1 & Hother).
    exists ((k, f') :: fs'), (e1 ++ t).
    split; [simpl; now rewrite Hs; simpl; rewrite Hu|].
    split; [unfold JsMap.keys in *; simpl; now rewrite Hkeys|].
    split; [intros c; now rewrite writeEventsTo_app, Hw1, Hw|].
    intros fid. simpl. destruct (Nat.eqb fid k) eqn:E.
    + apply Nat.eqb_eq in E. subst fid.
      apply (JsMapFacts.get_None_keys Nat.eqb Neqb_eq) in Hk.
      specialize (Hall k). rewrite Hk in Hall.
      destruct Hall as (_ & Hd2 & Hr2).
      rewrite deliveredDocs_app, scheduledRuns_app, Hd1, Hd2, Hr1, Hr2, Hf'.
      rewrite app_nil_r, Nat.add_0_r. repeat split.
    + apply Nat.eqb_neq in E. destruct (Hother fid E) as [Hd2 Hr2].
      specialize (Hall fid).
      rewrite deliveredDocs_app, scheduledRuns_app, Hd2, Hr2. simpl.
      exact Hall.
Qed.

(** The trace of an accepted upsert: one write event per callback of the
    bowl, in the order of their registration, and then what the loop over
    the followers did. *)
Lemma upsert_trace (b : Bowl) (d : Doc) (r : UpsertResult) (d' : Doc)
    (b' : Bowl) (t : list Effect) :
  upsert b d = Ok (r, d', b', t) ->
  accepted r = true ->
  exists ev delivered,
    t = map (fun c => EOnWrite c ev) (onWriteCbs b) ++ delivered /\
    updateFollowers (followers b) d' (highestLocalIndex b + 1)
      = Ok (followers b', delivered) /\
    onWriteCbs b' = onWriteCbs b /\
    doc ev = d' /\
    (isLatest ev = true <-> r = AcceptedAndLatest) /\
    previousDocSameAuthor ev =
      JsMap.get String.eqb (combinePathAndAuthor d) (docWithPathAndAuthor b) /\
    previousLatestDoc ev =
      (let arr :=
         sortBy docComparePathThenNewestFirst
           (match JsMap.get String.eqb (path d) (docsByPathNewestFirst b)
            with Some docs => docs | None => [] end ++ [d']) in
       if isLatest ev && Nat.ltb 1 (List.length arr)
       then nth_error arr 1 else None).
Proof.
  intros Hu Hacc. unfold upsert in Hu. simpl in Hu.
  destruct (JsMap.get String.eqb (combinePathAndAuthor d)
                      (docWithPathAndAuthor b)) as [e|] eqn:Hget;
    simpl in Hu;
    [destruct (docCompareForOverwrite d e) eqn:Hcmp;
     try (injection Hu as <- _ _ _; discriminate)|];
    (destruct (updateFollowers (followers b)
                 (setLocalIndex d (highestLocalIndex b + 1))
                 (highestLocalIndex b + 1)) as [[fs delivered]|] eqn:Hfs;
     simpl in Hu; [|discriminate]);
    injection Hu as <- <- <- <-;
    (eexists _, _; split; [reflexivity|]);
    (split; [exact Hfs|]); simpl;
    (split; [reflexivity|]); (split; [reflexivity|]);
    (split; [|split; reflexivity]);
    destruct (match sortBy _ _ with [] => false | d0 :: _ => _ end);
    split; congruence.
Qed.

Lemma setAdd_NoDup (c : CbId) (s : list CbId) :
  NoDup s -> NoDup (setAdd c s).
Proof.
  intros Hnd. unfold setAdd. destruct (existsb (Nat.eqb c) s) eqn:E;
    [assumption|].
  apply NoDup_rev in Hnd. rewrite <- (rev_involutive (s ++ [c])).
  apply NoDup_rev. rewrite rev_app_distr. simpl. constructor; [|assumption].
  rewrite <- in_rev. intros Hin.
  assert (existsb (Nat.eqb c) s = true); [|congruence].
  apply existsb_exists. exists c. split; [assumption|apply Nat.eqb_refl].
Qed.

Lemma NoDup_keys_filter {K V : Type} (p : K * V -> bool) (m : JsMap.t) :
  NoDup (JsMap.keys m) -> NoDup (JsMap.keys (List.filter p m)).
Proof.
  unfold JsMap.keys. induction m as [|[k v] m IH]; simpl; [trivial|].
  intros Hnd. inversion Hnd as [|? ? Hk Hnd']; subst.
  destruct (p (k, v)); simpl; [|auto].
  constructor; [|auto]. intros Hin. apply Hk.
  apply in_map_iff in Hin. destruct Hin as (kv & Hkv & Hin).
  apply filter_In in Hin. apply in_map_iff. exists kv. tauto.
Qed.

Lemma addFollower_followers (b : Bowl) (fid : FollowerId) (f : Follower)
    (b' : Bowl) (t : list Effect) :
  addFollower b fid f = Ok (b', t) ->
  exists f', b' = setFollowers b (JsMap.set Nat.eqb fid f' (followers b)).
Proof.
  unfold addFollower. destruct (kind (setState f sleeping)).
  - intros [= <- _]. now eexists.
  - destruct (wakeAsyncFollower fid (setState f sleeping)) as [[f' e]|];
      simpl; [|discriminate].
    intros [= <- _]. now eexists.
Qed.

Lemma RegistryInv_upsert (b : Bowl) (d : Doc) (r : UpsertResult)
    (d' : Doc) (b' : Bowl) (t : list Effect) :
  RegistryInv b -> upsert b d = Ok (r, d', b', t) -> RegistryInv b'.
Proof.
  intros (Hc & Hf) Hu.
  destruct (accepted r) eqn:Hacc.
  - destruct (upsert_trace _ _ _ _ _ _ Hu Hacc)
      as (ev & delivered & _ & Hfs & Hcbs & _).
    destruct (updateFollowers_spec (followers b) d'
                (highestLocalIndex b + 1) Hf)
      as (fs' & t' & Hfs' & Hkeys & _).
    rewrite Hfs in Hfs'. injection Hfs' as <- <-.
    split; [now rewrite Hcbs|now rewrite Hkeys].
  - apply upsert_inv in Hu.
    destruct Hu as [(_ & _ & -> & _)|(Hr & _)]; [now split|congruence].
Qed.

Lemma RegistryInv_reachable (b : Bowl) : Reachable b -> RegistryInv b.
Proof.
  induction 1 as [ | b c _ IH | b c _ IH | b fid f b' t _ IH Hadd
                 | b fid _ IH | b fid f f' t _ IH _ _
                 | b d r d' b' t _ IH Hu
                 | fakeHash b kp dw now uuid r d' b' t _ IH Hw ].
  - split; constructor.
  - destruct IH as (Hc & Hf). split; [now apply setAdd_NoDup|assumption].
  - destruct IH as (Hc & Hf). split; [now apply NoDup_filter|assumption].
  - apply addFollower_followers in Hadd. destruct Hadd as [f' ->].
    destruct IH as (Hc & Hf). split; [assumption|].
    now apply (JsMapFacts.NoDup_keys_set Nat.eqb Neqb_eq).
  - destruct IH as (Hc & Hf). split; [assumption|].
    now apply NoDup_keys_filter.
  - destruct IH as (Hc & Hf). split; [assumption|].
    now apply (JsMapFacts.NoDup_keys_set Nat.eqb Neqb_eq).
  - eapply RegistryInv_upsert; eassumption.
  - unfold write in Hw. eapply RegistryInv_upsert; eassumption.
Qed.

Lemma writeEventsTo_callbacks (c : CbId) (ev : WriteEvent)
    (cbs : list CbId) :
  NoDup cbs ->
  writeEventsTo c (map (fun c' => EOnWrite c' ev) cbs) =
    if existsb (Nat.eqb c) cbs then [ev] else [].
Proof.
  induction 1 as [|c' cbs Hc' Hnd IH]; simpl; [reflexivity|].
  rewrite (Nat.eqb_sym c c'). destruct (Nat.eqb c' c) eqn:E; simpl.
  - apply Nat.eqb_eq in E. subst c'. rewrite IH.
    destruct (existsb (Nat.eqb c) cbs) eqn:Ex; [|reflexivity].
    apply existsb_exists in Ex. destruct Ex as (x & Hx & Hcx).
    apply Nat.eqb_eq in Hcx. subst x. contradiction.
  - exact IH.
Qed.

(** X4.  In a reachable bowl an upsert sends every registered callback
    exactly one write event when the document is accepted, and none when
    it is not; a callback that is not registered gets none.  The event
    carries the document as it was stored, says whether the result is
    [AcceptedAndLatest], and carries the document that was filed under the
    key of the new one before the call. *)
Theorem one_write_event_per_callback (b : Bowl) (d : Doc) (c : CbId)
    (Hreach : Reachable b) :
  exists r d' b' t,
    upsert b d = Ok (r, d', b', t) /\
    (accepted r = false -> writeEventsTo c t = []) /\
    (~ In c (onWriteCbs b) -> writeEventsTo c t = []) /\
    (accepted r = true -> In c (onWriteCbs b) ->
       exists ev,
         writeEventsTo c t = [ev] /\
         doc ev = d' /\
         (isLatest ev = true <-> r = AcceptedAndLatest) /\
         previousDocSameAuthor ev =
           JsMap.get String.eqb (combinePathAndAuthor d)
                     (docWithPathAndAuthor b)).
Proof.
  destruct (RegistryInv_reachable _ Hreach) as (Hc & Hf).
  destruct (upsert_cases b d) as (r & d' & b' & t & Hu & Hcase).
  exists r, d', b', t. split; [assumption|].
  destruct (accepted r) eqn:Hacc.
  - destruct (upsert_trace _ _ _ _ _ _ Hu Hacc)
      as (ev & delivered & Ht & Hfs & _ & Hdoc & Hlat & Hprev & _).
    destruct (updateFollowers_spec (followers b) d'
                (highestLocalIndex b + 1) Hf)
      as (fs' & t' & Hfs' & _ & Hw & _).
    rewrite Hfs in Hfs'. injection Hfs' as <- <-.
    assert (Hev : writeEventsTo c t =
                  if existsb (Nat.eqb c) (onWriteCbs b) then [ev] else []).
    { rewrite Ht, writeEventsTo_app, Hw, app_nil_r.
      now apply writeEventsTo_callbacks. }
    split; [discriminate|]. split.
    + intros Hnin. rewrite Hev.
      destruct (existsb (Nat.eqb c) (onWriteCbs b)) eqn:Ex; [|reflexivity].
      apply existsb_exists in Ex. destruct Ex as (x & Hx & Hcx).
      apply Nat.eqb_eq in Hcx. subst x. contradiction.
    + intros _ Hin. exists ev. rewrite Hev.
      replace (existsb (Nat.eqb c) (onWriteCbs b)) with true;
        [split; [reflexivity|]; split; [assumption|]; split; assumption|].
      symmetry. apply existsb_exists. exists c. split; [assumption|].
      apply Nat.eqb_refl.
  - destruct Hcase as [(_ & _ & _ & -> & _)|(Hr & _)]; [|congruence].
    repeat split; try reflexivity. discriminate.
Qed.

Lemma bowlWithCallback_reachable : Reachable bowlWithCallback.
Proof.
  apply Reach_onWrite. eapply (Reach_upsert emptyBowl docOfA).
  - constructor.
  - vm_compute. reflexivity.
Defined.

Lemma one_write_event_per_callback_witness :
  exists r d' b' t,
    upsert bowlWithCallback docOfB = Ok (r, d', b', t) /\
    (accepted r = false -> writeEventsTo 3%nat t = []) /\
    (~ In 3%nat (onWriteCbs bowlWithCallback) -> writeEventsTo 3%nat t = []) /\
    (accepted r = true -> In 3%nat (onWriteCbs bowlWithCallback) ->
       exists ev,
         writeEventsTo 3%nat t = [ev] /\
         doc ev = d' /\
         (isLatest ev = true <-> r = AcceptedAndLatest) /\
         previousDocSameAuthor ev =
           JsMap.get String.eqb (combinePathAndAuthor docOfB)
                     (docWithPathAndAuthor bowlWithCallback)).
Proof.
  apply (one_write_event_per_callback bowlWithCallback docOfB 3%nat).
  exact bowlWithCallback_reachable.
Defined.

(** ** Becoming the latest document of a path *)

(** The one event of an accepted upsert in a reachable bowl. *)
Lemma one_write_event_aux (b : Bowl) (d : Doc) :
  Reachable b ->
  exists r d' b' t,
    upsert b d = Ok (r, d', b', t) /\
    (accepted r = true ->
       exists ev,
         (forall c, In c (onWriteCbs b) -> writeEventsTo c t = [ev]) /\
         (isLatest ev = true <-> r = AcceptedAndLatest) /\
         previousLatestDoc ev =
           (let arr :=
              sortBy docComparePathThenNewestFirst
                (match JsMap.get String.eqb (path d)
                                 (docsByPathNewestFirst b)
                 with Some docs => docs | None => [] end ++ [d']) in
            if isLatest ev && Nat.ltb 1 (List.length arr)
            then nth_error arr 1 else None)).
Proof.
  intros Hreach.
  destruct (RegistryInv_reachable _ Hreach) as (Hc & Hf).
  destruct (upsert_returns b d) as (r & d' & b' & t & Hu).
  exists r, d', b', t. split; [assumption|]. intros Hacc.
  destruct (upsert_trace _ _ _ _ _ _ Hu Hacc)
    as (ev & delivered & Ht & Hfs & _ & _ & Hlat & _ & Hprev).
  destruct (updateFollowers_spec (followers b) d'
              (highestLocalIndex b + 1) Hf)
    as (fs' & t' & Hfs' & _ & Hw & _).
  rewrite Hfs in Hfs'. injection Hfs' as <- <-.
  exists ev. split; [|split; assumption].
  intros c Hin.
  rewrite Ht, writeEventsTo_app, Hw, app_nil_r.
  rewrite (writeEventsTo_callbacks _ _ _ Hc).
  replace (existsb (Nat.eqb c) (onWriteCbs b)) with true; [reflexivity|].
  symmetry. apply existsb_exists. exists c. split; [assumption|].
  apply Nat.eqb_refl.
Qed.

(** The array of a path after a push, by the timestamp of the path's
    latest document. *)
Lemma pushed_array_head (b : Bowl) (d : Doc) :
  StoreInv b -> PathSorted b ->
  (forall e, In e (storedDocs b) -> signature e = signature d ->
             timestamp e = timestamp d) ->
  let d' := setLocalIndex d (highestLocalIndex b + 1) in
  let arr :=
    match JsMap.get String.eqb (path d) (docsByPathNewestFirst b)
    with Some docs => docs | None => [] end in
  let arr' := sortBy docComparePathThenNewestFirst (arr ++ [d']) in
  match getLatestDocAtPath b (path d) with
  | None => arr' = [d']
  | Some old =>
      if Z.ltb (timestamp old) (timestamp d)
      then arr' = d' :: arr /\ nth_error arr 0 = Some old
      else exists rest, arr' = old :: rest /\ old <> d'
  end.
Proof.
  intros Hinv Hsorted Hcons d' arr arr'. pose proof Hinv as (Hidx & _).
  unfold getLatestDocAtPath. subst arr arr'.
  destruct (JsMap.get String.eqb (path d) (docsByPathNewestFirst b))
    as [arr|] eqn:Hget; [|reflexivity].
  destruct (docsAtPath_facts _ _ _ Hinv Hsorted Hget) as (Hne & Hs & Hall).
  destruct arr as [|old rest]; [contradiction|]. simpl nth_error.
  destruct (pushed_array_sorted b d (old :: rest) Hidx Hs Hall) as [Harr _].
  { intros e He. apply Hcons. rewrite Forall_forall in Hall. now apply Hall. }
  fold d' in Harr. rewrite Harr.
  destruct (Z.ltb_spec (timestamp old) (timestamp d)) as [Hlt|Hge].
  - split; [|reflexivity].
    assert (Hts : Forall (fun e => timestamp e < timestamp d) (old :: rest)).
    { constructor; [assumption|].
      inversion Hs as [|? ? _ Hf]; subst.
      eapply Forall_impl; [|exact Hf]. intros e He.
      apply newestFirst_timestamp in He. lia. }
    rewrite filter_none, filter_all; [reflexivity| |].
    + eapply Forall_impl; [|exact Hts]. intros e He. now apply Z.ltb_lt.
    + eapply Forall_impl; [|exact Hts]. intros e He. apply Z.leb_gt. exact He.
  - simpl List.filter.
    replace (Z.leb (timestamp d) (timestamp old)) with true
      by (symmetry; now apply Z.leb_le).
    eexists. split; [reflexivity|]. intros ->.
    inversion Hall as [|? ? [_ Hin] _]; subst.
    destruct (LocalIndexInv_bound _ _ Hidx Hin) as (k & Hk & Hb).
    simpl in Hk. injection Hk as <-. lia.
Qed.

(** X5.  In a reachable bowl whose documents, with the new one, bear
    different signatures (or one timestamp where they bear one signature),
    an accepted document becomes the latest of its path exactly when the
    path had no document or its timestamp is strictly above the one of the
    path's latest; the write event then carries as [previousLatestDoc]
    the latest document the path had before the call, and nothing when the
    new document is not the latest. *)
Theorem latest_iff_strictly_newer (b : Bowl) (d : Doc)
    (Hreach : Reachable b)
    (Hsig : signaturesAgree (d :: storedDocs b)) :
  exists r d' b' t,
    upsert b d = Ok (r, d', b', t) /\
    (accepted r = true ->
       (r = AcceptedAndLatest <->
          match getLatestDocAtPath b (path d) with
          | Some old => timestamp old < timestamp d
          | None => True
          end) /\
       forall c, In c (onWriteCbs b) ->
         exists ev,
           writeEventsTo c t = [ev] /\
           previousLatestDoc ev =
             if isLatest ev then getLatestDocAtPath b (path d) else None).
Proof.
  pose proof (StoreInv_reachable _ Hreach) as Hinv.
  assert (Hsig0 : signaturesAgree (storedDocs b)).
  { eapply signaturesAgree_incl; [|exact Hsig]. apply incl_tl, incl_refl. }
  pose proof (PathSorted_reachable _ Hreach Hsig0) as Hsorted.
  assert (Hcons : forall e, In e (storedDocs b) ->
                            signature e = signature d ->
                            timestamp e = timestamp d).
  { intros e He. apply Hsig; [now right|now left]. }
  pose proof (pushed_array_head b d Hinv Hsorted Hcons) as Hhead.
  cbv zeta in Hhead.
  destruct (one_write_event_aux b d Hreach) as (r & d' & b' & t & Hu & Hev).
  exists r, d', b', t. split; [assumption|]. intros Hacc.
  destruct (upsert_inv _ _ _ _ _ _ Hu)
    as [(Hr & _)|(_ & Hd & _ & _ & _ & _ & _ & Hres)]; [congruence|].
  destruct (Hev Hacc) as (ev & Hevs & Hlat & Hprev).
  rewrite <- Hd in Hhead.
  assert (Hmain :
    (r = AcceptedAndLatest <->
       match getLatestDocAtPath b (path d) with
       | Some old => timestamp old < timestamp d
       | None => True
       end) /\
    previousLatestDoc ev =
      if isLatest ev then getLatestDocAtPath b (path d) else None).
  { rewrite Hprev. cbv zeta.
    destruct (getLatestDocAtPath b (path d)) as [old|].
    - destruct (Z.ltb_spec (timestamp old) (timestamp d)) as [Hlt|Hge].
      + destruct Hhead as [Harr Hold]. rewrite Harr in Hres |- *.
        assert (E : Doc_eqb d' d' = true) by now apply Doc_eqb_eq.
        rewrite E in Hres. subst r.
        replace (isLatest ev) with true by (symmetry; now apply Hlat).
        split; [tauto|].
        destruct (match JsMap.get String.eqb (path d)
                          (docsByPathNewestFirst b)
                  with Some docs => docs | None => [] end) as [|x l];
          [discriminate|].
        simpl in Hold |- *. exact Hold.
      + destruct Hhead as (rest & Harr & Hne). rewrite Harr in Hres.
        assert (E : Doc_eqb old d' = false).
        { destruct (Doc_eqb old d') eqn:E'; [|reflexivity].
          apply Doc_eqb_eq in E'. contradiction. }
        rewrite E in Hres. subst r.
        assert (isLatest ev = false) as ->.
        { destruct (isLatest ev); [|reflexivity].
          assert (AcceptedButNotLatest = AcceptedAndLatest) by now apply Hlat.
          discriminate. }
        split; [|reflexivity]. split; [discriminate|lia].
    - rewrite Hhead in Hres |- *.
      assert (E : Doc_eqb d' d' = true) by now apply Doc_eqb_eq.
      simpl in Hres. rewrite E in Hres. subst r.
      split; [tauto|]. simpl. now destruct (isLatest ev). }
  split; [apply Hmain|].
  intros c Hc. exists ev. split; [now apply Hevs|apply Hmain].
Qed.

Lemma latest_iff_strictly_newer_witness :
  exists r d' b' t,
    upsert bowlWithCallback docOfB = Ok (r, d', b', t) /\
    (accepted r = true ->
       (r = AcceptedAndLatest <->
          match getLatestDocAtPath bowlWithCallback (path docOfB) with
          | Some old => timestamp old < timestamp docOfB
          | None => True
          end) /\
       forall c, In c (onWriteCbs bowlWithCallback) ->
         exists ev,
           writeEventsTo c t = [ev] /\
           previousLatestDoc ev =
             if isLatest ev
             then getLatestDocAtPath bowlWithCallback (path docOfB)
             else None).
Proof.
  apply (latest_iff_strictly_newer bowlWithCallback docOfB).
  - exact bowlWithCallback_reachable.
  - intros x y Hx Hy _. vm_compute in Hx, Hy.
    destruct Hx as [<-|[<-|[]]]; destruct Hy as [<-|[<-|[]]]; reflexivity.
Defined.

(** ** Followers *)

Lemma deliveredDocs_callbacks (fid : FollowerId) (ev : WriteEvent)
    (cbs : list CbId) :
  deliveredDocs fid (map (fun c => EOnWrite c ev) cbs) = [] /\
  scheduledRuns fid (map (fun c => EOnWrite c ev) cbs) = 0%nat.
Proof. induction cbs as [|c cbs IH]; simpl; [now split|exact IH]. Qed.

(** X6.  In a reachable bowl an accepted upsert calls every registered
    synchronous follower exactly once, with the stored document, and sets
    its [nextIndex] to the new highest local index plus one; it wakes a
    registered asynchronous follower that sleeps (state [running], one run
    scheduled) and leaves one that runs alone; no follower is added or
    removed.  An upsert that is not accepted touches no follower. *)
Theorem upsert_steps_followers (b : Bowl) (d : Doc) (fid : FollowerId)
    (f : Follower)
    (Hreach : Reachable b)
    (Hget : JsMap.get Nat.eqb fid (followers b) = Some f) :
  exists r d' b' t,
    upsert b d = Ok (r, d', b', t) /\
    (accepted r = false -> followers b' = followers b /\ t = []) /\
    (accepted r = true ->
       JsMap.keys (followers b') = JsMap.keys (followers b) /\
       JsMap.get Nat.eqb fid (followers b')
         = Some (followerAfterUpsert f (highestLocalIndex b')) /\
       deliveredDocs fid t =
         match kind f with sync => [d'] | async => [] end /\
       scheduledRuns fid t =
         match kind f with
         | sync => 0%nat
         | async => if stateIs f sleeping then 1%nat else 0%nat
         end).
Proof.
  destruct (RegistryInv_reachable _ Hreach) as (_ & Hf).
  destruct (upsert_cases b d) as (r & d' & b' & t & Hu & Hcase).
  exists r, d', b', t. split; [assumption|].
  destruct Hcase as [(Hr & _ & -> & -> & _)|(Hr & _ & Hh & _)].
  - split; [now intros _|congruence].
  - split; [congruence|]. intros _.
    destruct (upsert_trace _ _ _ _ _ _ Hu Hr)
      as (ev & delivered & Ht & Hfs & _).
    destruct (updateFollowers_spec (followers b) d'
                (highestLocalIndex b + 1) Hf)
      as (fs' & t' & Hfs' & Hkeys & _ & Hall).
    rewrite Hfs in Hfs'. injection Hfs' as <- <-.
    specialize (Hall fid). rewrite Hget in Hall.
    destruct Hall as (Hg & Hd & Hs).
    destruct (deliveredDocs_callbacks fid ev (onWriteCbs b)) as [Hd0 Hs0].
    rewrite Ht, deliveredDocs_app, scheduledRuns_app, Hd0, Hs0, Hh.
    repeat split; assumption.
Qed.

Lemma bowlWithFollowers_reachable : Reachable bowlWithFollowers.
Proof.
  eapply (Reach_addFollower _ 2%nat asyncFollower).
  - eapply (Reach_addFollower _ 1%nat syncFollower).
    + exact bowlWithCallback_reachable.
    + vm_compute. reflexivity.
  - vm_compute. reflexivity.
Defined.

Lemma upsert_steps_followers_witness :
  exists r d' b' t,
    upsert bowlWithFollowers docOfB = Ok (r, d', b', t) /\
    (accepted r = false -> followers b' = followers bowlWithFollowers /\ t = []) /\
    (accepted r = true ->
       JsMap.keys (followers b') = JsMap.keys (followers bowlWithFollowers) /\
       JsMap.get Nat.eqb 1%nat (followers b')
         = Some (followerAfterUpsert
                   (mkFollower 7%nat 0 sync (Some sleeping))
                   (highestLocalIndex b')) /\
       deliveredDocs 1%nat t = [d'] /\
       scheduledRuns 1%nat t = 0%nat).
Proof.
  apply (upsert_steps_followers bowlWithFollowers docOfB 1%nat
           (mkFollower 7%nat 0 sync (Some sleeping))).
  - exact bowlWithFollowers_reachable.
  - vm_compute. reflexivity.
Defined.

Lemma get_filter_out (fid : FollowerId)
    (m : JsMap.t (K := FollowerId) (V := Follower)) :
  JsMap.get Nat.eqb fid
    (List.filter (fun kv => negb (Nat.eqb fid (fst kv))) m) = None.
Proof.
  induction m as [|[k f] m IH]; simpl; [reflexivity|].
  destruct (Nat.eqb fid k) eqn:E; simpl; [exact IH|].
  now rewrite E.
Qed.

(** X7.  Registering an asynchronous follower never throws: the follower
    is registered in the state [running] and its first run is scheduled.
    When the unsubscribe thunk is called before that run, the follower
    leaves the set in the state [sleeping], not [quitting], and the run
    that is still scheduled throws instead of stopping quietly. *)
Theorem unsubscribed_follower_run_throws (b : Bowl) (fid : FollowerId)
    (f : Follower) (Hk : kind f = async) :
  exists b1 f1,
    addFollower b fid f = Ok (b1, [ESetImmediate fid]) /\
    JsMap.get Nat.eqb fid (followers b1) = Some f1 /\
    state f1 = Some running /\
    nextIndex f1 = nextIndex f /\
    let (b2, f2) := unsubscribeFollower b1 fid f1 in
    JsMap.get Nat.eqb fid (followers b2) = None /\
    state f2 = Some sleeping /\
    forall bowl,
      continueAsyncFollower fid f2 bowl =
        Throw "to continue, follower should have been already running".
Proof.
  eexists _, _. split; [|split; [|split; [|split]]].
  - unfold addFollower. simpl. rewrite Hk.
    unfold wakeAsyncFollower, stateIs. simpl. reflexivity.
  - simpl. apply (JsMapFacts.get_set_same Nat.eqb Neqb_eq).
  - reflexivity.
  - reflexivity.
  - simpl. split; [apply get_filter_out|]. split; [reflexivity|].
    intros bowl. reflexivity.
Qed.

Lemma unsubscribed_follower_run_throws_witness :
  exists b1 f1,
    addFollower bowlWithCallback 2%nat asyncFollower
      = Ok (b1, [ESetImmediate 2%nat]) /\
    JsMap.get Nat.eqb 2%nat (followers b1) = Some f1 /\
    state f1 = Some running /\
    nextIndex f1 = nextIndex asyncFollower /\
    let (b2, f2) := unsubscribeFollower b1 2%nat f1 in
    JsMap.get Nat.eqb 2%nat (followers b2) = None /\
    state f2 = Some sleeping /\
    forall bowl,
      continueAsyncFollower 2%nat f2 bowl =
        Throw "to continue, follower should have been already running".
Proof.
  apply (unsubscribed_follower_run_throws bowlWithCallback 2%nat
           asyncFollower).
  reflexivity.
Defined.

Lemma updateFollowers_entries
    (fs : JsMap.t (K := FollowerId) (V := Follower)) (d : Doc)
    (highest : LocalIndex) :
  forall fs' t,
    updateFollowers fs d highest = Ok (fs', t) ->
    fs' = map (fun kv => (fst kv, followerAfterUpsert (snd kv) highest)) fs.
Proof.
  induction fs as [|[k f] fs IH]; intros fs' t; simpl.
  - now intros [= <- _].
  - destruct (updateFollowers fs d highest) as [[fs1 t1]|] eqn:Hrest.
    + specialize (IH fs1 t1 eq_refl). subst fs1.
      unfold followerAfterUpsert. destruct (kind f); simpl.
      * now intros [= <- _].
      * destruct (stateIs f sleeping) eqn:E.
        -- rewrite (wakeAsyncFollower_sleeping _ _ E). simpl.
           now intros [= <- _].
        -- simpl. now intros [= <- _].
    + destruct (kind f); simpl; [discriminate|].
      destruct (stateIs f sleeping) eqn:E; simpl; [|discriminate].
      rewrite (wakeAsyncFollower_sleeping _ _ E). simpl. discriminate.
Qed.

(** ** Limits *)

Lemma docsSinceLoop_None_app (m : JsMap.t (K := LocalIndex) (V := Doc))
    (n : nat) :
  forall (ii : LocalIndex) (docs : list Doc),
    docsSinceLoop m None n ii docs = docs ++ docsSinceLoop m None n ii [].
Proof.
  induction n as [|n IH]; intros ii docs; simpl.
  - now rewrite app_nil_r.
  - destruct (JsMap.get Z.eqb ii m) as [d|].
    + rewrite (IH _ (docs ++ [d])), (IH _ ([] ++ [d])).
      now rewrite <- app_assoc.
    + apply IH.
Qed.

Lemma firstn_exact {A : Type} (l1 l2 : list A) :
  firstn (List.length l1) (l1 ++ l2) = l1.
Proof.
  rewrite firstn_app, Nat.sub_diag, firstn_all. simpl. apply app_nil_r.
Qed.

Lemma docsSinceLoop_limit (m : JsMap.t (K := LocalIndex) (V := Doc))
    (l : Z) (n : nat) :
  forall (ii : LocalIndex) (docs : list Doc),
    Z.of_nat (List.length docs) < l ->
    docsSinceLoop m (Some l) n ii docs =
      firstn (Z.to_nat l) (docsSinceLoop m None n ii docs).
Proof.
  induction n as [|n IH]; intros ii docs Hlen; simpl.
  - symmetry. apply firstn_all2. lia.
  - set (docs' := match JsMap.get Z.eqb ii m with
                  | Some d => docs ++ [d]
                  | None => docs
                  end).
    assert (Hlen' : Z.of_nat (List.length docs') <= l).
    { subst docs'. destruct (JsMap.get Z.eqb ii m); [|lia].
      rewrite length_app. simpl. lia. }
    destruct (Z.eqb_spec (Z.of_nat (List.length docs')) l) as [E|E].
    + rewrite docsSinceLoop_None_app.
      replace (Z.to_nat l) with (List.length docs') by lia.
      symmetry. apply firstn_exact.
    + apply IH. lia.
Qed.

Lemma docsSinceLoop_no_stop (m : JsMap.t (K := LocalIndex) (V := Doc))
    (l : Z) (n : nat) :
  forall (ii : LocalIndex) (docs : list Doc),
    l < Z.of_nat (List.length docs) \/ l < 0 ->
    docsSinceLoop m (Some l) n ii docs = docsSinceLoop m None n ii docs.
Proof.
  induction n as [|n IH]; intros ii docs Hlen; simpl; [reflexivity|].
  set (docs' := match JsMap.get Z.eqb ii m with
                | Some d => docs ++ [d]
                | None => docs
                end).
  assert (Hlen' : l < Z.of_nat (List.length docs') \/ l < 0).
  { subst docs'. destruct (JsMap.get Z.eqb ii m); [|assumption].
    rewrite length_app. simpl. lia. }
  destruct (Z.eqb_spec (Z.of_nat (List.length docs')) l) as [E|E]; [lia|].
  now apply IH.
Qed.

(** X9.  The limit of [getDocsSinceLocalIndex]: with a limit of at least
    one the result is the first [limit] documents of the result without
    limit.  A limit of zero is not a limit of zero documents: the result
    is empty when no document is stored under [startAt], and otherwise
    all documents from [startAt] on are returned; a negative limit is no
    limit. *)
Theorem getDocsSinceLocalIndex_limit (b : Bowl) (startAt : LocalIndex)
    (l : Z) :
  getDocsSinceLocalIndex b startAt (Some l) =
    if Z.leb 1 l
    then firstn (Z.to_nat l) (getDocsSinceLocalIndex b startAt None)
    else if Z.eqb l 0
    then match JsMap.get Z.eqb startAt (docWithLocalIndex b) with
         | Some _ => getDocsSinceLocalIndex b startAt None
         | None => []
         end
    else getDocsSinceLocalIndex b startAt None.
Proof.
  unfold getDocsSinceLocalIndex.
  destruct (Z.leb_spec 1 l) as [H1|H1].
  - apply docsSinceLoop_limit. simpl. lia.
  - destruct (Z.eqb_spec l 0) as [->|H0].
    + destruct (Z.to_nat (highestLocalIndex b + 1 - startAt)) as [|n];
        simpl.
      * now destruct (JsMap.get Z.eqb startAt (docWithLocalIndex b)).
      * destruct (JsMap.get Z.eqb startAt (docWithLocalIndex b)); simpl.
        -- apply docsSinceLoop_no_stop. simpl. lia.
        -- reflexivity.
    + apply docsSinceLoop_no_stop. lia.
Qed.

Lemma queryLoop_app (q : Query) (docs : list Doc) :
  limit q = None ->
  forall acc, queryLoop q docs acc = acc ++ queryLoop q docs [].
Proof.
  intros Hl. induction docs as [|d docs IH]; intros acc; simpl.
  - now rewrite app_nil_r.
  - rewrite Hl.
    destruct (skippedByStartAt q d); [apply IH|].
    destruct (match filter q with
              | Some f => negb (docMatchesFilter d f)
              | None => false
              end); [apply IH|].
    rewrite (IH (acc ++ [d])), (IH [d]). now rewrite <- app_assoc.
Qed.

Lemma queryLoop_limit (q : Query) (l : Z) (docs : list Doc) :
  forall acc,
    Z.of_nat (List.length acc) < Z.max l 1 ->
    queryLoop (withLimit q (Some l)) docs acc =
      firstn (Z.to_nat (Z.max l 1)) (queryLoop (withLimit q None) docs acc).
Proof.
  induction docs as [|d docs IH]; intros acc Hlen; simpl.
  - symmetry. apply firstn_all2. lia.
  - change (skippedByStartAt (withLimit q (Some l)) d)
      with (skippedByStartAt q d).
    change (skippedByStartAt (withLimit q None) d)
      with (skippedByStartAt q d).
    destruct (skippedByStartAt q d); [now apply IH|].
    destruct (match filter q with
              | Some f => negb (docMatchesFilter d f)
              | None => false
              end); [now apply IH|].
    destruct (Z.geb_spec (Z.of_nat (List.length (acc ++ [d]))) l)
      as [Hge|Hlt].
    + rewrite queryLoop_app by reflexivity.
      replace (Z.to_nat (Z.max l 1)) with (List.length (acc ++ [d])).
      * symmetry. apply firstn_exact.
      * rewrite length_app in *. simpl in *. lia.
    + apply IH. rewrite length_app in *. simpl in *. lia.
Qed.

(** X10.  The limit of [queryDocs]: the result is the first [limit]
    documents of the same query without limit, and the first document of
    it when the limit is zero or negative, as the limit is tested after a
    document has been added. *)
Theorem queryDocs_limit (b : Bowl) (q : Query) (l : Z) :
  queryDocs b (Some (withLimit q (Some l))) =
    firstn (Z.to_nat (Z.max l 1)) (queryDocs b (Some (withLimit q None))).
Proof.
  unfold queryDocs. cbv zeta.
  change (spread defaultQuery (withLimit q (Some l)))
    with (withLimit (spread defaultQuery q) (Some l)).
  change (spread defaultQuery (withLimit q None))
    with (withLimit (spread defaultQuery q) None).
  apply queryLoop_limit. simpl. lia.
Qed.

(** ** What the queries return *)

Lemma queryLoop_In (q : Query) (d : Doc) (docs : list Doc) :
  forall acc,
    In d (queryLoop q docs acc) ->
    In d acc \/
    (In d docs /\
     skippedByStartAt q d = false /\
     match filter q with
     | Some f => docMatchesFilter d f = true
     | None => True
     end).
Proof.
  induction docs as [|x docs IH]; intros acc; simpl; [now left|].
  destruct (skippedByStartAt q x) eqn:Hskip.
  { intros H. destruct (IH _ H) as [H1|(H1 & H2)]; [now left|].
    right. split; [now right|assumption]. }
  destruct (match filter q with
            | Some f => negb (docMatchesFilter x f)
            | None => false
            end) eqn:Hf.
  { intros H. destruct (IH _ H) as [H1|(H1 & H2)]; [now left|].
    right. split; [now right|assumption]. }
  assert (Hx : In d (acc ++ [x]) ->
               In d acc \/
               (In d (x :: docs) /\ skippedByStartAt q d = false /\
                match filter q with
                | Some f => docMatchesFilter d f = true
                | None => True
                end)).
  { intros H. apply in_app_or in H. destruct H as [H|[<-|[]]]; [now left|].
    right. split; [now left|]. split; [assumption|].
    destruct (filter q); [|exact I]. now apply negb_false_iff in Hf. }
  destruct (match limit q with
            | Some l => Z.geb (Z.of_nat (List.length (acc ++ [x]))) l
            | None => false
            end); [exact Hx|].
  intros H. destruct (IH _ H) as [H1|(H1 & H2)]; [auto|].
  right. split; [now right|assumption].
Qed.

Lemma latest_docs_are_latest (b : Bowl) (d : Doc) :
  PathInv b -> In d (getLatestDocs b false) ->
  getLatestDocAtPath b (path d) = Some d /\ In d (storedDocs b).
Proof.
  intros (Hnd & Hent) Hin. unfold getLatestDocs in Hin.
  apply in_flat_map in Hin. destruct Hin as (arr & Harr & Hd).
  unfold JsMap.values in Harr. apply in_map_iff in Harr.
  destruct Harr as ([p arr'] & Heq & Hin). simpl in Heq. subst arr'.
  rewrite Forall_forall in Hent. destruct (Hent _ Hin) as (Hne & Hall).
  simpl in Hne, Hall. destruct arr as [|x rest]; [contradiction|].
  simpl in Hd. destruct Hd as [<-|[]].
  inversion Hall as [|? ? [Hp Hs] _]; subst.
  split; [|assumption].
  unfold getLatestDocAtPath.
  now rewrite (JsMapFacts.In_get String.eqb Seqb_eq _ _ _ Hnd Hin).
Qed.

Lemma map_insertBy_key {A K : Type} (cmp : K -> K -> Cmp) (key : A -> K)
    (x : A) (l : list A) :
  map key (insertBy (keyComparer cmp key) x l)
  = insertBy cmp (key x) (map key l).
Proof.
  induction l as [|y l IH]; simpl; [reflexivity|].
  unfold keyComparer at 1. destruct (cmp (key x) (key y)); simpl;
    try reflexivity.
  now rewrite IH.
Qed.

Lemma map_sortBy_key {A K : Type} (cmp : K -> K -> Cmp) (key : A -> K)
    (l : list A) :
  map key (sortBy (keyComparer cmp key) l) = sortBy cmp (map key l).
Proof.
  induction l as [|x l IH]; simpl; [reflexivity|].
  now rewrite map_insertBy_key, IH.
Qed.

(** X12.  In a reachable bowl [getLatestDocs()] returns exactly one
    document per path of the path index, in strictly ascending order of
    the paths: its paths are what [queryPaths()] returns, and each of its
    documents is the one [getLatestDocAtPath] returns for its path. *)
Theorem getLatestDocs_one_per_path (b : Bowl) (Hreach : Reachable b) :
  map path (getLatestDocs b true) = queryPaths b None /\
  StronglySorted strLt (map path (getLatestDocs b true)) /\
  Forall (fun d => getLatestDocAtPath b (path d) = Some d)
         (getLatestDocs b true).
Proof.
  apply StoreInv_reachable in Hreach. destruct Hreach as (_ & _ & Hpath).
  assert (Hpaths : map path (getLatestDocs b true) =
                   sortBy String.compare
                          (JsMap.keys (docsByPathNewestFirst b))).
  { rewrite <- (getLatestDocs_paths b Hpath).
    unfold getLatestDocs. apply map_sortBy_key. }
  split; [exact Hpaths|]. split.
  - rewrite Hpaths. apply sortBy_compare_sorted, Hpath.
  - apply Forall_forall. intros d Hd.
    apply (latest_docs_are_latest b d Hpath).
    unfold getLatestDocs in Hd |- *. now apply sortBy_In in Hd.
Qed.

Lemma getLatestDocs_one_per_path_witness :
  map path (getLatestDocs bowlWithAB true) = queryPaths bowlWithAB None /\
  StronglySorted strLt (map path (getLatestDocs bowlWithAB true)) /\
  Forall (fun d => getLatestDocAtPath bowlWithAB (path d) = Some d)
         (getLatestDocs bowlWithAB true).
Proof.
  apply (getLatestDocs_one_per_path bowlWithAB).
  exact bowlWithAB_reachable.
Defined.

(** ** The indexes agree *)

Lemma concat_values_set (k : Path) (v extra : list Doc)
    (m : JsMap.t (K := Path) (V := list Doc)) :
  Permutation v
    (match JsMap.get String.eqb k m with Some l => l | None => [] end
     ++ extra) ->
  Permutation (List.concat (JsMap.values (JsMap.set String.eqb k v m)))
              (List.concat (JsMap.values m) ++ extra).
Proof.
  unfold JsMap.values.
  induction m as [|[k' l'] m IH]; simpl; intros Hv.
  - now rewrite app_nil_r.
  - destruct (String.eqb k k') eqn:E; simpl.
    + rewrite Hv, <- !app_assoc. apply Permutation_app_head.
      apply Permutation_app_comm.
    + rewrite (IH Hv). now rewrite app_assoc.
Qed.

Lemma path_index_complete (b : Bowl) :
  Reachable b ->
  Permutation (storedDocs b)
              (List.concat (JsMap.values (docsByPathNewestFirst b))).
Proof.
  assert (Hstep : forall b d r d' b' t,
            Reachable b ->
            Permutation (storedDocs b)
              (List.concat (JsMap.values (docsByPathNewestFirst b))) ->
            upsert b d = Ok (r, d', b', t) ->
            Permutation (storedDocs b')
              (List.concat (JsMap.values (docsByPathNewestFirst b')))).
  { intros b0 d r d' b' t Hreach IH Hu.
    apply StoreInv_reachable in Hreach. destruct Hreach as (Hidx & _).
    rewrite (upsert_storedDocs _ _ _ _ _ _ Hidx Hu).
    apply upsert_inv in Hu.
    destruct Hu as [(-> & _ & -> & _)|(-> & _ & _ & _ & _ & Hp & _)];
      [exact IH|].
    rewrite Hp, concat_values_set with (extra := [d']).
    - now apply Permutation_app_tail.
    - symmetry. apply sortBy_perm. }
  induction 1 as [ | b c _ IH | b c _ IH | b fid f b' t _ IH Hadd
                 | b fid _ IH | b fid f f' t _ IH _ _
                 | b d r d' b' t Hreach IH Hu
                 | fakeHash b kp dw now uuid r d' b' t Hreach IH Hw ];
    try exact IH.
  - constructor.
  - apply addFollower_store in Hadd. destruct Hadd as [fs ->]. exact IH.
  - eapply Hstep; eassumption.
  - unfold write in Hw. eapply Hstep; eassumption.
Qed.

(** X14.  The index by path and author holds the winners: in a reachable
    bowl, for every document of the bowl, the document filed under its key
    [path|author] is a document of the bowl and is that document or one
    with a strictly higher overwrite key. *)
Theorem filed_doc_is_the_maximum (b : Bowl) (e : Doc)
    (Hreach : Reachable b)
    (Hin : In e (getAllDocs b true)) :
  exists e2,
    JsMap.get String.eqb (combinePathAndAuthor e) (docWithPathAndAuthor b)
      = Some e2 /\
    In e2 (getAllDocs b true) /\
    combinePathAndAuthor e2 = combinePathAndAuthor e /\
    (e2 = e \/ overwriteKeyLt e e2).
Proof.
  pose proof (StoreInv_reachable b Hreach) as (_ & (_ & Hent & Hmax) & _).
  unfold getAllDocs in *. apply sortBy_In in Hin.
  rewrite Forall_forall in Hmax, Hent.
  destruct (Hmax _ Hin) as (e2 & Hget & Hle).
  exists e2. split; [assumption|].
  pose proof (JsMapFacts.get_In String.eqb Seqb_eq _ _ _ Hget) as Hin2.
  destruct (Hent _ Hin2) as (Hk & Hs). simpl in Hk, Hs.
  split; [now apply sortBy_In|]. split; [now symmetry|].
  destruct Hle as [->|Hlt]; [now left|right].
  now apply overwriteKeyLt_iff.
Qed.

Lemma filed_doc_is_the_maximum_witness :
  exists e2,
    JsMap.get String.eqb (combinePathAndAuthor storedDocOfA)
              (docWithPathAndAuthor bowlWithAB) = Some e2 /\
    In e2 (getAllDocs bowlWithAB true) /\
    combinePathAndAuthor e2 = combinePathAndAuthor storedDocOfA /\
    (e2 = storedDocOfA \/ overwriteKeyLt storedDocOfA e2).
Proof.
  apply (filed_doc_is_the_maximum bowlWithAB storedDocOfA).
  - exact bowlWithAB_reachable.
  - vm_compute. now left.
Defined.

(** ** Documents since a local index *)

Lemma filter_nextIndexes (n : LocalIndex) (len : nat) :
  forall a : LocalIndex,
    List.filter
      (fun o => Z.leb n (match o with Some i => i | None => 0 end))
      (nextIndexes a len)
    = nextIndexes (Z.max n (a + 1) - 1)
                  (Z.to_nat (a + Z.of_nat len + 1 - Z.max n (a + 1))).
Proof.
  induction len as [|len IH]; intros a.
  - simpl. now replace (Z.to_nat _) with 0%nat by lia.
  - simpl List.filter. rewrite IH.
    destruct (Z.leb_spec n (a + 1)) as [Hle|Hgt].
    + replace (Z.max n (a + 1 + 1)) with (a + 1 + 1) by lia.
      replace (Z.max n (a + 1)) with (a + 1) by lia.
      replace (Z.to_nat (a + Z.of_nat (S len) + 1 - (a + 1)))
        with (S len) by lia.
      replace (Z.to_nat (a + 1 + Z.of_nat len + 1 - (a + 1 + 1)))
        with len by lia.
      simpl. do 2 f_equal; lia.
    + replace (Z.max n (a + 1 + 1)) with n by lia.
      replace (Z.max n (a + 1)) with n by lia.
      f_equal. lia.
Qed.

Lemma map_filter_comm {A B : Type} (f : A -> B) (p : B -> bool)
    (l : list A) :
  map f (List.filter (fun x => p (f x)) l) = List.filter p (map f l).
Proof.
  induction l as [|x l IH]; simpl; [reflexivity|].
  destruct (p (f x)); simpl; now rewrite IH.
Qed.

(** The documents of the bowl are stamped 1, 2, ... in the order of
    [getAllDocs(false)]. *)
Lemma storedDocs_indexes (b : Bowl) :
  LocalIndexInv b ->
  map _localIndex (storedDocs b)
  = nextIndexes 0 (Z.to_nat (highestLocalIndex b)).
Proof.
  intros (Hh & Hk & Hv).
  rewrite (nextIndexes_from_0 _ 0%nat).
  unfold LocalIndex in *. unfold JsMap.keys in Hk.
  rewrite <- (map_map Z.of_nat Some), <- Hk.
  unfold storedDocs, JsMap.values. rewrite !map_map.
  apply map_ext_in. intros kv Hin. rewrite Forall_forall in Hv.
  now apply Hv.
Qed.

(** A document that is found under its own local index. *)
Lemma stored_doc_canonical (b : Bowl) (d : Doc) :
  LocalIndexInv b -> In d (storedDocs b) ->
  exists k, _localIndex d = Some k /\
            JsMap.get Z.eqb k (docWithLocalIndex b) = Some d.
Proof.
  intros (Hh & Hk & Hv) Hin. unfold storedDocs, JsMap.values in Hin.
  apply in_map_iff in Hin. destruct Hin as ([k d'] & Hd & Hin).
  simpl in Hd. subst d'. exists k. rewrite Forall_forall in Hv. split.
  - apply (Hv _ Hin).
  - apply (JsMapFacts.In_get Z.eqb Zeqb_eq); [|assumption].
    unfold LocalIndex in *. rewrite Hk.
    apply Finite.Injective_map_NoDup; [|apply seq_NoDup].
    intros x y. lia.
Qed.

Lemma docsSinceLoop_canonical (b : Bowl) (n : nat) :
  LocalIndexInv b ->
  forall (ii : LocalIndex) (docs : list Doc),
    Forall (fun d => In d (storedDocs b)) docs ->
    Forall (fun d => In d (storedDocs b))
           (docsSinceLoop (docWithLocalIndex b) None n ii docs).
Proof.
  intros Hinv. induction n as [|n IH]; intros ii docs Hdocs; simpl;
    [assumption|].
  apply IH.
  destruct (JsMap.get Z.eqb ii (docWithLocalIndex b)) as [d|] eqn:Hget;
    [|assumption].
  apply Forall_app. split; [assumption|]. constructor; [|constructor].
  apply (JsMapFacts.get_In Z.eqb Zeqb_eq) in Hget.
  unfold storedDocs, JsMap.values. apply in_map_iff. now exists (ii, d).
Qed.

Lemma same_indexes_same_docs (b : Bowl) (l1 : list Doc) :
  LocalIndexInv b ->
  forall l2 : list Doc,
    Forall (fun d => In d (storedDocs b)) l1 ->
    Forall (fun d => In d (storedDocs b)) l2 ->
    map _localIndex l1 = map _localIndex l2 ->
    l1 = l2.
Proof.
  intros Hinv. induction l1 as [|x l1 IH]; intros [|y l2] H1 H2 Heq;
    try discriminate; [reflexivity|].
  inversion H1 as [|? ? Hx H1']; subst. inversion H2 as [|? ? Hy H2']; subst.
  simpl in Heq. injection Heq as Hxy Heq.
  destruct (stored_doc_canonical _ _ Hinv Hx) as (k & Hk & Hgx).
  destruct (stored_doc_canonical _ _ Hinv Hy) as (k' & Hk' & Hgy).
  assert (k = k') by congruence. subst k'.
  f_equal; [congruence|now apply IH].
Qed.

Lemma getDocsSince_is_filter (b : Bowl) (startAt : LocalIndex) :
  LocalIndexInv b ->
  getDocsSinceLocalIndex b startAt None =
    List.filter (fun d => Z.leb startAt (localIndexOr0 d)) (storedDocs b).
Proof.
  intros Hidx. pose proof Hidx as (Hh & _).
  apply (same_indexes_same_docs b _ Hidx).
  - unfold getDocsSinceLocalIndex. now apply docsSinceLoop_canonical.
  - apply Forall_forall. intros d Hd. now apply filter_In in Hd.
  - unfold localIndexOr0.
    rewrite (map_filter_comm _localIndex
               (fun o => Z.leb startAt
                           (match o with Some i => i | None => 0 end))).
    rewrite (storedDocs_indexes b Hidx), filter_nextIndexes.
    unfold getDocsSinceLocalIndex.
    destruct (Z_le_gt_dec startAt (highestLocalIndex b + 1)) as [Hle|Hgt].
    + rewrite (docsSinceLoop_indexes b _ Hidx) by lia. simpl.
      match goal with
      | |- nextIndexes ?a ?x = nextIndexes ?c ?y =>
          replace c with a by lia; replace y with x by lia; reflexivity
      end.
    + replace (Z.to_nat (highestLocalIndex b + 1 - startAt))
        with 0%nat by lia.
      simpl. now replace (Z.to_nat _) with 0%nat by lia.
Qed.

(** X15.  In a reachable bowl [getDocsSinceLocalIndex(startAt)] returns
    the documents of the bowl whose local index is at least [startAt], in
    ascending order of the local index, as [getAllDocs(false)] has them;
    from [startAt <= 1] on these are all documents. *)
Theorem getDocsSinceLocalIndex_filters_all_docs (b : Bowl)
    (startAt : LocalIndex) (Hreach : Reachable b) :
  getDocsSinceLocalIndex b startAt None =
    List.filter (fun d => Z.leb startAt (localIndexOr0 d))
                (getAllDocs b false) /\
  (startAt <= 1 ->
   getDocsSinceLocalIndex b startAt None = getAllDocs b false).
Proof.
  apply StoreInv_reachable in Hreach. destruct Hreach as (Hidx & _).
  pose proof (getDocsSince_is_filter b startAt Hidx) as Hmain.
  split; [exact Hmain|].
  intros Hle. rewrite Hmain. apply filter_all.
  apply Forall_forall. intros d Hd.
  destruct (LocalIndexInv_bound _ _ Hidx Hd) as (k & Hk & Hb).
  unfold localIndexOr0. rewrite Hk. apply Z.leb_le. lia.
Qed.

Lemma getDocsSinceLocalIndex_filters_all_docs_witness :
  getDocsSinceLocalIndex bowlWithAB 2 None =
    List.filter (fun d => Z.leb 2 (localIndexOr0 d))
                (getAllDocs bowlWithAB false) /\
  (2 <= 1 ->
   getDocsSinceLocalIndex bowlWithAB 2 None = getAllDocs bowlWithAB false).
Proof.
  apply (getDocsSinceLocalIndex_filters_all_docs bowlWithAB 2).
  exact bowlWithAB_reachable.
Defined.

(** ** Authors *)

Lemma sortedUnique_ext (l1 l2 : list string) :
  (forall x, In x l1 <-> In x l2) -> sortedUnique l1 = sortedUnique l2.
Proof.
  intros H. apply strictly_sorted_unique; try apply sortedUnique_sorted.
  intros x. now rewrite !sortedUnique_In.
Qed.

(** X16.  [queryAuthors] returns the authors in strictly ascending order,
    each once.  With a query these are the authors of the documents
    [queryDocs] returns; without a query, or with the empty one, they are
    the authors of all documents of the bowl, not only of the latest ones,
    in a reachable bowl whose paths are free of the separator ['|']. *)
Theorem queryAuthors_sortedUnique (b : Bowl) (query : option Query)
    (Hreach : Reachable b)
    (Hsep : Forall (fun e => separatorFree (path e) = true) (storedDocs b)) :
  StronglySorted strLt (queryAuthors b query) /\
  queryAuthors b query =
    match query with
    | Some q =>
        if isEmptyQuery q
        then sortedUnique (map author (getAllDocs b false))
        else sortedUnique (map author (queryDocs b (Some q)))
    | None => sortedUnique (map author (getAllDocs b false))
    end.
Proof.
  pose proof (StoreInv_reachable b Hreach) as (_ & (_ & Hent & Hmax) & _).
  assert (Hall : sortBy String.compare
                   (uniq (map author (JsMap.values (docWithPathAndAuthor b))))
                 = sortedUnique (map author (getAllDocs b false))).
  { rewrite sort_uniq_is_sortedUnique. apply sortedUnique_ext.
    intros x. rewrite !in_map_iff.
    rewrite Forall_forall in Hent, Hmax, Hsep. split.
    - intros (e & Ha & Hin). exists e. split; [assumption|].
      unfold JsMap.values in Hin. apply in_map_iff in Hin.
      destruct Hin as (kv & <- & Hin). now apply (Hent _ Hin).
    - intros (e & Ha & Hin). unfold getAllDocs in Hin.
      destruct (Hmax _ Hin) as (e2 & Hget & _).
      apply (JsMapFacts.get_In String.eqb Seqb_eq) in Hget.
      destruct (Hent _ Hget) as (Hk & Hin2). simpl in Hk, Hin2.
      destruct (combinePathAndAuthor_inj e e2 (Hsep _ Hin) (Hsep _ Hin2) Hk)
        as [_ Hauth].
      exists e2. split; [congruence|].
      unfold JsMap.values. apply in_map_iff. now exists (combinePathAndAuthor e, e2). }
  assert (Heq : queryAuthors b query =
    match query with
    | Some q =>
        if isEmptyQuery q
        then sortedUnique (map author (getAllDocs b false))
        else sortedUnique (map author (queryDocs b (Some q)))
    | None => sortedUnique (map author (getAllDocs b false))
    end).
  { unfold queryAuthors. cbv zeta. destruct query as [q|]; [|exact Hall].
    destruct (isEmptyQuery q); [exact Hall|].
    apply sort_uniq_is_sortedUnique. }
  split; [|exact Heq].
  rewrite Heq. destruct query as [q|]; [destruct (isEmptyQuery q)|];
    apply sortedUnique_sorted.
Qed.

Lemma queryAuthors_sortedUnique_witness :
  StronglySorted strLt (queryAuthors bowlWithAB None) /\
  queryAuthors bowlWithAB None
  = sortedUnique (map author (getAllDocs bowlWithAB false)).
Proof.
  apply (queryAuthors_sortedUnique bowlWithAB None).
  - exact bowlWithAB_reachable.
  - vm_compute. repeat constructor.
Defined.

(** ** A write wins *)

Lemma accepted_latest_iff (b : Bowl) (d : Doc) (r : UpsertResult)
    (d' : Doc) (b' : Bowl) (t : list Effect) :
  upsert b d = Ok (r, d', b', t) -> accepted r = true ->
  (r = AcceptedAndLatest <-> getLatestDocAtPath b' (path d) = Some d').
Proof.
  intros Hu Hacc. apply upsert_inv in Hu.
  destruct Hu as [(Hr & _)|(_ & Hd & _ & _ & _ & Hp & _ & Hres)];
    [congruence|].
  unfold getLatestDocAtPath. rewrite Hp.
  rewrite (JsMapFacts.get_set_same String.eqb Seqb_eq).
  destruct (sortBy docComparePathThenNewestFirst _) as [|d0 rest] eqn:Hs.
  - exfalso. revert Hs. apply sortBy_nonempty.
    now destruct (JsMap.get _ _ _) as [[|]|].
  - simpl. rewrite Hres. destruct (Doc_eqb d0 d') eqn:E.
    + apply Doc_eqb_eq in E. subst d0. tauto.
    + split; [discriminate|]. intros [= ->].
      assert (Doc_eqb d' d' = true) by now apply Doc_eqb_eq. congruence.
Qed.

Lemma accepted_latest_by_timestamp (b : Bowl) (d : Doc) (r : UpsertResult)
    (d' : Doc) (b' : Bowl) (t : list Effect) :
  Reachable b -> signaturesAgree (d :: storedDocs b) ->
  upsert b d = Ok (r, d', b', t) -> accepted r = true ->
  match getLatestDocAtPath b (path d) with
  | Some old => timestamp old < timestamp d
  | None => True
  end ->
  r = AcceptedAndLatest.
Proof.
  intros Hreach Hsig Hu Hacc Hnew.
  pose proof (StoreInv_reachable _ Hreach) as Hinv.
  assert (Hsig0 : signaturesAgree (storedDocs b)).
  { eapply signaturesAgree_incl; [|exact Hsig]. apply incl_tl, incl_refl. }
  pose proof (PathSorted_reachable _ Hreach Hsig0) as Hsorted.
  assert (Hcons : forall e, In e (storedDocs b) ->
                            signature e = signature d ->
                            timestamp e = timestamp d).
  { intros e He. apply Hsig; [now right|now left]. }
  pose proof (pushed_array_head b d Hinv Hsorted Hcons) as Hhead.
  cbv zeta in Hhead. apply upsert_inv in Hu.
  destruct Hu as [(Hr & _)|(_ & Hd & _ & _ & _ & _ & _ & Hres)];
    [congruence|].
  rewrite <- Hd in Hhead.
  assert (E : Doc_eqb d' d' = true) by now apply Doc_eqb_eq.
  destruct (getLatestDocAtPath b (path d)) as [old|].
  - replace (Z.ltb (timestamp old) (timestamp d)) with true in Hhead
      by (symmetry; now apply Z.ltb_lt).
    destruct Hhead as [Harr _]. rewrite Harr, E in Hres. exact Hres.
  - rewrite Hhead in Hres. simpl in Hres. now rewrite E in Hres.
Qed.

(** ** Sorted results *)

Section SortExt.
Context {A : Type}.
Variables cmp1 cmp2 : A -> A -> Cmp.

Lemma insertBy_ext_in (x : A) (l : list A) :
  (forall y, In y l -> cmp1 x y = cmp2 x y) ->
  insertBy cmp1 x l = insertBy cmp2 x l.
Proof.
  induction l as [|y l IH]; intros H; simpl; [reflexivity|].
  rewrite (H y (or_introl eq_refl)).
  destruct (cmp2 x y); try reflexivity.
  f_equal. apply IH. intros z Hz. apply H. now right.
Qed.

Lemma sortBy_ext_in (l : list A) :
  (forall x y, In x l -> In y l -> cmp1 x y = cmp2 x y) ->
  sortBy cmp1 l = sortBy cmp2 l.
Proof.
  induction l as [|x l IH]; intros H; simpl; [reflexivity|].
  rewrite IH by (intros a c Ha Hc; apply H; now right).
  apply insertBy_ext_in. intros y Hy. apply sortBy_In in Hy.
  apply H; [now left|now right].
Qed.

End SortExt.

Lemma NoDup_map_inj_in {A B : Type} (f : A -> B) (l : list A) (x y : A) :
  NoDup (map f l) -> In x l -> In y l -> f x = f y -> x = y.
Proof.
  induction l as [|a l IH]; simpl; [tauto|].
  intros Hnd Hx Hy Hf. inversion Hnd as [|? ? Ha Hnd']; subst.
  destruct Hx as [->|Hx], Hy as [->|Hy]; auto.
  - exfalso. apply Ha. rewrite Hf. now apply in_map.
  - exfalso. apply Ha. rewrite <- Hf. now apply in_map.
Qed.

(** The comparator without its test of the signatures. *)
Lemma docCompare_other_signature (x y : Doc) :
  signature x <> signature y ->
  docComparePathThenNewestFirst x y =
    arrayCompare String.compare Z.compare
      (path x, - timestamp x) (path y, - timestamp y).
Proof.
  intros H. unfold docComparePathThenNewestFirst.
  apply String.eqb_neq in H. now rewrite H.
Qed.

Lemma pathOrder_not_Gt (x y : Doc) :
  arrayCompare String.compare Z.compare
    (path x, - timestamp x) (path y, - timestamp y) <> Gt <->
  pathThenNewest x y.
Proof.
  unfold arrayCompare, pathThenNewest, strLt. simpl.
  destruct (String.compare (path x) (path y)) eqn:E.
  - apply String_as_OT.cmp_eq in E. rewrite Z.compare_gt_iff. split.
    + intros H. right. split; [assumption|lia].
    + intros [H|[_ H]]; [discriminate|lia].
  - split; [now left|discriminate].
  - split; [congruence|].
    intros [H|[H _]]; [discriminate|].
    rewrite H, String_compare_refl in E. discriminate.
Qed.

Lemma pathThenNewest_total (x y : Doc) :
  ~ pathThenNewest x y -> pathThenNewest y x.
Proof.
  unfold pathThenNewest, strLt. intros H.
  destruct (String.compare (path x) (path y)) eqn:E.
  - apply String_as_OT.cmp_eq in E.
    destruct (Z_le_gt_dec (timestamp y) (timestamp x)).
    + exfalso. apply H. now right.
    + right. split; [now symmetry|lia].
  - exfalso. apply H. now left.
  - left. now apply String_compare_Gt_Lt.
Qed.

Lemma pathThenNewest_trans (x y z : Doc) :
  pathThenNewest x y -> pathThenNewest y z -> pathThenNewest x z.
Proof.
  unfold pathThenNewest.
  intros [H1|[H1 T1]] [H2|[H2 T2]].
  - left. eapply strLt_trans; eassumption.
  - left. now rewrite <- H2.
  - left. now rewrite H1.
  - right. split; [congruence|lia].
Qed.

Lemma insertBy_pathOrder_sorted (x : Doc) (l : list Doc) :
  StronglySorted pathThenNewest l ->
  StronglySorted pathThenNewest
    (insertBy (fun a c =>
                 arrayCompare String.compare Z.compare
                   (path a, - timestamp a) (path c, - timestamp c)) x l).
Proof.
  induction 1 as [|y l Hs IH Hy]; simpl.
  - repeat constructor.
  - destruct (arrayCompare String.compare Z.compare
                (path x, - timestamp x) (path y, - timestamp y)) eqn:E.
    + assert (Hxy : pathThenNewest x y)
        by (apply pathOrder_not_Gt; congruence).
      constructor; [now constructor|]. constructor; [assumption|].
      eapply Forall_impl; [|exact Hy].
      intros z. now apply pathThenNewest_trans.
    + assert (Hxy : pathThenNewest x y)
        by (apply pathOrder_not_Gt; congruence).
      constructor; [now constructor|]. constructor; [assumption|].
      eapply Forall_impl; [|exact Hy].
      intros z. now apply pathThenNewest_trans.
    + assert (Hyx : pathThenNewest y x).
      { apply pathThenNewest_total. intros H.
        apply pathOrder_not_Gt in H. congruence. }
      constructor; [assumption|].
      apply Forall_forall. intros z Hz.
      apply (Permutation_in _ (Permutation_sym (insertBy_perm _ x l))) in Hz.
      destruct Hz as [<-|Hz]; [assumption|].
      rewrite Forall_forall in Hy. now apply Hy.
Qed.

(** X18.  [getAllDocs()] is sorted as its comment says when the documents
    of the bowl bear different signatures: it returns the documents of
    [getAllDocs(false)], each once, by path ascending and within one path
    the newer document first. *)
Theorem getAllDocs_sorted (b : Bowl)
    (Hsig : NoDup (map signature (getAllDocs b false))) :
  Permutation (getAllDocs b false) (getAllDocs b true) /\
  StronglySorted pathThenNewest (getAllDocs b true).
Proof.
  unfold getAllDocs in *. split; [apply sortBy_perm|].
  rewrite (sortBy_ext_in docComparePathThenNewestFirst
             (fun a c =>
                arrayCompare String.compare Z.compare
                  (path a, - timestamp a) (path c, - timestamp c))).
  - induction (JsMap.values (docWithLocalIndex b)) as [|x l IH]; simpl.
    + constructor.
    + apply insertBy_pathOrder_sorted, IH. now inversion Hsig.
  - intros x y Hx Hy.
    destruct (string_dec (signature x) (signature y)) as [Heq|Hne].
    + rewrite (NoDup_map_inj_in signature _ x y Hsig Hx Hy Heq).
      unfold docComparePathThenNewestFirst, arrayCompare. simpl.
      now rewrite String.eqb_refl, String_compare_refl, Z.compare_refl.
    + now apply docCompare_other_signature.
Qed.

Lemma getAllDocs_sorted_witness :
  Permutation (getAllDocs bowlWithAB false) (getAllDocs bowlWithAB true) /\
  StronglySorted pathThenNewest (getAllDocs bowlWithAB true).
Proof.
  apply (getAllDocs_sorted bowlWithAB).
  vm_compute. repeat constructor; simpl; intuition discriminate.
Defined.

(** X19.  The two default views agree: in a reachable bowl whose
    documents bear different signatures, [queryDocs()] without a query
    returns what [getLatestDocs()] returns, the latest document of every
    path in ascending order of the paths. *)
Theorem queryDocs_default_is_getLatestDocs (b : Bowl)
    (Hreach : Reachable b)
    (Hsig : NoDup (map signature (getAllDocs b false))) :
  queryDocs b None = getLatestDocs b true /\
  queryDocs b (Some emptyQuery) = getLatestDocs b true.
Proof.
  pose proof (StoreInv_reachable _ Hreach) as (_ & _ & Hpath).
  assert (Heq : sortBy docComparePathThenNewestFirst (getLatestDocs b false)
                = getLatestDocs b true).
  { unfold getLatestDocs at 2. apply sortBy_ext_in. intros x y Hx Hy.
    pose proof (getLatestDocs_paths b Hpath) as Hpaths.
    pose proof Hpath as (Hnd & _). rewrite <- Hpaths in Hnd.
    unfold keyComparer.
    destruct (string_dec (path x) (path y)) as [Hp|Hp].
    - rewrite (NoDup_map_inj_in path _ x y Hnd Hx Hy Hp).
      unfold docComparePathThenNewestFirst.
      now rewrite String.eqb_refl, String_compare_refl.
    - assert (Hs : signature x <> signature y).
      { intros Hs. apply Hp. f_equal.
        apply (NoDup_map_inj_in signature (getAllDocs b false) x y Hsig);
          try assumption; unfold getAllDocs;
          now apply (latest_docs_are_latest b _ Hpath). }
      rewrite (docCompare_other_signature _ _ Hs).
      unfold arrayCompare. simpl.
      destruct (String.compare (path x) (path y)) eqn:E; try reflexivity.
      apply String_as_OT.cmp_eq in E. contradiction. }
  destruct (queryDocs_default b) as [H1 H2].
  now rewrite H1, H2, Heq.
Qed.

Lemma queryDocs_default_is_getLatestDocs_witness :
  queryDocs bowlWithAB None = getLatestDocs bowlWithAB true /\
  queryDocs bowlWithAB (Some emptyQuery) = getLatestDocs bowlWithAB true.
Proof.
  apply (queryDocs_default_is_getLatestDocs bowlWithAB).
  - exact bowlWithAB_reachable.
  - vm_compute. repeat constructor; simpl; intuition discriminate.
Defined.

(** ** A run of an asynchronous follower *)

Lemma deliveredDocs_batch (fid : FollowerId) (docs : list Doc) :
  deliveredDocs fid (map (EFollowerCb fid) docs ++ [ESetImmediate fid])
    = docs /\
  scheduledRuns fid (map (EFollowerCb fid) docs ++ [ESetImmediate fid])
    = 1%nat.
Proof.
  induction docs as [|d docs [IH1 IH2]]; simpl; rewrite Nat.eqb_refl.
  - now split.
  - now rewrite IH1, IH2.
Qed.

(** X20.  One run of a running asynchronous follower in a reachable bowl:
    when its [nextIndex] is beyond the highest local index it goes to
    sleep, calls nothing and schedules nothing; otherwise it calls its
    callback with the first 40 of the documents whose local index is at
    least its [nextIndex], in ascending order of the local index, and
    schedules exactly one further run. *)
Theorem async_run_delivers_a_batch (b : Bowl) (fid : FollowerId)
    (f : Follower)
    (Hreach : Reachable b)
    (Hrun : state f = Some running) :
  exists f' t,
    continueAsyncFollower fid f b = Ok (f', t) /\
    if Z.gtb (nextIndex f) (highestLocalIndex b)
    then f' = setState f sleeping /\ t = []
    else
      deliveredDocs fid t =
        firstn 40
          (List.filter (fun d => Z.leb (nextIndex f) (localIndexOr0 d))
                       (getAllDocs b false)) /\
      scheduledRuns fid t = 1%nat /\
      state f' = Some running.
Proof.
  apply StoreInv_reachable in Hreach. destruct Hreach as (Hidx & _).
  unfold continueAsyncFollower, stateIs. rewrite Hrun. simpl.
  destruct (Z.gtb (nextIndex f) (highestLocalIndex b)).
  - eexists _, _. split; [reflexivity|]. now split.
  - eexists _, _. split; [reflexivity|].
    destruct (deliveredDocs_batch fid
                (getDocsSinceLocalIndex b (nextIndex f) (Some 40)))
      as [Hd Hs].
    rewrite Hd, Hs. split; [|now split].
    unfold getDocsSinceLocalIndex at 1.
    rewrite docsSinceLoop_limit by (simpl; lia).
    change (firstn (Z.to_nat 40)
              (getDocsSinceLocalIndex b (nextIndex f) None)
            = firstn 40
                (List.filter
                   (fun d => Z.leb (nextIndex f) (localIndexOr0 d))
                   (getAllDocs b false))).
    now rewrite (getDocsSince_is_filter b _ Hidx).
Qed.

Lemma async_run_delivers_a_batch_witness :
  exists f' t,
    continueAsyncFollower 2%nat (mkFollower 8%nat 0 async (Some running))
                          bowlWithFollowers = Ok (f', t) /\
    if Z.gtb (nextIndex (mkFollower 8%nat 0 async (Some running)))
             (highestLocalIndex bowlWithFollowers)
    then f' = setState (mkFollower 8%nat 0 async (Some running)) sleeping
         /\ t = []
    else
      deliveredDocs 2%nat t =
        firstn 40
          (List.filter
             (fun d =>
                Z.leb (nextIndex (mkFollower 8%nat 0 async (Some running)))
                      (localIndexOr0 d))
             (getAllDocs bowlWithFollowers false)) /\
      scheduledRuns 2%nat t = 1%nat /\
      state f' = Some running.
Proof.
  apply (async_run_delivers_a_batch bowlWithFollowers 2%nat
           (mkFollower 8%nat 0 async (Some running))).
  - exact bowlWithFollowers_reachable.
  - reflexivity.
Defined.

(* ================================================================== *)
(** * Frozen documents and calls that throw *)

(** ** The sort with a mark *)

Section MapSort.
Context {A B : Type}.
Variable cmpA : A -> A -> Cmp.
Variable cmpB : B -> B -> Cmp.
Variable f : A -> B.

Lemma map_insertBy_in (x : A) (l : list A) :
  (forall y, In y l -> cmpB (f x) (f y) = cmpA x y) ->
  map f (insertBy cmpA x l) = insertBy cmpB (f x) (map f l).
Proof.
  induction l as [|a l IH]; simpl; intros H; [reflexivity|].
  rewrite (H a (or_introl eq_refl)).
  destruct (cmpA x a); simpl; try reflexivity.
  f_equal. apply IH. intros y Hy. apply H. now right.
Qed.

Lemma map_sortBy_in (l : list A) :
  (forall x y, In x l -> In y l -> cmpB (f x) (f y) = cmpA x y) ->
  map f (sortBy cmpA l) = sortBy cmpB (map f l).
Proof.
  induction l as [|a l IH]; simpl; intros H; [reflexivity|].
  rewrite map_insertBy_in.
  - f_equal. apply IH. intros x y Hx Hy. apply H; now right.
  - intros y Hy. apply sortBy_In in Hy. apply H; [now left|now right].
Qed.

End MapSort.

(** The order of the path arrays does not read the local index. *)
Lemma docCompare_setLocalIndex (x y : Doc) (i j : LocalIndex) :
  docComparePathThenNewestFirst (setLocalIndex x i) y
    = docComparePathThenNewestFirst x y /\
  docComparePathThenNewestFirst x (setLocalIndex y j)
    = docComparePathThenNewestFirst x y /\
  docComparePathThenNewestFirst (setLocalIndex x i) (setLocalIndex y j)
    = docComparePathThenNewestFirst x y.
Proof. repeat split. Qed.

(** The marked array holds the documents of the sorted array, in its
    order; so does the array with the local index set on the marked
    document. *)
Lemma marked_sort_docs (arr : list Doc) (d : Doc) :
  map snd
      (sortBy (fun x y : bool * Doc =>
                 docComparePathThenNewestFirst (snd x) (snd y))
              (map (pair false) arr ++ [(true, d)]))
  = sortBy docComparePathThenNewestFirst (arr ++ [d]).
Proof.
  rewrite (map_sortBy_in _ docComparePathThenNewestFirst snd).
  - now rewrite map_app, map_map, map_id.
  - reflexivity.
Qed.

Lemma marked_sort_stamped (arr : list Doc) (d : Doc) (i : LocalIndex) :
  map (fun x : bool * Doc => if fst x then setLocalIndex d i else snd x)
      (sortBy (fun x y : bool * Doc =>
                 docComparePathThenNewestFirst (snd x) (snd y))
              (map (pair false) arr ++ [(true, d)]))
  = sortBy docComparePathThenNewestFirst (arr ++ [setLocalIndex d i]).
Proof.
  rewrite (map_sortBy_in _ docComparePathThenNewestFirst).
  - now rewrite map_app, map_map, map_id.
  - assert (H : forall x : bool * Doc,
              In x (map (pair false) arr ++ [(true, d)]) ->
              fst x = false \/ x = (true, d)).
    { intros x Hx. apply in_app_or in Hx. destruct Hx as [Hx|[<-|[]]].
      - apply in_map_iff in Hx. destruct Hx as (e & <- & _). now left.
      - now right. }
    intros x y Hx Hy.
    destruct (H x Hx) as [Ex| ->]; destruct (H y Hy) as [Ey| ->];
      try rewrite Ex; try rewrite Ey; reflexivity.
Qed.

(** ** What a call of [upsertObject] does *)

Lemma upsertObject_cases (b : Bowl) (o : DocObject) :
  let d := fields o in
  let h := highestLocalIndex b + 1 in
  let d' := setLocalIndex d h in
  let key := combinePathAndAuthor d in
  let arr :=
    match JsMap.get String.eqb (path d) (docsByPathNewestFirst b) with
    | Some docs => docs
    | None => []
    end in
  let marked :=
    sortBy (fun x y : bool * Doc =>
              docComparePathThenNewestFirst (snd x) (snd y))
           (map (pair false) arr ++ [(true, d)]) in
  (exists e r,
     JsMap.get String.eqb key (docWithPathAndAuthor b) = Some e /\
     ((docCompareForOverwrite d e = Lt /\ r = Obsolete) \/
      (docCompareForOverwrite d e = Eq /\ r = AlreadyHadIt)) /\
     upsertObject b o = Returns r o b [])
  \/
  (match JsMap.get String.eqb key (docWithPathAndAuthor b) with
   | Some e => docCompareForOverwrite d e = Gt
   | None => True
   end /\
   ((frozen o = true /\
     upsertObject b o =
       Throws "TypeError"
         (mkBowl h (docWithLocalIndex b) (docWithPathAndAuthor b)
            (match JsMap.get String.eqb (path d) (docsByPathNewestFirst b)
             with
             | Some _ =>
                 JsMap.set String.eqb (path d)
                   (sortBy docComparePathThenNewestFirst (arr ++ [d]))
                   (docsByPathNewestFirst b)
             | None => docsByPathNewestFirst b
             end)
            (onWriteCbs b) (followers b))
         [])
    \/
    (frozen o = false /\
     exists fs t,
       upsertObject b o =
         Returns (if match marked with
                     | x :: _ => fst x
                     | [] => false
                     end
                  then AcceptedAndLatest else AcceptedButNotLatest)
           (mkDocObject d' true)
           (mkBowl h
              (JsMap.set Z.eqb h d' (docWithLocalIndex b))
              (JsMap.set String.eqb key d' (docWithPathAndAuthor b))
              (JsMap.set String.eqb (path d)
                 (sortBy docComparePathThenNewestFirst (arr ++ [d']))
                 (docsByPathNewestFirst b))
              (onWriteCbs b) fs)
           t /\
       exists ev delivered,
         t = map (fun c => EOnWrite c ev) (onWriteCbs b) ++ delivered /\
         doc ev = d' /\
         updateFollowers (followers b) d' h = Ok (fs, delivered)))).
Proof.
  intros d h d' key arr marked.
  assert (Hrest :
    match JsMap.get String.eqb key (docWithPathAndAuthor b) with
    | Some e => docCompareForOverwrite d e = Gt
    | None => True
    end ->
    option_map (docCompareForOverwrite d)
      (JsMap.get String.eqb key (docWithPathAndAuthor b)) <> Some Lt ->
    option_map (docCompareForOverwrite d)
      (JsMap.get String.eqb key (docWithPathAndAuthor b)) <> Some Eq ->
    (frozen o = true /\
     upsertObject b o =
       Throws "TypeError"
         (mkBowl h (docWithLocalIndex b) (docWithPathAndAuthor b)
            (match JsMap.get String.eqb (path d) (docsByPathNewestFirst b)
             with
             | Some _ =>
                 JsMap.set String.eqb (path d)
                   (sortBy docComparePathThenNewestFirst (arr ++ [d]))
                   (docsByPathNewestFirst b)
             | None => docsByPathNewestFirst b
             end)
            (onWriteCbs b) (followers b))
         [])
    \/
    (frozen o = false /\
     exists fs t,
       upsertObject b o =
         Returns (if match marked with
                     | x :: _ => fst x
                     | [] => false
                     end
                  then AcceptedAndLatest else AcceptedButNotLatest)
           (mkDocObject d' true)
           (mkBowl h
              (JsMap.set Z.eqb h d' (docWithLocalIndex b))
              (JsMap.set String.eqb key d' (docWithPathAndAuthor b))
              (JsMap.set String.eqb (path d)
                 (sortBy docComparePathThenNewestFirst (arr ++ [d']))
                 (docsByPathNewestFirst b))
              (onWriteCbs b) fs)
           t /\
       exists ev delivered,
         t = map (fun c => EOnWrite c ev) (onWriteCbs b) ++ delivered /\
         doc ev = d' /\
         updateFollowers (followers b) d' h = Ok (fs, delivered))).
  { intros _ HLt HEq.
    assert (Hun : upsertObject b o =
      if frozen o then
        Throws "TypeError"
          (mkBowl h (docWithLocalIndex b) (docWithPathAndAuthor b)
             (match JsMap.get String.eqb (path d) (docsByPathNewestFirst b)
              with
              | Some _ =>
                  JsMap.set String.eqb (path d) (map snd marked)
                    (docsByPathNewestFirst b)
              | None => docsByPathNewestFirst b
              end)
             (onWriteCbs b) (followers b))
          []
      else
        let existing :=
          map (fun x : bool * Doc => if fst x then d' else snd x) marked in
        let isFirst := match marked with x :: _ => fst x | [] => false end in
        let ev :=
          mkWriteEvent d' isFirst
            (JsMap.get String.eqb key (docWithPathAndAuthor b))
            (if isFirst && Nat.ltb 1 (List.length existing)
             then nth_error existing 1 else None) in
        let events := map (fun c => EOnWrite c ev) (onWriteCbs b) in
        let stored := fun fs =>
          mkBowl h (JsMap.set Z.eqb h d' (docWithLocalIndex b))
            (JsMap.set String.eqb key d' (docWithPathAndAuthor b))
            (JsMap.set String.eqb (path d) existing
               (docsByPathNewestFirst b))
            (onWriteCbs b) fs in
        match updateFollowers (followers b) d' h with
        | Ok (fs, delivered) =>
            Returns (if isFirst then AcceptedAndLatest
                     else AcceptedButNotLatest)
                    (mkDocObject d' true) (stored fs) (events ++ delivered)
        | Throw msg => Throws msg (stored (followers b)) events
        end).
    { unfold upsertObject. fold d. fold key.
      change (negb (docIsValid d)) with false. cbv iota.
      destruct (option_map (docCompareForOverwrite d)
                  (JsMap.get String.eqb key (docWithPathAndAuthor b)))
        as [[| |]|];
        [now elim HEq|now elim HLt|reflexivity|reflexivity]. }
    rewrite Hun. clear Hun.
    destruct (frozen o).
    - left. split; [reflexivity|].
      unfold marked. now rewrite marked_sort_docs.
    - right. split; [reflexivity|]. cbv zeta.
      unfold marked at 2 3 4, d'. rewrite marked_sort_stamped. fold d'.
      destruct (updateFollowers_returns (followers b) d' h)
        as (fs & t & Hfs).
      rewrite Hfs. eexists _, _. split; [reflexivity|].
      eexists _, _. split; [reflexivity|]. split; [reflexivity|].
      reflexivity. }
  destruct (JsMap.get String.eqb key (docWithPathAndAuthor b))
    as [e|] eqn:Hget.
  - destruct (docCompareForOverwrite d e) eqn:Hcmp.
    + left. exists e, AlreadyHadIt. split; [reflexivity|].
      split; [now right|].
      unfold upsertObject. fold d. fold key. rewrite Hget. simpl.
      now rewrite Hcmp.
    + left. exists e, Obsolete. split; [reflexivity|].
      split; [now left|].
      unfold upsertObject. fold d. fold key. rewrite Hget. simpl.
      now rewrite Hcmp.
    + right. split; [reflexivity|].
      apply Hrest; cbn [option_map]; rewrite ?Hcmp;
        congruence.
  - right. split; [exact I|].
    apply Hrest; cbn [option_map]; [exact I| |]; discriminate.
Qed.

(** [upsert] is [upsertObject] on a document object that is not frozen,
    in the bowls that calls which return bring about. *)
Lemma upsertObject_writable (b : Bowl) (d : Doc) (r : UpsertResult)
    (d' : Doc) (b' : Bowl) (t : list Effect) :
  Reachable b ->
  upsert b d = Ok (r, d', b', t) ->
  upsertObject b (mkDocObject d false)
    = Returns r (mkDocObject d' (accepted r)) b' t.
Proof.
  intros Hreach Hu.
  pose proof (StoreInv_reachable _ Hreach) as (Hidx & _ & (_ & Hent)).
  set (h := highestLocalIndex b + 1).
  set (arr := match JsMap.get String.eqb (path d) (docsByPathNewestFirst b)
              with Some docs => docs | None => [] end).
  assert (Harr : forall e, In e arr -> Doc_eqb e (setLocalIndex d h) = false).
  { intros e He. destruct (Doc_eqb e (setLocalIndex d h)) eqn:E;
      [exfalso|reflexivity].
    apply Doc_eqb_eq in E. subst e. unfold arr in He.
    destruct (JsMap.get String.eqb (path d) (docsByPathNewestFirst b))
      as [docs|] eqn:Hget; [|destruct He].
    apply (JsMapFacts.get_In String.eqb Seqb_eq) in Hget.
    rewrite Forall_forall in Hent. destruct (Hent _ Hget) as (_ & Hall).
    rewrite Forall_forall in Hall. destruct (Hall _ He) as (_ & Hin).
    destruct (LocalIndexInv_bound _ _ Hidx Hin) as (k & Hk & Hb).
    simpl in Hk. injection Hk as <-. unfold h in Hb. lia. }
  assert (Hfirst :
    match sortBy (fun x y : bool * Doc =>
                    docComparePathThenNewestFirst (snd x) (snd y))
                 (map (pair false) arr ++ [(true, d)]) with
    | x :: _ => fst x
    | [] => false
    end =
    match sortBy docComparePathThenNewestFirst
                 (arr ++ [setLocalIndex d h]) with
    | d0 :: _ => Doc_eqb d0 (setLocalIndex d h)
    | [] => false
    end).
  { rewrite <- marked_sort_stamped.
    destruct (sortBy _ (map (pair false) arr ++ [(true, d)]))
      as [|x rest] eqn:Hs; [reflexivity|].
    assert (Hx : In x (map (pair false) arr ++ [(true, d)])).
    { apply (sortBy_In (fun x y : bool * Doc =>
                          docComparePathThenNewestFirst (snd x) (snd y))).
      rewrite Hs. now left. }
    simpl. apply in_app_or in Hx. destruct Hx as [Hx|[<-|[]]].
    - apply in_map_iff in Hx. destruct Hx as (e & <- & He). simpl.
      symmetry. now apply Harr.
    - simpl. symmetry. now apply Doc_eqb_eq. }
  unfold upsert in Hu. unfold upsertObject. cbn [fields frozen].
  change (negb (docIsValid d)) with false in *. cbv iota in Hu |- *.
  destruct (option_map (docCompareForOverwrite d)
              (JsMap.get String.eqb (combinePathAndAuthor d)
                         (docWithPathAndAuthor b))) as [[| |]|];
    try (injection Hu as <- <- <- <-; reflexivity);
    cbv zeta in Hu |- *; fold h in Hu |- *; fold arr in Hu |- *;
    rewrite marked_sort_stamped, Hfirst;
    (destruct (updateFollowers (followers b) (setLocalIndex d h) h)
       as [[fs delivered]|]; simpl in Hu; [|discriminate]);
    injection Hu as <- <- <- <-;
    now destruct (match sortBy docComparePathThenNewestFirst _ with
                  | [] => false
                  | d0 :: _ => Doc_eqb d0 (setLocalIndex d h)
                  end).
Qed.

(** The bowls of [Reachable] are bowls of [Reached]. *)
Lemma Reachable_Reached (b : Bowl) : Reachable b -> Reached b.
Proof.
  assert (Hsub : forall b fs,
            Reached b -> Reached (setFollowers b fs)).
  { intros b0 fs H. apply (Reached_subscribers b0 (onWriteCbs b0) fs H). }
  induction 1 as [ | b c _ IH | b c _ IH | b fid f b' t Hreach IH Hadd
                 | b fid _ IH | b fid f f' t _ IH _ _
                 | b d r d' b' t Hreach IH Hu
                 | fakeHash b kp dw now uuid r d' b' t Hreach IH Hw ].
  - constructor.
  - apply (Reached_subscribers b (setAdd c (onWriteCbs b)) (followers b) IH).
  - apply (Reached_subscribers b _ (followers b) IH).
  - apply addFollower_store in Hadd. destruct Hadd as [fs ->].
    now apply Hsub.
  - now apply Hsub.
  - now apply Hsub.
  - apply (upsertObject_writable _ _ _ _ _ _ Hreach) in Hu.
    replace b' with (bowlLeft (upsertObject b (mkDocObject d false)))
      by now rewrite Hu.
    now constructor.
  - unfold write in Hw.
    apply (upsertObject_writable _ _ _ _ _ _ Hreach) in Hw.
    match type of Hw with
    | upsertObject b ?o = _ =>
        replace b' with (bowlLeft (upsertObject b o)) by now rewrite Hw
    end.
    now constructor.
Qed.

(** ** The indexes of every bowl *)

(** Pushing a document into the array of its path. *)
Lemma pathIndex_push (m : JsMap.t (K := Path) (V := list Doc)) (x : Doc) :
  NoDup (JsMap.keys m) ->
  Forall (fun kv => snd kv <> [] /\
                    Forall (fun e => path e = fst kv) (snd kv)) m ->
  let arr := match JsMap.get String.eqb (path x) m with
             | Some docs => docs
             | None => []
             end in
  let m' := JsMap.set String.eqb (path x)
              (sortBy docComparePathThenNewestFirst (arr ++ [x])) m in
  NoDup (JsMap.keys m') /\
  Forall (fun kv => snd kv <> [] /\
                    Forall (fun e => path e = fst kv) (snd kv)) m'.
Proof.
  intros Hnd Hent arr m'. split.
  - now apply (JsMapFacts.NoDup_keys_set String.eqb Seqb_eq).
  - apply JsMapFacts.Forall_set; [assumption|]. simpl. split.
    + apply sortBy_nonempty. now destruct arr.
    + apply Forall_forall. intros e He. apply sortBy_In in He.
      apply in_app_or in He. destruct He as [He|[<-|[]]]; [|reflexivity].
      unfold arr in He.
      destruct (JsMap.get String.eqb (path x) m) as [docs|] eqn:Hget;
        [|destruct He].
      apply (JsMapFacts.get_In String.eqb Seqb_eq) in Hget.
      rewrite Forall_forall in Hent. destruct (Hent _ Hget) as (_ & Hall).
      rewrite Forall_forall in Hall. now apply Hall.
Qed.

Lemma inArray_push (m : JsMap.t (K := Path) (V := list Doc)) (x e : Doc) :
  let arr := match JsMap.get String.eqb (path x) m with
             | Some docs => docs
             | None => []
             end in
  let m' := JsMap.set String.eqb (path x)
              (sortBy docComparePathThenNewestFirst (arr ++ [x])) m in
  (exists a, JsMap.get String.eqb (path e) m = Some a /\ In e a) ->
  exists a, JsMap.get String.eqb (path e) m' = Some a /\ In e a.
Proof.
  intros arr m' (a & Hget & He).
  destruct (string_dec (path x) (path e)) as [E|E].
  - exists (sortBy docComparePathThenNewestFirst (arr ++ [x])). split.
    + unfold m'. rewrite E.
      apply (JsMapFacts.get_set_same String.eqb Seqb_eq).
    + apply sortBy_In, in_or_app. left. unfold arr. now rewrite E, Hget.
  - exists a. split; [|assumption]. unfold m'.
    now rewrite (JsMapFacts.get_set_other String.eqb Seqb_eq).
Qed.

Lemma inArray_pushed (m : JsMap.t (K := Path) (V := list Doc)) (x : Doc) :
  let arr := match JsMap.get String.eqb (path x) m with
             | Some docs => docs
             | None => []
             end in
  let m' := JsMap.set String.eqb (path x)
              (sortBy docComparePathThenNewestFirst (arr ++ [x])) m in
  exists a, JsMap.get String.eqb (path x) m' = Some a /\ In x a.
Proof.
  intros arr m'.
  exists (sortBy docComparePathThenNewestFirst (arr ++ [x])). split.
  - apply (JsMapFacts.get_set_same String.eqb Seqb_eq).
  - apply sortBy_In, in_or_app. right. now left.
Qed.

(** What the call makes of the path index: nothing, or the array of the
    path with the document pushed, as it was given or with the local index
    set. *)
Lemma upsertObject_pathIndex (b : Bowl) (o : DocObject) :
  let b' := bowlLeft (upsertObject b o) in
  let arr :=
    match JsMap.get String.eqb (path (fields o)) (docsByPathNewestFirst b)
    with Some docs => docs | None => [] end in
  docsByPathNewestFirst b' = docsByPathNewestFirst b \/
  exists x,
    (x = fields o \/
     x = setLocalIndex (fields o) (highestLocalIndex b + 1)) /\
    docsByPathNewestFirst b' =
      JsMap.set String.eqb (path x)
        (sortBy docComparePathThenNewestFirst (arr ++ [x]))
        (docsByPathNewestFirst b).
Proof.
  intros b' arr. unfold b'.
  destruct (upsertObject_cases b o)
    as [(e & r & _ & _ & ->)
       |(_ & [(_ & ->)|(_ & fs & t & -> & _)])]; simpl.
  - now left.
  - fold arr.
    destruct (JsMap.get String.eqb (path (fields o))
                        (docsByPathNewestFirst b)); [|now left].
    right. exists (fields o). split; [now left|reflexivity].
  - right. exists (setLocalIndex (fields o) (highestLocalIndex b + 1)).
    split; [now right|reflexivity].
Qed.

Lemma IndexesInv_upsertObject (b : Bowl) (o : DocObject) :
  IndexesInv b -> IndexesInv (bowlLeft (upsertObject b o)).
Proof.
  intros (Hnd & Hent & Hidx & Hfiled).
  set (d := fields o). set (h := highestLocalIndex b + 1).
  assert (Hpush : forall x,
            path x = path d ->
            let m' := JsMap.set String.eqb (path d)
                        (sortBy docComparePathThenNewestFirst
                           (match JsMap.get String.eqb (path d)
                                            (docsByPathNewestFirst b) with
                            | Some docs => docs
                            | None => []
                            end ++ [x]))
                        (docsByPathNewestFirst b) in
            (NoDup (JsMap.keys m') /\
             Forall (fun kv => snd kv <> [] /\
                               Forall (fun e => path e = fst kv) (snd kv))
                    m') /\
            (forall e,
               inPathArray b e ->
               exists a, JsMap.get String.eqb (path e) m' = Some a /\
                         In e a) /\
            exists a, JsMap.get String.eqb (path x) m' = Some a /\ In x a).
  { intros x Hx. rewrite <- Hx. cbv zeta. split; [|split].
    - now apply pathIndex_push.
    - intros e He. now apply inArray_push.
    - apply inArray_pushed. }
  destruct (upsertObject_cases b o)
    as [(e & r & _ & _ & ->)
       |(_ & [(_ & ->)|(_ & fs & t & -> & _)])]; simpl.
  - repeat split; assumption.
  - fold d. fold h.
    destruct (JsMap.get String.eqb (path d) (docsByPathNewestFirst b))
      as [arr|] eqn:Hget.
    + destruct (Hpush d eq_refl) as ((H1 & H2) & H3 & _).
      unfold IndexesInv, inPathArray. simpl.
      split; [assumption|]. split; [assumption|]. split.
      * eapply Forall_impl; [|exact Hidx].
        intros [k e] (Hk & Hl & Hin). simpl in *.
        split; [unfold h; lia|]. split; [assumption|]. now apply H3.
      * eapply Forall_impl; [|exact Hfiled].
        intros [k e] (Hk & Hin). simpl in *.
        split; [assumption|]. now apply H3.
    + unfold IndexesInv, inPathArray. simpl.
      split; [assumption|]. split; [assumption|]. split; [|assumption].
      eapply Forall_impl; [|exact Hidx].
      intros [k e] (Hk & Hl & Hin). simpl in *.
      split; [unfold h; lia|]. now split.
  - fold d. fold h.
    destruct (Hpush (setLocalIndex d h) eq_refl) as ((H1 & H2) & H3 & H4).
    unfold IndexesInv, inPathArray. simpl.
    split; [assumption|]. split; [assumption|]. split.
    + apply JsMapFacts.Forall_set.
      * eapply Forall_impl; [|exact Hidx].
        intros [k e] (Hk & Hl & Hin). simpl in *.
        split; [unfold h; lia|]. split; [assumption|]. now apply H3.
      * simpl. split; [lia|]. split; [reflexivity|]. exact H4.
    + apply JsMapFacts.Forall_set.
      * eapply Forall_impl; [|exact Hfiled].
        intros [k e] (Hk & Hin). simpl in *.
        split; [assumption|]. now apply H3.
      * simpl. split; [reflexivity|]. exact H4.
Qed.

Lemma IndexesInv_reached (b : Bowl) : Reached b -> IndexesInv b.
Proof.
  induction 1 as [|b o _ IH|b cbs fs _ IH].
  - repeat split; constructor.
  - now apply IndexesInv_upsertObject.
  - exact IH.
Qed.

(** The documents of the arrays are the documents that are in the array
    of their path. *)
Lemma pathDocs_inPathArray (b : Bowl) (e : Doc) :
  IndexesInv b -> (In e (pathDocs b) <-> inPathArray b e).
Proof.
  intros (Hnd & Hent & _). unfold pathDocs, inPathArray, JsMap.values.
  rewrite in_concat. split.
  - intros (arr & Harr & He). apply in_map_iff in Harr.
    destruct Harr as ([p arr'] & Heq & Hin). simpl in Heq. subst arr'.
    rewrite Forall_forall in Hent. destruct (Hent _ Hin) as (_ & Hall).
    simpl in Hall. rewrite Forall_forall in Hall.
    rewrite (Hall _ He). exists arr. split; [|assumption].
    now apply (JsMapFacts.In_get String.eqb Seqb_eq).
  - intros (arr & Hget & He).
    apply (JsMapFacts.get_In String.eqb Seqb_eq) in Hget.
    exists arr. split; [|assumption].
    apply in_map_iff. now exists (path e, arr).
Qed.

(** A call takes no document out of an array. *)
Lemma upsertObject_pathDocs_incl (b : Bowl) (o : DocObject) :
  IndexesInv b ->
  incl (pathDocs b) (pathDocs (bowlLeft (upsertObject b o))).
Proof.
  intros Hinv e He.
  apply (pathDocs_inPathArray _ _ (IndexesInv_upsertObject b o Hinv)).
  apply (pathDocs_inPathArray _ _ Hinv) in He.
  unfold inPathArray in *.
  destruct (upsertObject_pathIndex b o) as [->|(x & Hx & ->)];
    [assumption|].
  assert (Hp : path x = path (fields o)) by now destruct Hx as [->| ->].
  rewrite <- Hp. now apply inArray_push.
Qed.

(** Where the sort puts a pushed document, and that the array stays in
    the order of the timestamps. *)
Lemma sorted_push (arr : list Doc) (x : Doc) :
  StronglySorted newerOrSame arr ->
  Forall (fun e => path e = path x) arr ->
  (forall e, In e arr -> signature e = signature x ->
             timestamp e = timestamp x) ->
  sortBy docComparePathThenNewestFirst (arr ++ [x])
    = notOlderThan x arr ++ x :: olderThan x arr /\
  StronglySorted newerOrSame (notOlderThan x arr ++ x :: olderThan x arr).
Proof.
  intros Hs Hp Hsig. split; [now apply sortBy_push|].
  unfold notOlderThan, olderThan. apply StronglySorted_middle.
  - now apply StronglySorted_filter.
  - now apply StronglySorted_filter.
  - apply Forall_forall. intros a Ha. apply filter_In in Ha.
    destruct Ha as [_ Hle]. apply Z.leb_le in Hle. exact Hle.
  - apply Forall_forall. intros c Hc. apply filter_In in Hc.
    destruct Hc as [_ Hlt]. apply Z.ltb_lt in Hlt.
    unfold newerOrSame. lia.
  - intros a c Ha Hc. apply filter_In in Ha, Hc.
    destruct Ha as [_ Hle]. destruct Hc as [_ Hlt].
    apply Z.leb_le in Hle. apply Z.ltb_lt in Hlt.
    unfold newerOrSame. lia.
Qed.

Lemma arrayOfPath_facts (b : Bowl) (p : Path) (arr : list Doc) :
  IndexesInv b -> TimeSorted b ->
  JsMap.get String.eqb p (docsByPathNewestFirst b) = Some arr ->
  arr <> [] /\
  Forall (fun e => path e = p) arr /\
  StronglySorted newerOrSame arr /\
  incl arr (pathDocs b).
Proof.
  intros (_ & Hent & _) Hsorted Hget.
  apply (JsMapFacts.get_In String.eqb Seqb_eq) in Hget.
  unfold TimeSorted in Hsorted. rewrite Forall_forall in Hent, Hsorted.
  destruct (Hent _ Hget) as (H1 & H2). specialize (Hsorted _ Hget).
  repeat split; try assumption.
  intros e He. unfold pathDocs, JsMap.values. apply in_concat.
  exists arr. split; [|assumption]. apply in_map_iff. now exists (p, arr).
Qed.

Lemma TimeSorted_upsertObject (b : Bowl) (o : DocObject) :
  IndexesInv b -> TimeSorted b ->
  signaturesAgree (pathDocs (bowlLeft (upsertObject b o))) ->
  TimeSorted (bowlLeft (upsertObject b o)).
Proof.
  intros Hinv Hsorted Hsig.
  pose proof (upsertObject_pathDocs_incl b o Hinv) as Hincl.
  pose proof (IndexesInv_upsertObject b o Hinv) as Hinv'.
  unfold TimeSorted.
  destruct (upsertObject_pathIndex b o) as [->|(x & Hx & Hm)];
    [assumption|].
  assert (Hp : path x = path (fields o)) by now destruct Hx as [->| ->].
  assert (Hxin : In x (pathDocs (bowlLeft (upsertObject b o)))).
  { apply (pathDocs_inPathArray _ _ Hinv'). unfold inPathArray.
    rewrite Hm, <- Hp. apply inArray_pushed. }
  rewrite Hm. apply JsMapFacts.Forall_set; [exact Hsorted|]. simpl.
  rewrite <- Hp.
  destruct (JsMap.get String.eqb (path x) (docsByPathNewestFirst b))
    as [arr|] eqn:Hget.
  - destruct (arrayOfPath_facts _ _ _ Hinv Hsorted Hget)
      as (_ & Hpaths & Hs & Harr).
    destruct (sorted_push arr x Hs Hpaths) as [-> Hres]; [|exact Hres].
    intros e He. apply Hsig; [|assumption]. apply Hincl. now apply Harr.
  - simpl. repeat constructor.
Qed.

Lemma TimeSorted_reached (b : Bowl) :
  Reached b -> signaturesAgree (pathDocs b) -> TimeSorted b.
Proof.
  induction 1 as [|b o Hreach IH|b cbs fs _ IH]; intros Hsig.
  - constructor.
  - pose proof (IndexesInv_reached _ Hreach) as Hinv.
    apply TimeSorted_upsertObject; try assumption.
    apply IH. eapply signaturesAgree_incl; [|exact Hsig].
    now apply upsertObject_pathDocs_incl.
  - apply IH. exact Hsig.
Qed.

(** ** Which element is the pushed one *)

(** The same for the array with the mark: the marked document is behind
    the documents that are as new or newer. *)
Lemma marked_push (arr : list Doc) (d : Doc) :
  StronglySorted newerOrSame arr ->
  Forall (fun e => path e = path d) arr ->
  (forall e, In e arr -> signature e = signature d ->
             timestamp e = timestamp d) ->
  sortBy (fun x y : bool * Doc =>
            docComparePathThenNewestFirst (snd x) (snd y))
         (map (pair false) arr ++ [(true, d)])
  = map (pair false) (notOlderThan d arr)
    ++ (true, d) :: map (pair false) (olderThan d arr).
Proof.
  intros Hs Hp Hsig. unfold notOlderThan, olderThan.
  set (cmp := fun x y : bool * Doc =>
                docComparePathThenNewestFirst (snd x) (snd y)).
  induction Hs as [|a arr Hs IH Ha]; [reflexivity|].
  inversion Hp as [|? ? Hpa Hparr]; subst.
  assert (IH' := IH Hparr (fun e He => Hsig e (or_intror He))).
  clear IH.
  change (sortBy cmp (map (pair false) (a :: arr) ++ [(true, d)]))
    with (insertBy cmp (false, a)
            (sortBy cmp (map (pair false) arr ++ [(true, d)]))).
  rewrite IH'. clear IH'. simpl List.filter.
  rewrite Forall_forall in Ha, Hparr.
  destruct (Z.leb_spec (timestamp d) (timestamp a)) as [Hle|Hlt].
  - replace (Z.ltb (timestamp a) (timestamp d)) with false
      by (symmetry; apply Z.ltb_ge; lia).
    apply insertBy_front.
    destruct (List.filter _ arr) as [|x rest] eqn:Hf; simpl.
    + unfold cmp. simpl. now apply docCompare_not_Gt.
    + assert (Hx : In x arr).
      { assert (In x (x :: rest)) as Hin by now left.
        rewrite <- Hf in Hin. now apply filter_In in Hin. }
      unfold cmp. simpl.
      apply docCompare_not_Gt; [|now apply Ha].
      now rewrite Hpa, (Hparr _ Hx).
  - replace (Z.ltb (timestamp a) (timestamp d)) with true
      by (symmetry; apply Z.ltb_lt; lia).
    rewrite filter_none, filter_all.
    + simpl. unfold cmp at 1. simpl. rewrite docCompare_Gt; try assumption.
      * f_equal. apply insertBy_front.
        destruct arr as [|x rest]; [exact I|].
        unfold cmp. simpl. apply docCompare_not_Gt.
        -- now rewrite Hpa, (Hparr x (or_introl eq_refl)).
        -- apply Ha. now left.
      * intros Heq. specialize (Hsig a (or_introl eq_refl) Heq). lia.
    + apply Forall_forall. intros e He. apply Z.ltb_lt.
      specialize (Ha e He). unfold newerOrSame in Ha. lia.
    + apply Forall_forall. intros e He. apply Z.leb_gt.
      specialize (Ha e He). unfold newerOrSame in Ha. lia.
Qed.

(** What a call makes of the array of the document's path, in a bowl
    whose arrays are in order. *)
Lemma upsertObject_push (b : Bowl) (o : DocObject) :
  IndexesInv b -> TimeSorted b ->
  (forall e, In e (pathDocs b) -> signature e = signature (fields o) ->
             timestamp e = timestamp (fields o)) ->
  let d := fields o in
  let arr :=
    match getAllDocsAtPath b (path d) with
    | Some docs => docs
    | None => []
    end in
  match upsertObject b o with
  | Returns r o' b' _ =>
      if accepted r
      then getAllDocsAtPath b' (path d)
             = Some (notOlderThan d arr ++ fields o' :: olderThan d arr) /\
           o' = mkDocObject (setLocalIndex d (highestLocalIndex b + 1)) true /\
           (r = AcceptedAndLatest <-> notOlderThan d arr = [])
      else b' = b /\ o' = o
  | Throws _ b' _ =>
      frozen o = true /\
      getAllDocsAtPath b' (path d)
        = match getAllDocsAtPath b (path d) with
          | Some _ => Some (notOlderThan d arr ++ d :: olderThan d arr)
          | None => None
          end
  end.
Proof.
  intros Hinv Hsorted Hsig d arr.
  assert (Harr : StronglySorted newerOrSame arr /\
                 Forall (fun e => path e = path d) arr /\
                 (forall e, In e arr -> signature e = signature d ->
                            timestamp e = timestamp d)).
  { unfold arr, getAllDocsAtPath.
    destruct (JsMap.get String.eqb (path d) (docsByPathNewestFirst b))
      as [docs|] eqn:Hget.
    - destruct (arrayOfPath_facts _ _ _ Hinv Hsorted Hget)
        as (_ & Hp & Hs & Hincl).
      repeat split; try assumption.
      intros e He. apply Hsig. now apply Hincl.
    - repeat split; try constructor. intros e []. }
  destruct Harr as (Hs & Hp & Hag).
  destruct (sorted_push arr d Hs Hp Hag) as [Hpush _].
  destruct (sorted_push arr (setLocalIndex d (highestLocalIndex b + 1))
              Hs Hp Hag) as [Hpush' _].
  pose proof (marked_push arr d Hs Hp Hag) as Hmarked.
  unfold getAllDocsAtPath in *.
  destruct (upsertObject_cases b o)
    as [(e & r & _ & Hr & ->)
       |(_ & [(Hfr & ->)|(_ & fs & t & -> & _)])].
  - now destruct Hr as [[_ ->]|[_ ->]].
  - split; [assumption|]. cbn [docsByPathNewestFirst]. fold d. fold arr.
    destruct (JsMap.get String.eqb (path d) (docsByPathNewestFirst b))
      as [docs|] eqn:Hget; [|assumption].
    rewrite (JsMapFacts.get_set_same String.eqb Seqb_eq).
    now rewrite Hpush.
  - fold d. fold arr. fold arr in Hmarked. rewrite Hmarked.
    assert (Hhead :
      (if match map (pair false) (notOlderThan d arr)
                ++ (true, d) :: map (pair false) (olderThan d arr) with
          | x :: _ => fst x
          | [] => false
          end
       then AcceptedAndLatest else AcceptedButNotLatest) = AcceptedAndLatest
      <-> notOlderThan d arr = []).
    { destruct (notOlderThan d arr); simpl; split; congruence. }
    destruct (match map (pair false) (notOlderThan d arr)
                    ++ (true, d) :: map (pair false) (olderThan d arr) with
              | x :: _ => fst x
              | [] => false
              end); cbn [accepted docsByPathNewestFirst fields];
      (split; [|split; [reflexivity|exact Hhead]]);
      rewrite (JsMapFacts.get_set_same String.eqb Seqb_eq);
      now rewrite Hpush'.
Qed.

(** C2.  In every bowl, one that a throwing [upsert] has left behind
    included, whose documents bear different signatures (or the same
    timestamp where they bear the same signature), the array of every
    path is not empty and holds documents of that path, the newer before
    the older, and element 0 is what [getLatestDocAtPath] returns.  A
    document that [upsert] pushes goes behind the documents of the path
    that are as new or newer and before the older ones, whatever the
    signatures: documents of one timestamp stay in the order of their
    arrival.  So a document upserted with a timestamp that is not above
    the one of the path's latest does not become the latest. *)
Theorem path_arrays_newest_first_in_arrival_order (b : Bowl)
    (Hreach : Reached b) (Hsig : signaturesAgree (pathDocs b)) :
  (forall (p : Path) (arr : list Doc),
     getAllDocsAtPath b p = Some arr ->
     arr <> [] /\
     Forall (fun e => path e = p) arr /\
     StronglySorted newerOrSame arr /\
     getLatestDocAtPath b p = nth_error arr 0) /\
  (forall (o : DocObject) (arr : list Doc),
     signaturesAgree (fields o :: pathDocs b) ->
     getAllDocsAtPath b (path (fields o)) = Some arr ->
     match upsertObject b o with
     | Returns r o' b' _ =>
         if accepted r
         then getAllDocsAtPath b' (path (fields o))
              = Some (notOlderThan (fields o) arr
                      ++ fields o' :: olderThan (fields o) arr)
         else b' = b
     | Throws _ b' _ =>
         getAllDocsAtPath b' (path (fields o))
         = Some (notOlderThan (fields o) arr
                 ++ fields o :: olderThan (fields o) arr)
     end) /\
  (forall (o : DocObject) (old : Doc),
     signaturesAgree (fields o :: pathDocs b) ->
     getLatestDocAtPath b (path (fields o)) = Some old ->
     timestamp (fields o) <= timestamp old ->
     getLatestDocAtPath (bowlLeft (upsertObject b o)) (path (fields o))
       = Some old /\
     forall o' b' t, upsertObject b o <> Returns AcceptedAndLatest o' b' t).
Proof.
  pose proof (IndexesInv_reached _ Hreach) as Hinv.
  pose proof (TimeSorted_reached _ Hreach Hsig) as Hsorted.
  assert (Hag : forall o,
            signaturesAgree (fields o :: pathDocs b) ->
            forall e, In e (pathDocs b) ->
                      signature e = signature (fields o) ->
                      timestamp e = timestamp (fields o)).
  { intros o Ho e He. apply Ho; [now right|now left]. }
  split; [|split].
  - intros p arr Hget. unfold getAllDocsAtPath in Hget.
    destruct (arrayOfPath_facts _ _ _ Hinv Hsorted Hget)
      as (H1 & H2 & H3 & _).
    repeat split; try assumption.
    unfold getLatestDocAtPath. now rewrite Hget.
  - intros o arr Ho Hget.
    pose proof (upsertObject_push b o Hinv Hsorted (Hag o Ho)) as Hpush.
    cbv zeta in Hpush. rewrite Hget in Hpush.
    destruct (upsertObject b o) as [r o' b' t|msg b' t].
    + destruct (accepted r); [apply Hpush|apply Hpush].
    + apply Hpush.
  - intros o old Ho Hold Hle.
    pose proof (upsertObject_push b o Hinv Hsorted (Hag o Ho)) as Hpush.
    cbv zeta in Hpush. unfold getLatestDocAtPath in Hold |- *.
    unfold getAllDocsAtPath in Hpush.
    destruct (JsMap.get String.eqb (path (fields o))
                        (docsByPathNewestFirst b)) as [arr|] eqn:Hget;
      [|discriminate].
    destruct arr as [|x rest]; [discriminate|]. injection Hold as ->.
    assert (Hne : exists l, notOlderThan (fields o) (old :: rest) = old :: l).
    { unfold notOlderThan. simpl.
      replace (Z.leb (timestamp (fields o)) (timestamp old)) with true
        by (symmetry; now apply Z.leb_le).
      now eexists. }
    destruct Hne as [l Hl]. rewrite Hl in Hpush.
    destruct (upsertObject b o) as [r o' b' t|msg b' t]; simpl.
    + destruct (accepted r) eqn:Hacc.
      * destruct Hpush as (Hp & _ & Hiff). rewrite Hp. split; [reflexivity|].
        intros o2 b2 t2 [= -> _ _ _].
        destruct Hiff as [Hiff _]. discriminate (Hiff eq_refl).
      * destruct Hpush as [-> _]. rewrite Hget. split; [reflexivity|].
        intros o2 b2 t2 [= -> _ _ _]. discriminate.
    + destruct Hpush as (_ & ->). split; [reflexivity|discriminate].
Qed.

Lemma bowlAfterThrow_reached : Reached bowlAfterThrow.
Proof.
  apply (Reached_upsert bowlWithA docOfBElsewhere).
  apply (Reached_upsert emptyBowl (mkDocObject docOfA false)).
  constructor.
Qed.

Lemma path_arrays_newest_first_in_arrival_order_witness :
  (forall (p : Path) (arr : list Doc),
     getAllDocsAtPath bowlAfterThrow p = Some arr ->
     arr <> [] /\
     Forall (fun e => path e = p) arr /\
     StronglySorted newerOrSame arr /\
     getLatestDocAtPath bowlAfterThrow p = nth_error arr 0) /\
  (forall (o : DocObject) (arr : list Doc),
     signaturesAgree (fields o :: pathDocs bowlAfterThrow) ->
     getAllDocsAtPath bowlAfterThrow (path (fields o)) = Some arr ->
     match upsertObject bowlAfterThrow o with
     | Returns r o' b' _ =>
         if accepted r
         then getAllDocsAtPath b' (path (fields o))
              = Some (notOlderThan (fields o) arr
                      ++ fields o' :: olderThan (fields o) arr)
         else b' = bowlAfterThrow
     | Throws _ b' _ =>
         getAllDocsAtPath b' (path (fields o))
         = Some (notOlderThan (fields o) arr
                 ++ fields o :: olderThan (fields o) arr)
     end) /\
  (forall (o : DocObject) (old : Doc),
     signaturesAgree (fields o :: pathDocs bowlAfterThrow) ->
     getLatestDocAtPath bowlAfterThrow (path (fields o)) = Some old ->
     timestamp (fields o) <= timestamp old ->
     getLatestDocAtPath (bowlLeft (upsertObject bowlAfterThrow o))
                        (path (fields o))
       = Some old /\
     forall o' b' t,
       upsertObject bowlAfterThrow o <> Returns AcceptedAndLatest o' b' t).
Proof.
  apply (path_arrays_newest_first_in_arrival_order bowlAfterThrow).
  - exact bowlAfterThrow_reached.
  - intros x y Hx Hy _. vm_compute in Hx, Hy.
    destruct Hx as [<-|[<-|[]]]; destruct Hy as [<-|[<-|[]]]; reflexivity.
Defined.

(** ** Local indexes when a call throws *)

(** A call that stores a document gives it the next local index; a call
    that throws on a frozen document uses the next local index up and
    stores nothing. *)
Lemma upsertObject_localIndex (b : Bowl) (o : DocObject) :
  match upsertObject b o with
  | Returns r o' b' _ =>
      if accepted r
      then _localIndex (fields o') = Some (highestLocalIndex b + 1) /\
           highestLocalIndex b' = highestLocalIndex b + 1 /\
           JsMap.get Z.eqb (highestLocalIndex b + 1) (docWithLocalIndex b')
             = Some (fields o')
      else b' = b
  | Throws _ b' _ =>
      frozen o = true /\
      highestLocalIndex b' = highestLocalIndex b + 1 /\
      docWithLocalIndex b' = docWithLocalIndex b
  end.
Proof.
  destruct (upsertObject_cases b o)
    as [(e & r & _ & Hr & ->)
       |(_ & [(Hfr & ->)|(_ & fs & t & -> & _)])].
  - now destruct Hr as [[_ ->]|[_ ->]].
  - now repeat split.
  - destruct (match sortBy _ _ with [] => false | x :: _ => fst x end);
      simpl; repeat split;
      apply (JsMapFacts.get_set_same Z.eqb Zeqb_eq).
Qed.

(** C7.  The first document a bowl stores does not always get the local
    index 1.  On a new bowl, [upsert] of a document that another bowl has
    stored, a frozen object, throws a [TypeError] after it has incremented
    [highestLocalIndex], and stores nothing; [upsert] of the same document
    as an object that can be written to then stores it, as the first
    document of the bowl, under the local index 2. *)
Theorem frozen_document_uses_up_a_local_index :
  exists b1 o2 b2,
    upsertObject emptyBowl docOfAElsewhere = Throws "TypeError" b1 [] /\
    highestLocalIndex b1 = 1 /\
    getAllDocs b1 false = [] /\
    upsertObject b1 (mkDocObject docOfA false)
      = Returns AcceptedAndLatest o2 b2 [] /\
    _localIndex (fields o2) = Some 2 /\
    getAllDocs b2 false = [fields o2] /\
    JsMap.get Z.eqb 1 (docWithLocalIndex b2) = None.
Proof.
  eexists _, _, _.
  split; [vm_compute; reflexivity|].
  split; [reflexivity|].
  split; [reflexivity|].
  split; [vm_compute; reflexivity|].
  split; [reflexivity|].
  split; reflexivity.
Qed.

(** ** What the queries return in every bowl *)

Lemma latest_docs_are_first (b : Bowl) (d : Doc) :
  IndexesInv b -> In d (getLatestDocs b false) ->
  getLatestDocAtPath b (path d) = Some d.
Proof.
  intros (Hnd & Hent & _) Hin. unfold getLatestDocs in Hin.
  apply in_flat_map in Hin. destruct Hin as (arr & Harr & Hd).
  unfold JsMap.values in Harr. apply in_map_iff in Harr.
  destruct Harr as ([p arr'] & Heq & Hin). simpl in Heq. subst arr'.
  rewrite Forall_forall in Hent. destruct (Hent _ Hin) as (Hne & Hall).
  simpl in Hne, Hall. destruct arr as [|x rest]; [contradiction|].
  simpl in Hd. destruct Hd as [<-|[]].
  inversion Hall as [|? ? Hp _]; subst.
  unfold getLatestDocAtPath.
  now rewrite (JsMapFacts.In_get String.eqb Seqb_eq _ _ _ Hnd Hin).
Qed.

(** X11.  [queryDocs] returns nothing it was not given: in every bowl,
    one that a throwing [upsert] has left behind included, a document of
    the result is not before the [startAt] of the query and passes
    [docMatchesFilter] when the query has a filter; it is a document of
    [getAllDocs()] when the query asks for the history [all], and is the
    latest document of its path otherwise. *)
Theorem queryDocs_sound (b : Bowl) (query : option Query) (d : Doc)
    (Hreach : Reached b)
    (Hin : In d (queryDocs b query)) :
  let q := spread defaultQuery
             (match query with Some q => q | None => emptyQuery end) in
  skippedByStartAt q d = false /\
  match filter q with
  | Some f => docMatchesFilter d f = true
  | None => True
  end /\
  (history q = Some all -> In d (getAllDocs b false)) /\
  (history q <> Some all -> getLatestDocAtPath b (path d) = Some d).
Proof.
  intros q. apply IndexesInv_reached in Hreach.
  unfold queryDocs in Hin. cbv zeta in Hin. fold q in Hin.
  apply queryLoop_In in Hin. destruct Hin as [[]|(Hin & Hskip & Hf)].
  assert (Hbase : In d (match history q with
                        | Some all => getAllDocs b false
                        | _ => getLatestDocs b false
                        end)).
  { destruct (orderBy q) as [o|]; [|exact Hin].
    destruct (isDesc o); [apply in_rev in Hin|];
      (destruct (isPathOrder o); [now apply sortBy_In in Hin|];
       destruct (isLocalIndexOrder o); [now apply sortBy_In in Hin|];
       exact Hin). }
  split; [assumption|]. split; [assumption|]. split.
  - intros Hh. now rewrite Hh in Hbase.
  - intros Hh. apply latest_docs_are_first; [assumption|].
    destruct (history q) as [[|]|]; [exact Hbase|contradiction|exact Hbase].
Qed.

Lemma bowlAfterNewerThrow_reached : Reached bowlAfterNewerThrow.
Proof.
  apply (Reached_upsert bowlWithA newerDocOfBElsewhere).
  apply (Reached_upsert emptyBowl (mkDocObject docOfA false)).
  constructor.
Qed.

Lemma queryDocs_sound_witness :
  let q := spread defaultQuery emptyQuery in
  let d := fields newerDocOfBElsewhere in
  skippedByStartAt q d = false /\
  match filter q with
  | Some f => docMatchesFilter d f = true
  | None => True
  end /\
  (history q = Some all -> In d (getAllDocs bowlAfterNewerThrow false)) /\
  (history q <> Some all ->
   getLatestDocAtPath bowlAfterNewerThrow (path d) = Some d).
Proof.
  apply (queryDocs_sound bowlAfterNewerThrow None
           (fields newerDocOfBElsewhere)).
  - exact bowlAfterNewerThrow_reached.
  - vm_compute. now left.
Defined.

(** ** The indexes agree, up to what a throwing call left behind *)




(** ** A write wins, below 2^53 *)

(** X17.  A write wins while timestamps stay below 2^53: in every bowl
    whose arrays hold documents with paths free of the separator ['|']
    and with different signatures, when the path written is free of the
    separator, the new signature is fresh and the timestamp of the path's
    latest document is below 2^53 in absolute value, [write] returns
    [AcceptedAndLatest] whatever the clock says and whoever wrote the path
    before; the document it made has the author of the keypair, the
    content written, the next local index and, where the path had a
    latest document, its timestamp plus one, and is what
    [getLatestDocAtPath] returns for the path afterwards. *)
Theorem write_becomes_latest (fakeHash : string -> string) (b : Bowl)
    (keypair : AuthorKeypair) (docToWrite : DocToWrite.t)
    (now : Timestamp) (uuid : string)
    (Hreach : Reached b)
    (Hsep : Forall (fun e => separatorFree (path e) = true) (pathDocs b))
    (Hpath : separatorFree (DocToWrite.path docToWrite) = true)
    (Hsig : signaturesAgree (pathDocs b))
    (Hfresh : Forall (fun e => signature e <> ("sig" ++ uuid)%string)
                     (pathDocs b))
    (Hsafe : match getLatestDocAtPath b (DocToWrite.path docToWrite) with
             | Some e => Z.abs (timestamp e) < 2 ^ 53
             | None => True
             end) :
  exists o' b' t,
    writeObject fakeHash b keypair docToWrite now uuid
      = Returns AcceptedAndLatest o' b' t /\
    getLatestDocAtPath b' (DocToWrite.path docToWrite) = Some (fields o') /\
    path (fields o') = DocToWrite.path docToWrite /\
    author (fields o') = address keypair /\
    content (fields o') = DocToWrite.content docToWrite /\
    _localIndex (fields o') = Some (highestLocalIndex b + 1) /\
    timestamp (fields o') =
      match getLatestDocAtPath b (DocToWrite.path docToWrite) with
      | Some e => timestamp e + 1
      | None => now
      end.
Proof.
  unfold writeObject.
  set (d := preparedDoc fakeHash b keypair docToWrite now uuid).
  assert (Hdp : path d = DocToWrite.path docToWrite) by reflexivity.
  assert (Hds : signature d = ("sig" ++ uuid)%string) by reflexivity.
  assert (Hdt : timestamp d =
                match getLatestDocAtPath b (path d) with
                | Some e => timestamp e + 1
                | None => now
                end).
  { rewrite Hdp. subst d. unfold preparedDoc. simpl.
    destruct (getLatestDocAtPath b (DocToWrite.path docToWrite));
      [now apply numberPlusOne_exact|reflexivity]. }
  assert (Hda : author d = address keypair) by reflexivity.
  assert (Hdc : content d = DocToWrite.content docToWrite) by reflexivity.
  clearbody d. rewrite <- Hdp in *. clear Hsafe.
  rewrite Forall_forall in Hsep, Hfresh.
  pose proof (IndexesInv_reached _ Hreach) as Hinv.
  pose proof (TimeSorted_reached _ Hreach Hsig) as Hsorted.
  assert (Hag : forall e, In e (pathDocs b) ->
                          signature e = signature d ->
                          timestamp e = timestamp d).
  { intros e He Heq. exfalso. apply (Hfresh _ He). congruence. }
  pose proof (upsertObject_push b (mkDocObject d false) Hinv Hsorted Hag)
    as Hpush.
  cbv zeta in Hpush. cbn [fields frozen] in Hpush.
  (* every document of the path is older than the prepared one *)
  assert (Holder : forall e arr,
            getAllDocsAtPath b (path d) = Some arr -> In e arr ->
            timestamp e < timestamp d).
  { intros e arr Hget He. unfold getAllDocsAtPath in Hget.
    destruct (arrayOfPath_facts _ _ _ Hinv Hsorted Hget)
      as (_ & _ & Hs & _).
    unfold getLatestDocAtPath in Hdt. rewrite Hget in Hdt.
    destruct arr as [|old rest]; [destruct He|]. simpl in Hdt.
    destruct He as [<-|He]; [lia|].
    inversion Hs as [|? ? _ Hfo]; subst.
    rewrite Forall_forall in Hfo. specialize (Hfo _ He).
    unfold newerOrSame in Hfo. lia. }
  assert (Hnone : notOlderThan d
                    match getAllDocsAtPath b (path d) with
                    | Some docs => docs
                    | None => []
                    end = []).
  { destruct (getAllDocsAtPath b (path d)) as [arr|] eqn:Hget;
      [|reflexivity].
    unfold notOlderThan. apply filter_none. apply Forall_forall.
    intros e He. apply Z.leb_gt. now apply (Holder e arr). }
  destruct (upsertObject_cases b (mkDocObject d false))
    as [(e & r & Hget & Hr & _)
       |(_ & [(Hfr & _)|(_ & fs & t & Hu & _)])];
    cbn [fields frozen] in *.
  - exfalso.
    destruct Hinv as (_ & _ & _ & Hfiled).
    apply (JsMapFacts.get_In String.eqb Seqb_eq) in Hget.
    rewrite Forall_forall in Hfiled.
    destruct (Hfiled _ Hget) as (Hk & Hin). simpl in Hk, Hin.
    assert (Hin' : In e (pathDocs b)).
    { apply pathDocs_inPathArray; [|exact Hin].
      now apply IndexesInv_reached. }
    destruct (combinePathAndAuthor_inj d e Hpath (Hsep _ Hin') Hk)
      as [Hpe _].
    destruct Hin as (arr & Harr & He). rewrite <- Hpe in Harr.
    pose proof (Holder e arr Harr He) as Hlt.
    assert (Hgt : docCompareForOverwrite d e = Gt).
    { apply docCompareForOverwrite_Gt, docCompareForOverwrite_Lt.
      now left. }
    destruct Hr as [[Hc _]|[Hc _]]; congruence.
  - discriminate.
  - rewrite Hu in Hpush.
    match type of Hu with
    | _ = Returns ?r _ _ _ =>
        assert (Hacc : accepted r = true)
          by (now destruct (match sortBy _ _ with
                            | [] => false
                            | x :: _ => fst x
                            end));
        assert (Hr : r = AcceptedAndLatest)
          by (rewrite Hacc in Hpush; now apply Hpush)
    end.
    rewrite Hacc, Hnone in Hpush. destruct Hpush as (Hlatest & _ & _).
    rewrite Hr in Hu.
    eexists _, _, _. split; [exact Hu|]. cbn [fields].
    split.
    { unfold getLatestDocAtPath. unfold getAllDocsAtPath in Hlatest.
      now rewrite Hlatest. }
    repeat split; assumption.
Qed.

Lemma write_becomes_latest_witness :
  exists o' b' t,
    writeObject sampleHash bowlAfterNewerThrow authorB writeOfB 7 "3"
      = Returns AcceptedAndLatest o' b' t /\
    getLatestDocAtPath b' (DocToWrite.path writeOfB) = Some (fields o') /\
    path (fields o') = DocToWrite.path writeOfB /\
    author (fields o') = address authorB /\
    content (fields o') = DocToWrite.content writeOfB /\
    _localIndex (fields o')
      = Some (highestLocalIndex bowlAfterNewerThrow + 1) /\
    timestamp (fields o') =
      match getLatestDocAtPath bowlAfterNewerThrow
                               (DocToWrite.path writeOfB) with
      | Some e => timestamp e + 1
      | None => 7
      end.
Proof.
  apply (write_becomes_latest sampleHash bowlAfterNewerThrow authorB
           writeOfB 7 "3").
  - exact bowlAfterNewerThrow_reached.
  - vm_compute. repeat constructor.
  - reflexivity.
  - intros x y Hx Hy. vm_compute in Hx, Hy.
    destruct Hx as [<-|[<-|[]]]; destruct Hy as [<-|[<-|[]]];
      try reflexivity; discriminate.
  - vm_compute. repeat constructor; discriminate.
  - vm_compute. reflexivity.
Defined.

(** From 2^53 on the sum [timestamp + 1] is the timestamp again: a write
    at a path whose latest document has the timestamp 2^53 makes a
    document of the same timestamp, which does not become the latest. *)
Lemma write_at_limit_is_not_latest :
  exists d' b',
    write sampleHash bowlAtLimit authorB writeOfB 7 "3"
      = Ok (AcceptedButNotLatest, d', b', []) /\
    timestamp d' = 2 ^ 53 /\
    getLatestDocAtPath b' "/p" = Some (setLocalIndex docAtLimit 1).
Proof.
  eexists _, _. split; [vm_compute; reflexivity|]. split; reflexivity.
Qed.

(** ** A callback that throws during the catch-up *)

Lemma deliveredDocs_map (fid : FollowerId) (docs : list Doc) :
  deliveredDocs fid (map (EFollowerCb fid) docs) = docs.
Proof.
  induction docs as [|d docs IH]; simpl; [reflexivity|].
  now rewrite Nat.eqb_refl, IH.
Qed.

(** X8.  A synchronous follower whose callback throws during the catch-up
    of [addFollower] stays registered, in the state [running]: the
    assignment of [sleeping] behind the loop is skipped, and nothing
    takes the follower out of the set.  The documents up to the one the
    callback threw on were delivered, the documents of the bowl are as
    before, and every later [upsert] that stores a document calls the
    follower with it and sets its [nextIndex], as for a follower whose
    [addFollower] returned. *)
Theorem sync_callback_throw_leaves_follower_running (b : Bowl)
    (fid : FollowerId) (f : Follower) (k : nat)
    (Hset : NoDup (JsMap.keys (followers b)))
    (Hkind : kind f = sync)
    (Hk : (k < List.length (getDocsSinceLocalIndex b (nextIndex f) None))%nat) :
  exists b' t,
    addFollowerCallbackThrows b fid f k = Some (b', t) /\
    JsMap.get Nat.eqb fid (followers b') = Some (setState f running) /\
    deliveredDocs fid t
      = firstn (S k) (getDocsSinceLocalIndex b (nextIndex f) None) /\
    getAllDocs b' false = getAllDocs b false /\
    highestLocalIndex b' = highestLocalIndex b /\
    forall o r o' b'' t',
      upsertObject b' o = Returns r o' b'' t' -> accepted r = true ->
      JsMap.get Nat.eqb fid (followers b'')
        = Some (setNextIndex (setState f running)
                             (highestLocalIndex b'' + 1)) /\
      deliveredDocs fid t' = [fields o'].
Proof.
  unfold addFollowerCallbackThrows. cbn [kind setState]. rewrite Hkind.
  cbv zeta.
  change (nextIndex (setState (setState f sleeping) running))
    with (nextIndex f).
  change (setState (setState f sleeping) running) with (setState f running).
  apply Nat.ltb_lt in Hk. rewrite Hk.
  eexists _, _. split; [reflexivity|].
  split; [apply (JsMapFacts.get_set_same Nat.eqb Neqb_eq)|].
  split; [apply deliveredDocs_map|].
  split; [reflexivity|]. split; [reflexivity|].
  intros o r o' b'' t' Hu Hacc.
  match type of Hu with
  | upsertObject ?b1 _ = _ =>
      destruct (upsertObject_cases b1 o)
        as [(e & r0 & _ & Hr & Hu')
           |(_ & [(_ & Hu')|(_ & fs & t0 & Hu' & ev & delivered
                             & Ht & Hev & Hfs)])];
      rewrite Hu' in Hu
  end.
  - injection Hu as <- _ _ _. now destruct Hr as [[_ ->]|[_ ->]].
  - discriminate.
  - injection Hu as _ <- <- <-.
    unfold setFollowers in Hfs, Ht.
    cbn [followers highestLocalIndex onWriteCbs fields] in Hfs, Ht |- *.
    match type of Hfs with
    | updateFollowers ?fs0 ?d1 ?h1 = _ =>
        assert (Hnd' : NoDup (JsMap.keys fs0))
          by (now apply (JsMapFacts.NoDup_keys_set Nat.eqb Neqb_eq));
        destruct (updateFollowers_spec fs0 d1 h1 Hnd')
          as (fs' & t1 & Hfs' & _ & _ & Hall)
    end.
    rewrite Hfs in Hfs'. injection Hfs' as <- <-.
    specialize (Hall fid).
    rewrite (JsMapFacts.get_set_same Nat.eqb Neqb_eq) in Hall.
    destruct Hall as (Hg & Hd & _).
    unfold followerAfterUpsert in Hg. cbn [kind setState] in Hg, Hd.
    rewrite Hkind in Hg, Hd.
    destruct (deliveredDocs_callbacks fid ev (onWriteCbs b)) as [Hd0 _].
    rewrite Ht, deliveredDocs_app, Hd0. now split.
Qed.

Lemma sync_callback_throw_leaves_follower_running_witness :
  exists b' t,
    addFollowerCallbackThrows bowlWithAB 1%nat syncFollower 1
      = Some (b', t) /\
    JsMap.get Nat.eqb 1%nat (followers b')
      = Some (setState syncFollower running) /\
    deliveredDocs 1%nat t
      = firstn 2 (getDocsSinceLocalIndex bowlWithAB
                    (nextIndex syncFollower) None) /\
    getAllDocs b' false = getAllDocs bowlWithAB false /\
    highestLocalIndex b' = highestLocalIndex bowlWithAB /\
    forall o r o' b'' t',
      upsertObject b' o = Returns r o' b'' t' -> accepted r = true ->
      JsMap.get Nat.eqb 1%nat (followers b'')
        = Some (setNextIndex (setState syncFollower running)
                             (highestLocalIndex b'' + 1)) /\
      deliveredDocs 1%nat t' = [fields o'].
Proof.
  apply (sync_callback_throw_leaves_follower_running bowlWithAB 1%nat
           syncFollower 1).
  - constructor.
  - reflexivity.
  - vm_compute. lia.
Defined.
